(** * spark-tree-plotting: the DOT rendering core of [spark_tree_plotting.py]

    A shallow embedding of the pure part of
    [python/spark_tree_plotting/spark_tree_plotting/spark_tree_plotting.py]:
    [generate_color_brew], [node_to_str], [get_num_classes], [add_node_ids],
    [relations_to_str] and the body of [export_graphviz], followed by the
    properties the specification states about them and by further
    properties of the same functions.

    Modelling choices.
    - Python [float] is IEEE-754 binary64, embedded with the standard
      library's [SpecFloat] operations at precision 53 and exponent bound
      1024; ["%.4f"] is the correctly rounded (ties to even) rendering of the
      exact binary value.  Rounding errors are bounded over the rationals:
      [F2Q] gives the rational a float stands for.
    - Python [int] is [Z]; [str] of an [int] is its decimal rendering.
    - A tree node (a Python dict parsed from JSON) is a value of the inductive
      type [node]; the optional key ["id"] is an [option Z].
    - Exceptions are values of [exn]; a computation that may raise returns a
      [result].  [node_to_str] appends to the caller's [nodeList]: it lives
      in the state-and-exception monad [Render].
    - The three [while] loops run on fuel; each top-level function supplies
      one more unit of fuel than the tree has nodes, and the theorems show
      that this is always enough.
    - [export_graphviz] is embedded from the parsed tree on: the call into
      the JVM that produces the tree is outside the model, as are
      [generate_tree_json] and [plot_tree].
    - [add_node_ids] mutates the dicts in place.  A reference to a node is
      modelled by its access path from the root, and the assignment
      [current_node["id"] = counter] by an update of the tree at that path. *)

From Stdlib Require Import ZArith QArith Lqa Qpower String Ascii DecimalString
  DecimalZ DecimalPos SpecFloat.
From stdpp Require Import base option list list_numbers strings gmap.

Local Open Scope Z_scope.

(* ===================================================================== *)
(** * Python runtime fragments *)
(* ===================================================================== *)

(** ** Exceptions and results *)

Inductive exn : Type :=
| KeyError
| IndexError
| ValueError
| ZeroDivisionError
| OverflowError.

Inductive result (A : Type) : Type :=
| Ok (a : A)
| Raise (e : exn).
Arguments Ok {A} a.
Arguments Raise {A} e.

#[global] Instance result_ret : MRet result := fun A a => Ok a.
#[global] Instance result_bind : MBind result := fun A B f m =>
  match m with
  | Ok a => f a
  | Raise e => Raise e
  end.

(** [try: body except KeyError: handler]. *)
Definition try_except_KeyError {A} (body handler : result A) : result A :=
  match body with
  | Raise KeyError => handler
  | r => r
  end.

(** ** Floats (binary64) *)

Definition float : Type := spec_float.

Definition prec : Z := 53.
Definition emax : Z := 1024.

(** The binary64 value nearest to an integer (ties to even). *)
Definition Z2F (z : Z) : float := binary_normalize prec emax z 0 false.

(** [float(n)], also the implicit conversion of an [int] operand:
    it raises [OverflowError] when the integer is too large. *)
Definition float_of_int (z : Z) : result float :=
  match Z2F z with
  | S754_infinity _ => Raise OverflowError
  | f => Ok f
  end.

Definition float_is_zero (x : float) : bool :=
  match x with
  | S754_zero _ => true
  | _ => false
  end.

(** [x / y] on floats. *)
Definition float_truediv (x y : float) : result float :=
  if float_is_zero y then Raise ZeroDivisionError else Ok (SFdiv prec emax x y).

(** [x * y] and [x - y] on floats (no exception: overflow gives [inf]). *)
Definition float_mul (x y : float) : float := SFmul prec emax x y.
Definition float_sub (x y : float) : float := SFsub prec emax x y.

(** A decimal literal [num/den] with both parts below [2^53]: the correctly
    rounded quotient is the binary64 value nearest to the decimal, which is
    what the Python (and JSON) reader produces. *)
Definition float_lit (num den : Z) : float := SFdiv prec emax (Z2F num) (Z2F den).

(** ** Strings *)

(** The double quote and the newline, by their codes. *)
Definition DQ : string := String "034"%char EmptyString.
Definition NL : string := String "010"%char EmptyString.

(** [str(z)] for an [int]. *)
Definition str_Z (z : Z) : string := NilZero.string_of_int (Z.to_int z).

(** Rounding of the rational [num/den] ([den > 0]) to the nearest integer,
    ties to even. *)
Definition round_half_even (num den : Z) : Z :=
  let q := num / den in
  let r := num mod den in
  match 2 * r ?= den with
  | Lt => q
  | Gt => q + 1
  | Eq => if Z.even q then q else q + 1
  end.

(** The magnitude [m * 2^e] scaled by [10^4] and rounded to an integer. *)
Definition scaled4 (m : positive) (e : Z) : Z :=
  match e with
  | Zneg p => round_half_even (Zpos m * 10000) (2 ^ Zpos p)
  | _ => Zpos m * 10000 * 2 ^ e
  end.

(** One decimal digit: the character of [d mod 10]. *)
Definition digit_text (d : Z) : string :=
  String (ascii_of_nat (48 + Z.to_nat (d mod 10))) EmptyString.

(** The four decimals of a scaled magnitude, leading zeros included. *)
Definition frac4 (n : Z) : string :=
  digit_text (n / 1000) +:+ digit_text (n / 100) +:+ digit_text (n / 10)
  +:+ digit_text n.

(** The digits of a scaled magnitude: integer part, point, four decimals. *)
Definition fmt4_abs (n : Z) : string :=
  str_Z (n / 10000) +:+ "." +:+ frac4 (n mod 10000).

(** ["%.4f" % x]. *)
Definition fmt4 (x : float) : string :=
  match x with
  | S754_nan => "nan"
  | S754_infinity s => if s then "-inf" else "inf"
  | S754_zero s => (if s then "-" else "") +:+ "0.0000"
  | S754_finite s m e => (if s then "-" else "") +:+ fmt4_abs (scaled4 m e)
  end.

(** ** Lists and dicts *)

(** [l.pop()]: the last element and the list without it. *)
Definition list_pop {A} (l : list A) : option (A * list A) :=
  match last l with
  | Some x => Some (x, removelast l)
  | None => None
  end.

(** [l[i]] on a list, with Python's negative indices. *)
Definition list_getitem {A} (l : list A) (i : Z) : result A :=
  let n := Z.of_nat (length l) in
  let j := if i <? 0 then n + i else i in
  if (0 <=? j) && (j <? n) then
    match l !! Z.to_nat j with
    | Some x => Ok x
    | None => Raise IndexError
    end
  else Raise IndexError.

(** [d[k]] on a dict. *)
Definition dict_getitem `{Countable K} {V} (d : gmap K V) (k : K) : result V :=
  match d !! k with
  | Some v => Ok v
  | None => Raise KeyError
  end.

(** [dict(enumerate(l))]. *)
Definition dict_enumerate {V} (l : list V) : gmap Z V := map_seqZ 0 l.

(** [range(0, stop, 5)]. *)
Definition range_by_5 (stop : Z) : list Z :=
  (fun k => 5 * k) <$> seqZ 0 ((stop + 4) / 5).

(** [l[i:i+5]] for [0 <= i]. *)
Definition slice_5 {A} (l : list A) (i : Z) : list A :=
  take 5 (drop (Z.to_nat i) l).

(** [max(l)]. *)
Definition list_max_Z (l : list Z) : result Z :=
  match l with
  | [] => Raise ValueError
  | x :: l' => Ok (foldl Z.max x l')
  end.

(** ** The rendering monad: the shared [nodeList] and exceptions *)

(** A computation that may append to [nodeList] and may raise.  The list is
    kept when an exception is raised, as the Python list object is. *)
Definition Render (A : Type) : Type := list string -> result A * list string.

#[global] Instance Render_ret : MRet Render := fun A a nodeList => (Ok a, nodeList).
#[global] Instance Render_bind : MBind Render := fun A B f m nodeList =>
  match m nodeList with
  | (Ok a, nodeList') => f a nodeList'
  | (Raise e, nodeList') => (Raise e, nodeList')
  end.

Definition lift {A} (r : result A) : Render A := fun nodeList => (r, nodeList).

(** [nodeList.append(s)]. *)
Definition nodeList_append (s : string) : Render unit :=
  fun nodeList => (Ok tt, nodeList ++ [s]).

(* ===================================================================== *)
(** * The data model *)
(* ===================================================================== *)

(** The split of an internal node: ["splitType"] with the field it selects,
    ["threshold"] or ["leftCategories"]. *)
Inductive split : Type :=
| Continuous (threshold : float)
| Categorical (leftCategories : list Z).

(** A tree node, ["nodeType"] being ["leaf"] or ["internal"].  The key
    ["id"] is absent ([None]) until [add_node_ids] has run. *)
Inductive node : Type :=
| Leaf (id : option Z) (prediction : Z) (impurity : float)
| Internal (id : option Z) (prediction : Z) (impurity : float)
    (featureIndex : Z) (splitType : split) (gain : float)
    (leftChild rightChild : node).

Definition node_id (n : node) : option Z :=
  match n with
  | Leaf id _ _ => id
  | Internal id _ _ _ _ _ _ _ => id
  end.

Definition node_prediction (n : node) : Z :=
  match n with
  | Leaf _ prediction _ => prediction
  | Internal _ prediction _ _ _ _ _ _ => prediction
  end.

Definition node_impurity (n : node) : float :=
  match n with
  | Leaf _ _ impurity => impurity
  | Internal _ _ impurity _ _ _ _ _ => impurity
  end.

(** [node["id"]]. *)
Definition node_getid (n : node) : result Z :=
  match node_id n with
  | Some i => Ok i
  | None => Raise KeyError
  end.

Fixpoint tree_size (n : node) : nat :=
  match n with
  | Leaf _ _ _ => 1
  | Internal _ _ _ _ _ _ l r => S (tree_size l + tree_size r)
  end.

(* ===================================================================== *)
(** * [generate_color_brew] *)
(* ===================================================================== *)

(** One element of the comprehension: [color * hue_step / 360.0]. *)
Definition brew_hue (hue_step : float) (color : Z) : result float :=
  c ← float_of_int color;
  float_truediv (float_mul c hue_step) (Z2F 360).

Definition generate_color_brew (n : Z) : result (list float) :=
  fn ← float_of_int n;
  hue_step ← float_truediv (Z2F 360) fn;
  mapM (brew_hue hue_step) (seqZ 0 n).

(* ===================================================================== *)
(** * [node_to_str] *)
(* ===================================================================== *)

(** The loop that fills [list_of_categories_5_by_5]: one comma-joined line
    per slice of five categories, each category shown by [show]. *)
Definition categories_5_by_5 (show : Z -> result string)
    (leftCategories : list Z) : result (list string) :=
  mapM (fun i => names ← mapM show (slice_5 leftCategories i);
                 mret (String.concat "," names))
       (range_by_5 (Z.of_nat (length leftCategories))).

(** The [categories] text when no labels are used: raw indices. *)
Definition categories_raw (leftCategories : list Z) : result string :=
  lines ← categories_5_by_5 (fun j => Ok (str_Z j)) leftCategories;
  mret ("categories# " +:+ "{" +:+ String.concat "\n" lines +:+ "}").

(** The [categories] text of the [try] block: labels of the feature. *)
Definition categories_named (categoryNames : gmap (Z + string) (list string))
    (feature_name : Z + string) (leftCategories : list Z) : result string :=
  labels ← dict_getitem categoryNames feature_name;
  let category_names := dict_enumerate labels in
  lines ← categories_5_by_5 (dict_getitem category_names) leftCategories;
  mret ("{" +:+ String.concat "\n" lines +:+ "}").

Definition label_continuous (id : Z) (feature_name_str : string)
    (threshold impurity gain : float) (class_name_str : string) : string :=
  " label=" +:+ DQ +:+ "Node ID " +:+ str_Z id +:+ "\n" +:+ feature_name_str
  +:+ " <= " +:+ fmt4 threshold +:+ "\nImpurity = " +:+ fmt4 impurity
  +:+ "\nGain = " +:+ fmt4 gain +:+ "\nPrediction = " +:+ class_name_str
  +:+ DQ +:+ " ".

Definition label_categorical (id : Z) (feature_name_str categories : string)
    (impurity gain : float) (class_name_str : string) : string :=
  " label=" +:+ DQ +:+ "Node ID " +:+ str_Z id +:+ "\n" +:+ feature_name_str
  +:+ " in " +:+ categories +:+ "\nImpurity = " +:+ fmt4 impurity
  +:+ "\nGain = " +:+ fmt4 gain +:+ "\nPrediction = " +:+ class_name_str
  +:+ DQ +:+ " ".

Definition label_leaf (id : Z) (impurity : float) (class_name_str : string)
    : string :=
  " label=" +:+ DQ +:+ "Node ID " +:+ str_Z id +:+ "\nImpurity = "
  +:+ fmt4 impurity +:+ "\nPrediction = " +:+ class_name_str +:+ DQ +:+ " ".

Definition fillcolor_attr (h s : float) : string :=
  "fillcolor=" +:+ DQ +:+ fmt4 h +:+ "," +:+ fmt4 s +:+ "," +:+ fmt4 (Z2F 1)
  +:+ DQ.

(** The class name shown for a prediction (lines 69-76). *)
Definition class_name_str_of (classNames : option (list string))
    (prediction : Z) : result string :=
  match classNames with
  | None => Ok ("Class #" +:+ str_Z prediction)
  | Some classNames =>
      let class_names := dict_enumerate classNames in
      dict_getitem class_names prediction
  end.

(** The feature name, as a dict key and as text (lines 83-89). *)
Definition feature_name_of (featureNames : option (list string))
    (featureIndex : Z) : result ((Z + string) * string) :=
  match featureNames with
  | None => Ok (inl featureIndex, "Feature #" +:+ str_Z featureIndex)
  | Some featureNames =>
      let featureNames := dict_enumerate featureNames in
      feature_name ← dict_getitem featureNames featureIndex;
      mret (inr feature_name, feature_name)
  end.

(** The [categories] text of a categorical split (lines 91-109). *)
Definition categories_of (categoryNames : option (gmap (Z + string) (list string)))
    (feature_name : Z + string) (leftCategories : list Z) : result string :=
  match categoryNames with
  | None => categories_raw leftCategories
  | Some categoryNames =>
      try_except_KeyError
        (categories_named categoryNames feature_name leftCategories)
        (categories_raw leftCategories)
  end.

(** The attributes of a node before the colour is added (lines 78-139). *)
Definition node_attributes (n : node) (featureNames : option (list string))
    (categoryNames : option (gmap (Z + string) (list string)))
    (class_name_str : string) (round_leaves : bool) : result (list string) :=
  let attributes := [] in
  match n with
  | Internal _ _ impurity featureIndex splitType gain _ _ =>
      '(feature_name, feature_name_str) ← feature_name_of featureNames featureIndex;
      match splitType with
      | Continuous threshold =>
          id ← node_getid n;
          let label := label_continuous id feature_name_str threshold
                         impurity gain class_name_str in
          mret (attributes ++ [label])
      | Categorical leftCategories =>
          categories ← categories_of categoryNames feature_name leftCategories;
          id ← node_getid n;
          let label := label_categorical id feature_name_str categories
                         impurity gain class_name_str in
          mret (attributes ++ [label])
      end
  | Leaf _ _ impurity =>
      id ← node_getid n;
      let label := label_leaf id impurity class_name_str in
      let attributes :=
        if round_leaves then attributes ++ ["shape=ellipse"] else attributes in
      mret (attributes ++ [label])
  end.

Definition node_to_str (n : node) (featureNames : option (list string))
    (categoryNames : option (gmap (Z + string) (list string)))
    (classNames : option (list string)) (numClasses : Z)
    (filled round_leaves : bool) (colorBrew : list float) : Render string :=
  class_name_str ← lift (class_name_str_of classNames (node_prediction n));
  attributes ← lift (node_attributes n featureNames categoryNames
                       class_name_str round_leaves);
  (* Color adding *)
  attributes ← lift (if filled then
                       h ← list_getitem colorBrew (node_prediction n);
                       let s := float_sub (Z2F 1) (node_impurity n) in
                       mret (attributes ++ [fillcolor_attr h s])
                     else mret attributes);
  id ← lift (node_getid n);
  _ ← nodeList_append (str_Z id +:+ " [" +:+ String.concat "," attributes +:+ "]");
  mret (str_Z id).

(* ===================================================================== *)
(** * [get_num_classes] *)
(* ===================================================================== *)

(** The [while] loop: [nodes_to_explore] is a stack (pop from the end). *)
Fixpoint explore_classes (fuel : nat) (nodes_to_explore : list node)
    (classes : gset Z) : option (gset Z) :=
  match fuel with
  | O => None
  | S fuel =>
      match list_pop nodes_to_explore with
      | None => Some classes
      | Some (current_node, nodes_to_explore) =>
          let classes := classes ∪ {[ node_prediction current_node ]} in
          match current_node with
          | Internal _ _ _ _ _ _ leftChild rightChild =>
              let nodes_to_explore := nodes_to_explore ++ [leftChild] in
              let nodes_to_explore := nodes_to_explore ++ [rightChild] in
              explore_classes fuel nodes_to_explore classes
          | Leaf _ _ _ => explore_classes fuel nodes_to_explore classes
          end
      end
  end.

(** [None] stands for a loop that did not finish on the fuel supplied. *)
Definition get_num_classes (n : node) : option (result Z) :=
  classes ← explore_classes (S (tree_size n)) [n] ∅;
  Some (m ← list_max_Z (elements classes); mret (m + 1)).

(* ===================================================================== *)
(** * [add_node_ids] *)
(* ===================================================================== *)

(** A reference to a node of the tree: the path from the root to it. *)
Inductive side : Type := GoLeft | GoRight.

#[global] Instance side_eq_dec : EqDecision side.
Proof. solve_decision. Defined.

Abbreviation path := (list side).

(** The node a reference points to. *)
Fixpoint subtree (p : path) (t : node) : option node :=
  match p with
  | [] => Some t
  | s :: p' =>
      match t with
      | Internal _ _ _ _ _ _ l r =>
          subtree p' (match s with GoLeft => l | GoRight => r end)
      | Leaf _ _ _ => None
      end
  end.

(** [n["id"] = k] on the node itself. *)
Definition with_id (k : Z) (n : node) : node :=
  match n with
  | Leaf _ prediction impurity => Leaf (Some k) prediction impurity
  | Internal _ prediction impurity featureIndex splitType gain l r =>
      Internal (Some k) prediction impurity featureIndex splitType gain l r
  end.

(** [current_node["id"] = k] where [current_node] is the node at [p]. *)
Fixpoint set_id (p : path) (k : Z) (t : node) : node :=
  match p with
  | [] => with_id k t
  | s :: p' =>
      match t with
      | Internal id prediction impurity featureIndex splitType gain l r =>
          match s with
          | GoLeft =>
              Internal id prediction impurity featureIndex splitType gain
                (set_id p' k l) r
          | GoRight =>
              Internal id prediction impurity featureIndex splitType gain
                l (set_id p' k r)
          end
      | Leaf _ _ _ => t
      end
  end.

(** The [while] loop: [nodes_to_explore] is a queue ([pop(0)] takes the
    head), holding references into the tree [root]. *)
Fixpoint add_ids_loop (fuel : nat) (nodes_to_explore : list path)
    (counter : Z) (root : node) : option node :=
  match fuel with
  | O => None
  | S fuel =>
      match nodes_to_explore with
      | [] => Some root
      | current_node :: nodes_to_explore =>
          let counter := counter + 1 in
          let root := set_id current_node counter root in
          match subtree current_node root with
          | Some (Internal _ _ _ _ _ _ _ _) =>
              let nodes_to_explore :=
                nodes_to_explore ++ [current_node ++ [GoLeft]] in
              let nodes_to_explore :=
                nodes_to_explore ++ [current_node ++ [GoRight]] in
              add_ids_loop fuel nodes_to_explore counter root
          | Some (Leaf _ _ _) => add_ids_loop fuel nodes_to_explore counter root
          | None => None
          end
      end
  end.

(** [None] stands for a loop that did not finish on the fuel supplied (or
    that followed a dangling reference); neither happens. *)
Definition add_node_ids (n : node) : option node :=
  add_ids_loop (S (tree_size n)) [[]] (-1) n.

(* ===================================================================== *)
(** * [relations_to_str] *)
(* ===================================================================== *)

Definition edge_true (parent child : string) : string :=
  parent +:+ "->" +:+ child
  +:+ "[labeldistance=2.5, labelangle=45., headlabel=" +:+ DQ +:+ "True"
  +:+ DQ +:+ "]" +:+ NL.

Definition edge_false (parent child : string) : string :=
  parent +:+ "->" +:+ child
  +:+ "[labeldistance=2.5, labelangle=-45., headlabel=" +:+ DQ +:+ "False"
  +:+ DQ +:+ "]" +:+ NL.

Section relations.
Variable featureNames : option (list string).
Variable categoryNames : option (gmap (Z + string) (list string)).
Variable classNames : option (list string).
Variable numClasses : Z.
Variable filled roundLeaves : bool.
Variable color_brew : list float.

Definition format_node (n : node) : Render string :=
  node_to_str n featureNames categoryNames classNames numClasses
    filled roundLeaves color_brew.

(** One iteration of the [while] loop on a non-empty stack: the new stack
    and the new [relations]. *)
Definition relations_step (nodes_to_explore : list node)
    (relations : list string) (current_node : node)
    : Render (list node * list string) :=
  match current_node with
  | Leaf _ _ _ => mret (nodes_to_explore, relations)
  | Internal _ _ _ _ _ _ leftChild rightChild =>
      a ← format_node current_node;
      b ← format_node leftChild;
      let relations := relations ++ [edge_true a b] in
      let nodes_to_explore := nodes_to_explore ++ [leftChild] in
      c ← format_node current_node;
      d ← format_node rightChild;
      let relations := relations ++ [edge_false c d] in
      let nodes_to_explore := nodes_to_explore ++ [rightChild] in
      mret (nodes_to_explore, relations)
  end.

(** The [while] loop; the value [None] stands for a loop that did not
    finish on the fuel supplied. *)
Fixpoint relations_loop (fuel : nat) (nodes_to_explore : list node)
    (relations : list string) : Render (option (list string)) :=
  match fuel with
  | O => mret None
  | S fuel =>
      match list_pop nodes_to_explore with
      | None => mret (Some relations)
      | Some (current_node, nodes_to_explore) =>
          '(nodes_to_explore, relations) ←
            relations_step nodes_to_explore relations current_node;
          relations_loop fuel nodes_to_explore relations
      end
  end.

Definition relations_to_str (n : node) : Render (option (list string)) :=
  relations_loop (S (tree_size n)) [n] [].
End relations.

(* ===================================================================== *)
(** * [export_graphviz] *)
(* ===================================================================== *)

(** The template of the DOT text (lines 366-371): its continuation lines
    start with twenty blanks. *)
Definition dot_string (style graph node_properties : string) : string :=
  "digraph Tree {" +:+ NL
  +:+ "                    node [shape=box style=" +:+ DQ +:+ style +:+ DQ
  +:+ "]" +:+ NL
  +:+ "                    subgraph body {" +:+ NL
  +:+ "                    " +:+ graph +:+ NL
  +:+ "                    " +:+ node_properties +:+ "}" +:+ NL
  +:+ "                    }".

(** The body of [export_graphviz] from line 346 on, as a function of
    [tree_dict], the tree that line 345 reads from the JVM.  [None] stands
    for a loop that did not finish on the fuel supplied. *)
Definition export_graphviz (tree_dict : node)
    (featureNames : option (list string))
    (categoryNames : option (gmap (Z + string) (list string)))
    (classNames : option (list string))
    (filled roundedCorners roundLeaves : bool) : option (result string) :=
  num_classes ← get_num_classes tree_dict;
  match num_classes with
  | Raise e => Some (Raise e)
  | Ok num_classes =>
      match generate_color_brew num_classes with
      | Raise e => Some (Raise e)
      | Ok color_brew =>
          let node_list := [] in
          tree_dict_with_id ← add_node_ids tree_dict;
          match relations_to_str featureNames categoryNames classNames
                  num_classes filled roundLeaves color_brew
                  tree_dict_with_id node_list with
          | (Raise e, _) => Some (Raise e)
          | (Ok None, _) => None
          | (Ok (Some graph), node_list) =>
              let node_properties := String.concat NL node_list in
              let filled_and_rounded := [] in
              let filled_and_rounded :=
                if filled then filled_and_rounded ++ ["filled"]
                else filled_and_rounded in
              let filled_and_rounded :=
                if roundedCorners then filled_and_rounded ++ ["rounded"]
                else filled_and_rounded in
              Some (Ok (dot_string (String.concat "," filled_and_rounded)
                          (String.concat "" graph) node_properties))
          end
      end
  end.

(* ===================================================================== *)
(** * Definitions used to state the properties *)
(* ===================================================================== *)

(** ** Node statements *)

(** The statement [node_to_str] appends for a node, with the node's id, as a
    function of the arguments alone. *)
Definition node_statement (n : node) (featureNames : option (list string))
    (categoryNames : option (gmap (Z + string) (list string)))
    (classNames : option (list string)) (filled round_leaves : bool)
    (colorBrew : list float) : result (Z * string) :=
  class_name_str ← class_name_str_of classNames (node_prediction n);
  attributes ← node_attributes n featureNames categoryNames class_name_str
                 round_leaves;
  attributes ← (if filled then
                  h ← list_getitem colorBrew (node_prediction n);
                  mret (attributes ++
                          [fillcolor_attr h (float_sub (Z2F 1) (node_impurity n))])
                else mret attributes);
  id ← node_getid n;
  mret (id, str_Z id +:+ " [" +:+ String.concat "," attributes +:+ "]").

(** The identifier a node statement declares: its text before the first
    blank. *)
Fixpoint stmt_id (s : string) : string :=
  match s with
  | EmptyString => EmptyString
  | String c s' => if Ascii.eqb c " "%char then EmptyString else String c (stmt_id s')
  end.

(** The text of an optional id. *)
Definition id_text (id : option Z) : string :=
  match id with
  | Some i => str_Z i
  | None => EmptyString
  end.

(** ** Lines of categories *)

(** Successive chunks of at most five elements, on fuel. *)
Fixpoint chunks_5 {A} (fuel : nat) (l : list A) : list (list A) :=
  match fuel, l with
  | S fuel, _ :: _ => take 5 l :: chunks_5 fuel (drop 5 l)
  | _, _ => []
  end.

(** The left categories in lines of five. *)
Definition lines_of_5 (l : list Z) : list (list Z) := chunks_5 (length l) l.

(** The lines with every value shown by [show]. *)
Definition show_lines (show : Z -> string) (lines : list (list Z))
    : list (list string) :=
  (fun c : list Z => show <$> c) <$> lines.

(** The text of the lines: values joined by commas, lines joined by the
    two characters backslash and [n], the whole in braces. *)
Definition braces_of_lines (lines : list (list string)) : string :=
  "{" +:+ String.concat "\n" (String.concat "," <$> lines) +:+ "}".

(** The labels of a feature have an entry at category [j]; that entry. *)
Definition has_label (labels : list string) (j : Z) : bool :=
  (0 <=? j) && (j <? Z.of_nat (length labels)).

Definition label_of (labels : list string) (j : Z) : string :=
  default "" (labels !! Z.to_nat j).

(** ** Nodes, predictions and ids of a tree *)

(** Counting the nodes of each kind. *)
Fixpoint internal_count (n : node) : nat :=
  match n with
  | Leaf _ _ _ => 0
  | Internal _ _ _ _ _ _ l r => S (internal_count l + internal_count r)
  end.

Fixpoint leaf_count (n : node) : nat :=
  match n with
  | Leaf _ _ _ => 1
  | Internal _ _ _ _ _ _ l r => (leaf_count l + leaf_count r)%nat
  end.

(** The predictions of all nodes, and the largest of them. *)
Fixpoint predictions (n : node) : list Z :=
  match n with
  | Leaf _ prediction _ => [prediction]
  | Internal _ prediction _ _ _ _ l r =>
      prediction :: predictions l ++ predictions r
  end.

Fixpoint max_prediction (n : node) : Z :=
  match n with
  | Leaf _ prediction _ => prediction
  | Internal _ prediction _ _ _ _ l r =>
      prediction `max` (max_prediction l `max` max_prediction r)
  end.

(** The ids of all nodes, in prefix order. *)
Fixpoint tree_ids (n : node) : list (option Z) :=
  match n with
  | Leaf id _ _ => [id]
  | Internal id _ _ _ _ _ l r => id :: tree_ids l ++ tree_ids r
  end.

(** The tree without its ids. *)
Fixpoint erase_ids (n : node) : node :=
  match n with
  | Leaf _ prediction impurity => Leaf None prediction impurity
  | Internal _ prediction impurity featureIndex splitType gain l r =>
      Internal None prediction impurity featureIndex splitType gain
        (erase_ids l) (erase_ids r)
  end.

(** The id of the node a reference points to. *)
Definition id_at (p : path) (t : node) : option Z :=
  subtree p t ≫= node_id.

(** The tree with the two children of its root exchanged. *)
Definition swap_children (t : node) : node :=
  match t with
  | Internal id prediction impurity featureIndex splitType gain l r =>
      Internal id prediction impurity featureIndex splitType gain r l
  | Leaf _ _ _ => t
  end.

(** ** Shapes and the order of the queue *)

(** The shape of a tree: its nodes without any content. *)
Inductive shape : Type :=
| SLeaf
| SNode (l r : shape).

Fixpoint shape_of (n : node) : shape :=
  match n with
  | Leaf _ _ _ => SLeaf
  | Internal _ _ _ _ _ _ l r => SNode (shape_of l) (shape_of r)
  end.

Fixpoint shape_size (s : shape) : nat :=
  match s with
  | SLeaf => 1
  | SNode l r => S (shape_size l + shape_size r)
  end.

Fixpoint shape_at (p : path) (s : shape) : option shape :=
  match p with
  | [] => Some s
  | d :: p' =>
      match s with
      | SNode l r => shape_at p' (match d with GoLeft => l | GoRight => r end)
      | SLeaf => None
      end
  end.

(** All references into a shape, in prefix order. *)
Fixpoint shape_paths (s : shape) : list path :=
  match s with
  | SLeaf => [[]]
  | SNode l r =>
      [] :: ((GoLeft ::.) <$> shape_paths l) ++ ((GoRight ::.) <$> shape_paths r)
  end.

(** The references below [p], [p] included. *)
Definition below (s : shape) (p : path) : list path :=
  match shape_at p s with
  | Some s' => (p ++.) <$> shape_paths s'
  | None => []
  end.

(** The references [add_node_ids] enqueues after visiting [p]. *)
Definition children (s : shape) (p : path) : list path :=
  match shape_at p s with
  | Some (SNode _ _) => [p ++ [GoLeft]; p ++ [GoRight]]
  | _ => []
  end.

(** The order in which the queue of [add_node_ids] is served. *)
Fixpoint bfs_order (fuel : nat) (queue : list path) (s : shape) : list path :=
  match fuel, queue with
  | S fuel, p :: queue => p :: bfs_order fuel (queue ++ children s p) s
  | _, _ => []
  end.

(** Numbering the nodes at the given references consecutively from [k]. *)
Fixpoint assign (order : list path) (k : Z) (t : node) : node :=
  match order with
  | [] => t
  | p :: order => assign order (k + 1) (set_id p k t)
  end.

(** A list of references that never goes back to a smaller depth. *)
Definition by_depth (l : list path) : Prop :=
  forall (i j : nat) (p q : path),
    (i < j)%nat -> l !! i = Some p -> l !! j = Some q ->
    (length p <= length q)%nat.

(** Two values that follow each other in a list. *)
Definition adjacent {A} (l : list A) (x y : A) : Prop :=
  exists i : nat, l !! i = Some x /\ l !! S i = Some y.

(** ** The order of the rendering *)

(** The order in which [relations_to_str] serves its stack: a node, then
    its right subtree, then its left subtree. *)
Fixpoint render_tree (format : node -> Render string) (t : node)
    (relations : list string) : Render (list string) :=
  match t with
  | Leaf _ _ _ => mret relations
  | Internal _ _ _ _ _ _ l r =>
      a ← format t;
      b ← format l;
      c ← format t;
      d ← format r;
      relations ← render_tree format r (relations ++ [edge_true a b; edge_false c d]);
      render_tree format l relations
  end.

(** The ids of the node statements of a rendering, in order. *)
Fixpoint render_ids (t : node) : list (option Z) :=
  match t with
  | Leaf _ _ _ => []
  | Internal id _ _ _ _ _ l r =>
      [id; node_id l; id; node_id r] ++ render_ids r ++ render_ids l
  end.

(** The internal nodes in the order of the rendering. *)
Fixpoint render_internal (t : node) : list node :=
  match t with
  | Leaf _ _ _ => []
  | Internal _ _ _ _ _ _ l r => t :: render_internal r ++ render_internal l
  end.

(** The two edges that leave an internal node. *)
Definition node_edges (n : node) : list string :=
  match n with
  | Internal id _ _ _ _ _ l r =>
      [edge_true (id_text id) (id_text (node_id l));
       edge_false (id_text id) (id_text (node_id r))]
  | Leaf _ _ _ => []
  end.

(** ** Hues *)

(** The hue the code computes for colour [i] of [n]. *)
Definition hue_of (n i : Z) : float :=
  SFdiv prec emax
    (SFmul prec emax (Z2F i) (SFdiv prec emax (Z2F 360) (Z2F n))) (Z2F 360).

(** The product [i * (1/n)] in binary64. *)
Definition ratio_product (n i : Z) : float :=
  SFmul prec emax (Z2F i) (SFdiv prec emax (Z2F 1) (Z2F n)).

(** A float is a number of the interval [0,1). *)
Definition in_unit_interval (x : float) : bool :=
  SFleb (Z2F 0) x && SFltb x (Z2F 1).

(** [x] is within [2^-51] of the rational [i/n] (for [0 < n]). *)
Definition near_ratio (x : float) (i n : Z) : bool :=
  match x with
  | S754_zero _ => i =? 0
  | S754_finite false m (Zneg e) =>
      Z.abs (Zpos m * n - i * 2 ^ Zpos e) * 2 ^ 51 <=? n * 2 ^ Zpos e
  | _ => false
  end.

(** ** Rounding *)

(** The location of the remainder [r] of a division by [d]. *)
Definition loc_of_rem (r d : Z) : location :=
  if r =? 0 then loc_Exact else loc_Inexact (2 * r ?= d).

(** The record [mrs] holds the quotient of [num] by [den]: the integer part
    in its mantissa, the place of the remainder in its two bits. *)
Definition represents (mrs : shr_record) (num den : Z) : Prop :=
  0 < den /\ 0 <= num /\ shr_m mrs = num / den
  /\ loc_of_shr_record mrs = loc_of_rem (num mod den) den.

(** A positive float with a full mantissa and an exponent in [[lo, hi]]. *)
Definition normal_in (x : float) (lo hi : Z) : Prop :=
  exists (m : positive) (e : Z),
    x = S754_finite false m e /\ 2 ^ 52 <= Zpos m < 2 ^ 53 /\ lo <= e <= hi.

(** The rational number a float stands for (0 for the special values). *)
Definition F2Q (x : float) : Q :=
  match x with
  | S754_finite s m e => (inject_Z (if s then Zneg m else Zpos m) * 2 ^ e)%Q
  | _ => 0%Q
  end.

(** Half a unit in the last place, relative to a full mantissa: [2^-53]. *)
Definition unit_roundoff : Q := 1 # 9007199254740992.

(** [v] is [x] up to the relative error [2^-53]. *)
Definition rel_near (v x : Q) : Prop :=
  (x * (1 - unit_roundoff) <= v <= x * (1 + unit_roundoff))%Q.

(** ** Nodes that go through [node_to_str] *)

(** The nodes of a tree, in prefix order. *)
Fixpoint nodes (t : node) : list node :=
  match t with
  | Leaf _ _ _ => [t]
  | Internal _ _ _ _ _ _ l r => t :: nodes l ++ nodes r
  end.

(** A list of names, when given, has an entry at index [i]. *)
Definition has_name (names : option (list string)) (i : Z) : bool :=
  match names with
  | None => true
  | Some names => (0 <=? i) && (i <? Z.of_nat (length names))
  end.

(** The name lookups of [node_to_str] on a node find their entries: the
    class name of the prediction and, for an internal node, the feature
    name of the feature index. *)
Definition names_found (featureNames classNames : option (list string))
    (n : node) : bool :=
  has_name classNames (node_prediction n)
  && match n with
     | Internal _ _ _ featureIndex _ _ _ _ => has_name featureNames featureIndex
     | Leaf _ _ _ => true
     end.

(** An index is within the bounds of a list, negative indices included. *)
Definition index_in_range {A} (l : list A) (i : Z) : bool :=
  (- Z.of_nat (length l) <=? i) && (i <? Z.of_nat (length l)).

(** [node_to_str] goes through on a node: its names are found, it has an
    id and, when [filled] is set, its prediction is an index of
    [colorBrew]. *)
Definition statement_ready (featureNames classNames : option (list string))
    (filled : bool) (colorBrew : list float) (n : node) : bool :=
  names_found featureNames classNames n
  && match node_id n with Some _ => true | None => false end
  && (negb filled || index_in_range colorBrew (node_prediction n)).

(** The nodes [relations_to_str] formats, in order: every internal node,
    its left child, the node again and its right child. *)
Fixpoint render_nodes (t : node) : list node :=
  match t with
  | Leaf _ _ _ => []
  | Internal _ _ _ _ _ _ l r =>
      [t; l; t; r] ++ render_nodes r ++ render_nodes l
  end.

(** The style of the nodes, from the two flags of [export_graphviz]. *)
Definition style_of (filled roundedCorners : bool) : string :=
  String.concat ","
    ((if filled then ["filled"] else [])
     ++ (if roundedCorners then ["rounded"] else [])).

(** ** The place of a node in its level *)

Definition side_bit (d : side) : Z :=
  match d with GoLeft => 0 | GoRight => 1 end.

(** The rank of a reference among all the references of its length, from
    the left: the reference read as a binary number, left for 0 and right
    for 1. *)
Definition path_rank (p : path) : Z :=
  foldl (fun acc d => 2 * acc + side_bit d) 0 p.

(** The index of a node in the array layout of a binary heap: 0 for the
    root, [2k+1] and [2k+2] for the children of the node of index [k]. *)
Definition heap_index (p : path) : Z :=
  2 ^ Z.of_nat (length p) - 1 + path_rank p.

(** [p] is to the left of [q]: where the two references part, [p] goes
    left and [q] goes right. *)
Definition left_of (p q : path) : Prop :=
  exists (c a b : path), p = c ++ GoLeft :: a /\ q = c ++ GoRight :: b.

(** The shape of the perfect tree of a given depth. *)
Fixpoint perfect (d : nat) : shape :=
  match d with
  | O => SLeaf
  | S d => SNode (perfect d) (perfect d)
  end.

(** A list whose values under [f] increase strictly. *)
Definition increasing {A} (f : A -> Z) (l : list A) : Prop :=
  forall (i j : nat) (x y : A),
    (i < j)%nat -> l !! i = Some x -> l !! j = Some y -> f x < f y.

(** The queue holds references of increasing heap index, all of them
    before the children of its head. *)
Definition queue_sorted (queue : list path) : Prop :=
  increasing heap_index queue
  /\ match queue with
     | [] => True
     | p :: rest => Forall (fun a => heap_index a < 2 * heap_index p + 1) rest
     end.

(** ** The edges as triples *)

(** The two edges that leave an internal node, as triples: whether the
    edge goes to the left child, the id of the node, the id of the child. *)
Definition node_edge_ids (n : node) : list (bool * option Z * option Z) :=
  match n with
  | Internal id _ _ _ _ _ l r => [(true, id, node_id l); (false, id, node_id r)]
  | Leaf _ _ _ => []
  end.

(** The text of an edge. *)
Definition edge_text (e : bool * option Z * option Z) : string :=
  let '(to_left, parent, child) := e in
  if to_left then edge_true (id_text parent) (id_text child)
  else edge_false (id_text parent) (id_text child).

(** The edges of a tree, in the order [relations_to_str] returns them. *)
Definition tree_edges (t : node) : list (bool * option Z * option Z) :=
  render_internal t ≫= node_edge_ids.

(* ===================================================================== *)
(** * Properties *)
(* ===================================================================== *)

Local Set Warnings "-clear-no-such-hyp".

(* ===================================================================== *)
(** * Basic facts about the runtime fragments *)
(* ===================================================================== *)

Lemma list_pop_snoc {A} (l : list A) (x : A) : list_pop (l ++ [x]) = Some (x, l).
Proof.
  unfold list_pop. rewrite last_snoc. f_equal. f_equal.
  apply removelast_last.
Qed.

(** [node_to_str] appends the node statement and returns the id, or raises
    and leaves [nodeList] as it was. *)
Lemma node_to_str_run n fN cN clN numC filled rl brew nodeList :
  node_to_str n fN cN clN numC filled rl brew nodeList =
  match node_statement n fN cN clN filled rl brew with
  | Ok (i, stmt) => (Ok (str_Z i), nodeList ++ [stmt])
  | Raise e => (Raise e, nodeList)
  end.
Proof.
  unfold node_to_str, node_statement.
  unfold mbind, Render_bind, result_bind, lift, mret, Render_ret, result_ret,
    nodeList_append.
  destruct (class_name_str_of clN (node_prediction n)) as [cls|e]; [|done].
  destruct (node_attributes n fN cN cls rl) as [attrs|e]; [|done].
  destruct filled.
  - destruct (list_getitem brew (node_prediction n)) as [h|e]; [|done].
    destruct (node_getid n); done.
  - destruct (node_getid n); done.
Qed.

Lemma node_statement_id n fN cN clN filled rl brew i stmt :
  node_statement n fN cN clN filled rl brew = Ok (i, stmt) ->
  node_id n = Some i /\ stmt_id stmt = stmt_id (str_Z i +:+ " ").
Proof.
  unfold node_statement.
  unfold mbind, result_bind, mret, result_ret.
  destruct (class_name_str_of clN (node_prediction n)) as [cls|e]; [|done].
  destruct (node_attributes n fN cN cls rl) as [attrs|e]; [|done].
  assert (Hgen : forall attrs' : list string,
    match node_getid n with
    | Ok a => Ok (a, str_Z a +:+ " [" +:+ String.concat "," attrs' +:+ "]")
    | Raise e => Raise e
    end = Ok (i, stmt) ->
    node_id n = Some i /\ stmt_id stmt = stmt_id (str_Z i +:+ " ")).
  { intros attrs'. unfold node_getid. destruct (node_id n) as [j|]; [|done].
    intros [= -> <-]. split; [done|].
    generalize (str_Z i). intros s. induction s as [|c s IH]; [done|].
    simpl. destruct (Ascii.eqb c " "); [done|]. by rewrite IH. }
  destruct filled.
  - destruct (list_getitem brew (node_prediction n)) as [h|e]; [|done].
    apply Hgen.
  - apply Hgen.
Qed.

(* ===================================================================== *)
(** * The text of ids *)
(* ===================================================================== *)

Lemma stmt_id_uint (d : Decimal.uint) (rest : string) :
  stmt_id (NilEmpty.string_of_uint d +:+ " " +:+ rest)
  = NilEmpty.string_of_uint d.
Proof.
  induction d as [|d IH|d IH|d IH|d IH|d IH|d IH|d IH|d IH|d IH|d IH];
    [done|..]; cbn [NilEmpty.string_of_uint];
    change (String ?c ?s +:+ ?r) with (String c (s +:+ r));
    cbn [stmt_id]; simpl Ascii.eqb; cbv iota; by rewrite IH.
Qed.

(** The text of an id holds no blank: a node statement starts with it. *)
Lemma stmt_id_str_Z (i : Z) (rest : string) :
  stmt_id (str_Z i +:+ " " +:+ rest) = str_Z i.
Proof.
  unfold str_Z. destruct (Z.to_int i) as [d|d]; simpl.
  - destruct d; try apply stmt_id_uint. done.
  - change (String ?c ?s +:+ ?r) with (String c (s +:+ r)).
    cbn [stmt_id]. simpl Ascii.eqb. cbv iota. f_equal.
    destruct d; try apply stmt_id_uint. done.
Qed.

Lemma str_Z_inj : Inj (=) (=) str_Z.
Proof.
  intros i j Hij. unfold str_Z in Hij.
  assert (Hnil : forall z, Z.to_int z <> Decimal.Pos Decimal.Nil
                           /\ Z.to_int z <> Decimal.Neg Decimal.Nil).
  { intros [|p|p]; simpl; split; try done;
      intros [= H]; by apply Unsigned.to_uint_nonnil in H. }
  apply DecimalZ.to_int_inj.
  assert (Some (Z.to_int i) = Some (Z.to_int j)) as [= ->]; [|done].
  rewrite <- (NilZero.isi (Z.to_int i)), <- (NilZero.isi (Z.to_int j));
    try apply Hnil.
  by rewrite Hij.
Qed.

(* ===================================================================== *)
(** * The rendering of numbers *)
(* ===================================================================== *)

(** [round_half_even] is within one half of the quotient. *)
Lemma round_half_even_near num den :
  0 < den -> 2 * Z.abs (round_half_even num den * den - num) <= den.
Proof.
  intros Hden. unfold round_half_even.
  pose proof (Z.div_mod num den ltac:(lia)) as Hdm.
  pose proof (Z.mod_pos_bound num den Hden) as Hr.
  set (q := num / den) in *. set (r := num mod den) in *.
  clearbody q r. subst num.
  destruct (Z.compare_spec (2 * r) den) as [Heq|Hlt|Hgt];
    [destruct (Z.even q)|..];
    match goal with |- context [Z.abs ?x] => ring_simplify x end; lia.
Qed.

(** On negative exponents [scaled4] is the scaled magnitude rounded to the
    nearest integer; on the others it is the scaled magnitude itself. *)
Lemma scaled4_near m p :
  2 * Z.abs (scaled4 m (Zneg p) * 2 ^ Zpos p - Zpos m * 10000) <= 2 ^ Zpos p.
Proof. apply round_half_even_near. by apply Z.pow_pos_nonneg. Qed.

Lemma scaled4_nonneg m e : 0 <= scaled4 m e.
Proof.
  destruct e as [|p|p]; unfold scaled4.
  - lia.
  - assert (0 < 2 ^ Zpos p) by (by apply Z.pow_pos_nonneg). nia.
  - unfold round_half_even.
    assert (0 < 2 ^ Zpos p) by (by apply Z.pow_pos_nonneg).
    assert (0 <= Zpos m * 10000 / 2 ^ Zpos p) by (apply Z.div_pos; lia).
    destruct (_ ?= _); [destruct (Z.even _)|..]; lia.
Qed.

(** A finite float is rendered with its sign, the integer part of the
    rounded scaled magnitude, a point and exactly four decimals. *)
Lemma fmt4_finite s m e :
  exists frac : string,
    fmt4 (S754_finite s m e) =
      (if s then "-" else "") +:+ str_Z (scaled4 m e / 10000) +:+ "." +:+ frac
    /\ String.length frac = 4%nat.
Proof. by exists (frac4 (scaled4 m e mod 10000)). Qed.

(* ===================================================================== *)
(** * Labels of continuous splits *)
(* ===================================================================== *)

Lemma string_app_assoc (a b c : string) : (a +:+ b) +:+ c = a +:+ (b +:+ c).
Proof.
  induction a as [|x a IH]; [done|].
  change (String x ((a +:+ b) +:+ c) = String x (a +:+ b +:+ c)).
  by rewrite IH.
Qed.

(** C5.  A continuous-split internal node formatted without feature names
    and without class names.  Its label reads, in this order: Node ID and the
    id; Feature # and the feature index, then <= and the threshold with four
    decimals; Impurity with four decimals; Gain with four decimals;
    Prediction = Class # and the prediction.  The node statement is the id
    followed by the label in brackets, with the fill colour after the label
    when [filled] is set.  For feature index 2, threshold 1.5, impurity 0.32,
    gain 0.1 and prediction 0 the label contains Feature #2 <= 1.5000,
    Impurity = 0.3200, Gain = 0.1000 and Prediction = Class #0. *)
Theorem continuous_label_without_names
    (id prediction featureIndex : Z) (impurity threshold gain : float)
    (l r : node) (cN : option (gmap (Z + string) (list string))) (numC : Z)
    (rl : bool) (brew : list float) (nodeList : list string) :
  let n := Internal (Some id) prediction impurity featureIndex
             (Continuous threshold) gain l r in
  let label :=
    " label=" +:+ DQ +:+ "Node ID " +:+ str_Z id
    +:+ "\nFeature #" +:+ str_Z featureIndex +:+ " <= " +:+ fmt4 threshold
    +:+ "\nImpurity = " +:+ fmt4 impurity
    +:+ "\nGain = " +:+ fmt4 gain
    +:+ "\nPrediction = Class #" +:+ str_Z prediction +:+ DQ +:+ " " in
  node_to_str n None cN None numC false rl brew nodeList
    = (Ok (str_Z id), nodeList ++ [str_Z id +:+ " [" +:+ label +:+ "]"])
  /\ node_to_str n None cN None numC true rl brew nodeList
     = match list_getitem brew prediction with
       | Ok h =>
           (Ok (str_Z id),
            nodeList ++ [str_Z id +:+ " [" +:+ label +:+ ","
                         +:+ fillcolor_attr h (float_sub (Z2F 1) impurity)
                         +:+ "]"])
       | Raise e => (Raise e, nodeList)
       end
  /\ (featureIndex = 2 -> threshold = float_lit 15 10 ->
      impurity = float_lit 32 100 -> gain = float_lit 1 10 -> prediction = 0 ->
      label = " label=" +:+ DQ +:+ "Node ID " +:+ str_Z id
              +:+ "\nFeature #2 <= 1.5000\nImpurity = 0.3200\nGain = 0.1000\nPrediction = Class #0"
              +:+ DQ +:+ " ").
Proof.
  intros n label. split; [|split].
  - rewrite node_to_str_run. unfold node_statement. simpl.
    unfold label, label_continuous. simpl.
    by rewrite !string_app_assoc.
  - rewrite node_to_str_run. unfold node_statement. simpl.
    unfold mbind, result_bind. simpl.
    destruct (list_getitem brew prediction) as [h|e]; [|done].
    simpl. unfold label, label_continuous. simpl.
    by rewrite !string_app_assoc.
  - intros -> -> -> -> ->. unfold label. by do 4 f_equal.
Qed.

Lemma continuous_label_without_names_witness :
  node_to_str
    (Internal (Some 0) 0 (float_lit 32 100) 2 (Continuous (float_lit 15 10))
       (float_lit 1 10) (Leaf (Some 1) 0 (Z2F 0)) (Leaf (Some 2) 1 (Z2F 0)))
    None None None 2 false true [] []
  = (Ok "0",
     ["0 [ label=" +:+ DQ
      +:+ "Node ID 0\nFeature #2 <= 1.5000\nImpurity = 0.3200\nGain = 0.1000\nPrediction = Class #0"
      +:+ DQ +:+ " ]"]).
Proof.
  rewrite (proj1 (continuous_label_without_names 0 0 2 (float_lit 32 100)
                    (float_lit 15 10) (float_lit 1 10)
                    (Leaf (Some 1) 0 (Z2F 0)) (Leaf (Some 2) 1 (Z2F 0))
                    None 2 true [] [])).
  vm_compute. reflexivity.
Defined.

Lemma node_counts (t : node) :
  leaf_count t = S (internal_count t)
  /\ tree_size t = (2 * internal_count t + 1)%nat.
Proof. induction t as [|? ? ? ? ? ? l [IHl1 IHl2] r [IHr1 IHr2]]; simpl; lia. Qed.

(* ===================================================================== *)
(** * [relations_to_str] *)
(* ===================================================================== *)

Section relations_facts.
Context (fN : option (list string))
        (cN : option (gmap (Z + string) (list string)))
        (clN : option (list string)) (numC : Z) (filled rl : bool)
        (brew : list float).

Abbreviation step := (relations_step fN cN clN numC filled rl brew).
Abbreviation loop := (relations_loop fN cN clN numC filled rl brew).
Abbreviation format := (format_node fN cN clN numC filled rl brew).

Lemma format_node_run n nodeList :
  format n nodeList =
  match node_statement n fN cN clN filled rl brew with
  | Ok (i, stmt) => (Ok (str_Z i), nodeList ++ [stmt])
  | Raise e => (Raise e, nodeList)
  end.
Proof. apply node_to_str_run. Qed.

Lemma format_node_ok n nodeList s nodeList' :
  format n nodeList = (Ok s, nodeList') ->
  exists i stmt, node_id n = Some i /\ s = str_Z i /\
    nodeList' = nodeList ++ [stmt] /\
    stmt_id stmt = stmt_id (str_Z i +:+ " ").
Proof.
  rewrite format_node_run.
  destruct (node_statement n fN cN clN filled rl brew) as [[i stmt]|e] eqn:E;
    [|done].
  intros [= <- <-]. apply node_statement_id in E as [? ?]. eauto 10.
Qed.

Lemma relations_loop_unfold fuel stack relations current_node nodeList :
  loop (S fuel) (stack ++ [current_node]) relations nodeList =
  match step stack relations current_node nodeList with
  | (Ok (stack', relations'), nodeList') => loop fuel stack' relations' nodeList'
  | (Raise e, nodeList') => (Raise e, nodeList')
  end.
Proof.
  simpl. rewrite list_pop_snoc. unfold mbind, Render_bind.
  destruct (step stack relations current_node nodeList) as [[[? ?]|?] ?]; done.
Qed.

(** One iteration on the popped node, when it raises nothing. *)
Lemma relations_step_ok stack relations current_node nodeList
    stack' relations' nodeList' :
  step stack relations current_node nodeList
    = (Ok (stack', relations'), nodeList') ->
  match current_node with
  | Leaf _ _ _ =>
      stack' = stack /\ relations' = relations /\ nodeList' = nodeList
  | Internal _ _ _ _ _ _ leftChild rightChild =>
      exists parent left right : Z,
        node_id current_node = Some parent /\
        node_id leftChild = Some left /\
        node_id rightChild = Some right /\
        relations' = relations ++
          [edge_true (str_Z parent) (str_Z left);
           edge_false (str_Z parent) (str_Z right)] /\
        stack' = stack ++ [leftChild; rightChild]
  end.
Proof.
  intros Hstep.
  destruct current_node as [id p imp|id p imp fi sp g l r].
  - simpl in Hstep. by injection Hstep as <- <- <-.
  - revert Hstep. cbn [relations_step]. unfold mbind, Render_bind.
    set (t := Internal id p imp fi sp g l r).
    destruct (format t nodeList) as [[a|e] nl1] eqn:E1; [|done].
    destruct (format l nl1) as [[b|e] nl2] eqn:E2; [|done].
    destruct (format t nl2) as [[c|e] nl3] eqn:E3; [|done].
    destruct (format r nl3) as [[d|e] nl4] eqn:E4; [|done].
    intros [= <- <- <-].
    apply format_node_ok in E1 as (i1 & ? & Hi1 & -> & _).
    apply format_node_ok in E2 as (i2 & ? & Hi2 & -> & _).
    apply format_node_ok in E3 as (i3 & ? & Hi3 & -> & _).
    apply format_node_ok in E4 as (i4 & ? & Hi4 & -> & _).
    assert (i3 = i1) as -> by congruence.
    exists i1, i2, i4. repeat split; try done.
    + by rewrite <- !app_assoc.
    + by rewrite <- !app_assoc.
Qed.

(** Serving the node on top of the stack serves its whole subtree, the
    right subtree before the left one, and leaves the stack below it
    untouched. *)
Lemma relations_loop_subtree (t : node) :
  forall (fuel : nat) (stack : list node) (relations nodeList : list string),
    loop (tree_size t + fuel) (stack ++ [t]) relations nodeList
    = match render_tree format t relations nodeList with
      | (Ok relations', nodeList') => loop fuel stack relations' nodeList'
      | (Raise e, nodeList') => (Raise e, nodeList')
      end.
Proof.
  induction t as [id p imp|id p imp fi sp g l IHl r IHr];
    intros fuel stack relations nodeList.
  - cbn [tree_size Nat.add]. by rewrite relations_loop_unfold.
  - cbn [tree_size Nat.add]. rewrite relations_loop_unfold.
    cbn [relations_step render_tree]. unfold mbind, Render_bind.
    set (t := Internal id p imp fi sp g l r).
    destruct (format t nodeList) as [[a|e] nl1]; [|done].
    destruct (format l nl1) as [[b|e] nl2]; [|done].
    destruct (format t nl2) as [[c|e] nl3]; [|done].
    destruct (format r nl3) as [[d|e] nl4]; [|done].
    cbn [mret Render_ret].
    replace (tree_size l + tree_size r + fuel)%nat
      with (tree_size r + (tree_size l + fuel))%nat by lia.
    rewrite IHr, <- app_assoc. cbn [app].
    destruct (render_tree format r _ nl4) as [[rels5|e] nl5]; [|done].
    apply IHl.
Qed.

(** The fuel supplied is enough: the loop ends, with the edges of the
    traversal, or an exception ends it. *)
Lemma relations_to_str_render (t : node) (nodeList : list string) :
  relations_to_str fN cN clN numC filled rl brew t nodeList
  = match render_tree format t [] nodeList with
    | (Ok relations, nodeList') => (Ok (Some relations), nodeList')
    | (Raise e, nodeList') => (Raise e, nodeList')
    end.
Proof.
  unfold relations_to_str.
  replace (S (tree_size t)) with (tree_size t + 1)%nat by lia.
  rewrite (relations_loop_subtree t 1 []).
  by destruct (render_tree format t [] nodeList) as [[?|?] ?].
Qed.

Lemma format_node_text n nodeList s nodeList' :
  format n nodeList = (Ok s, nodeList') ->
  s = id_text (node_id n)
  /\ exists stmt, nodeList' = nodeList ++ [stmt]
                  /\ stmt_id stmt = id_text (node_id n)
                  /\ is_Some (node_id n).
Proof.
  intros H. apply format_node_ok in H as (i & stmt & Hi & -> & -> & Hs).
  rewrite Hi. split; [done|]. exists stmt. split; [done|].
  split; [|by eexists]. rewrite Hs. simpl.
  rewrite <- (stmt_id_str_Z i EmptyString) at 2. done.
Qed.

(** What a traversal that raises nothing adds: two edges for every
    internal node, and four node statements for every internal node, for
    the node itself, its left child, the node itself again and its right
    child. *)
Lemma render_tree_ok (t : node) :
  forall (relations nodeList relations' nodeList' : list string),
    render_tree format t relations nodeList = (Ok relations', nodeList') ->
    relations' = relations ++ (render_internal t ≫= node_edges)
    /\ exists stmts : list string,
         nodeList' = nodeList ++ stmts
         /\ stmt_id <$> stmts = id_text <$> render_ids t
         /\ Forall is_Some (render_ids t).
Proof.
  induction t as [id p imp|id p imp fi sp g l IHl r IHr];
    intros relations nodeList relations' nodeList'.
  - intros [= <- <-]. simpl. rewrite app_nil_r. split; [done|].
    exists []. by rewrite app_nil_r.
  - cbn [render_tree]. unfold mbind, Render_bind.
    set (t := Internal id p imp fi sp g l r).
    destruct (format t nodeList) as [[a|e] nl1] eqn:E1; [|done].
    destruct (format l nl1) as [[b|e] nl2] eqn:E2; [|done].
    destruct (format t nl2) as [[c|e] nl3] eqn:E3; [|done].
    destruct (format r nl3) as [[d|e] nl4] eqn:E4; [|done].
    destruct (render_tree format r _ nl4) as [[rels5|e] nl5] eqn:E5; [|done].
    intros E6.
    apply format_node_text in E1 as (-> & s1 & -> & Hs1 & Hi1).
    apply format_node_text in E2 as (-> & s2 & -> & Hs2 & Hi2).
    apply format_node_text in E3 as (-> & s3 & -> & Hs3 & Hi3).
    apply format_node_text in E4 as (-> & s4 & -> & Hs4 & Hi4).
    apply IHr in E5 as (-> & stmts5 & -> & Hids5 & Hsome5).
    apply IHl in E6 as (-> & stmts6 & -> & Hids6 & Hsome6).
    subst t. cbn [node_id] in *. split.
    + cbn [render_internal]. rewrite bind_cons, bind_app.
      rewrite <- !app_assoc. done.
    + exists ([s1; s2; s3; s4] ++ stmts5 ++ stmts6). split; [|split].
      * rewrite <- !app_assoc. done.
      * cbn [render_ids]. rewrite !fmap_app, Hids5, Hids6.
        simpl. by rewrite Hs1, Hs2, Hs3, Hs4.
      * cbn [render_ids]. rewrite !Forall_app. split; [|done].
        by repeat constructor.
Qed.
End relations_facts.

Lemma render_internal_length t : length (render_internal t) = internal_count t.
Proof.
  induction t as [|? ? ? ? ? ? l IHl r IHr]; [done|].
  simpl. rewrite length_app. lia.
Qed.

Lemma render_ids_length t : length (render_ids t) = (4 * internal_count t)%nat.
Proof.
  induction t as [|? ? ? ? ? ? l IHl r IHr]; [done|].
  cbn [render_ids internal_count]. rewrite !length_app. simpl. lia.
Qed.

Lemma render_edges_length t :
  length (render_internal t ≫= node_edges) = (2 * internal_count t)%nat.
Proof.
  induction t as [|? ? ? ? ? ? l IHl r IHr]; [done|].
  cbn [render_internal internal_count]. rewrite bind_cons, bind_app.
  rewrite !length_app. simpl. lia.
Qed.

(** The ids of the node statements are the ids of the nodes of the tree. *)
Lemma render_ids_set (t : node) :
  {[ node_id t ]} ∪ list_to_set (render_ids t)
  = (list_to_set (tree_ids t) : gset (option Z)).
Proof.
  induction t as [|id ? ? ? ? ? l IHl r IHr]; [set_solver|].
  cbn [render_ids tree_ids node_id].
  rewrite list_to_set_cons, !list_to_set_app_L, <- IHl, <- IHr.
  set_solver.
Qed.

Lemma render_ids_set_internal id p imp fi sp g l r :
  let t := Internal id p imp fi sp g l r in
  list_to_set (render_ids t) = (list_to_set (tree_ids t) : gset (option Z)).
Proof.
  intros t. rewrite <- render_ids_set. subst t. set_solver.
Qed.

(** The edges of a rendering are the edges of the nodes of the tree, each
    node taken once. *)
Lemma render_edges_nodes (t : node) :
  render_internal t ≫= node_edges ≡ₚ nodes t ≫= node_edges.
Proof.
  induction t as [|id p imp fi sp g l IHl r IHr]; [done|].
  cbn [render_internal nodes]. rewrite !bind_cons, !bind_app, IHl, IHr.
  apply Permutation_app_head, Permutation_app_comm.
Qed.

(** C2.  The traversal of [relations_to_str] is the loop started with the
    root alone on the stack and with no edge; the fuel supplied is enough.
    The loop ends when the stack is empty and returns the edges collected.
    Otherwise an iteration pops the last element of the stack and goes on
    with what the iteration leaves; an exception ends the traversal.  The
    iteration on a popped leaf leaves the edges, the stack below it and
    [nodeList] as they were.  The iteration on a popped internal node adds
    exactly two edges, from its id to the id of its left child with head
    label True and label angle 45, then from its id to the id of its right
    child with head label False and label angle -45, and pushes the left
    child, then the right child.  So every node of the tree is popped once:
    a traversal that raises nothing returns the two edges of each internal
    node and nothing for a leaf, the internal nodes taken root first and
    the right subtree before the left one. *)
Theorem relations_step_popped
    (fN : option (list string)) (cN : option (gmap (Z + string) (list string)))
    (clN : option (list string)) (numC : Z) (filled rl : bool)
    (brew : list float) (t : node) (nodeList : list string) :
  let step := relations_step fN cN clN numC filled rl brew in
  let loop := relations_loop fN cN clN numC filled rl brew in
  let run := relations_to_str fN cN clN numC filled rl brew in
  run t nodeList = loop (S (tree_size t)) ([] ++ [t]) [] nodeList
  /\ (forall nodeList', run t nodeList <> (Ok None, nodeList'))
  /\ (forall fuel relations nl,
        loop (S fuel) [] relations nl = (Ok (Some relations), nl))
  /\ (forall fuel stack relations current_node nl,
        loop (S fuel) (stack ++ [current_node]) relations nl
        = match step stack relations current_node nl with
          | (Ok (stack', relations'), nl') => loop fuel stack' relations' nl'
          | (Raise e, nl') => (Raise e, nl')
          end)
  /\ (forall stack relations current_node nl stack' relations' nl',
        step stack relations current_node nl = (Ok (stack', relations'), nl') ->
        match current_node with
        | Leaf _ _ _ =>
            stack' = stack /\ relations' = relations /\ nl' = nl
        | Internal _ _ _ _ _ _ leftChild rightChild =>
            exists parent left right : Z,
              node_id current_node = Some parent /\
              node_id leftChild = Some left /\
              node_id rightChild = Some right /\
              relations' = relations ++
                [ str_Z parent +:+ "->" +:+ str_Z left
                  +:+ "[labeldistance=2.5, labelangle=45., headlabel="
                  +:+ DQ +:+ "True" +:+ DQ +:+ "]" +:+ NL;
                  str_Z parent +:+ "->" +:+ str_Z right
                  +:+ "[labeldistance=2.5, labelangle=-45., headlabel="
                  +:+ DQ +:+ "False" +:+ DQ +:+ "]" +:+ NL ] /\
              stack' = stack ++ [leftChild; rightChild]
        end)
  /\ (forall relations nodeList',
        run t nodeList = (Ok (Some relations), nodeList') ->
        relations = render_internal t ≫= node_edges
        /\ relations ≡ₚ nodes t ≫= node_edges
        /\ length relations = (2 * internal_count t)%nat).
Proof.
  intros step loop run. subst step loop run.
  split; [done|]. split; [|split; [done|split; [|split]]].
  - intros nodeList'. rewrite relations_to_str_render.
    by destruct (render_tree _ t [] nodeList) as [[?|?] ?].
  - intros fuel stack relations current_node nl.
    apply relations_loop_unfold.
  - intros stack relations current_node nl stack' relations' nl' Hstep.
    apply relations_step_ok in Hstep. by destruct current_node.
  - intros relations nodeList'. rewrite relations_to_str_render.
    destruct (render_tree _ t [] nodeList) as [[rels|e] nl] eqn:E; [|done].
    intros [= <- <-]. apply render_tree_ok in E as (-> & _). simpl.
    split; [done|]. split; [apply render_edges_nodes|].
    apply render_edges_length.
Qed.

Lemma relations_step_popped_witness :
  let leaf1 := Leaf (Some 1) 0 (Z2F 0) in
  let leaf2 := Leaf (Some 2) 1 (Z2F 0) in
  let root := Internal (Some 0) 0 (float_lit 1 2) 3 (Continuous (float_lit 3 2))
                (float_lit 1 2) leaf1 leaf2 in
  exists nodeList' : list string,
    relations_to_str None None None 2 false true [] root []
    = (Ok (Some [ "0->1[labeldistance=2.5, labelangle=45., headlabel="
                  +:+ DQ +:+ "True" +:+ DQ +:+ "]" +:+ NL;
                  "0->2[labeldistance=2.5, labelangle=-45., headlabel="
                  +:+ DQ +:+ "False" +:+ DQ +:+ "]" +:+ NL ]),
       nodeList')
    /\ relations_loop None None None 2 false true [] 4 [root] [] []
       = relations_loop None None None 2 false true [] 3 [leaf1; leaf2]
           [ "0->1[labeldistance=2.5, labelangle=45., headlabel="
             +:+ DQ +:+ "True" +:+ DQ +:+ "]" +:+ NL;
             "0->2[labeldistance=2.5, labelangle=-45., headlabel="
             +:+ DQ +:+ "False" +:+ DQ +:+ "]" +:+ NL ] nodeList'
    /\ length nodeList' = 4%nat.
Proof.
  intros leaf1 leaf2 root.
  destruct (relations_step_popped None None None 2 false true [] root [])
    as (_ & Hfuel & _ & Hpop & _ & Hrun).
  destruct (relations_to_str None None None 2 false true [] root [])
    as [[[relations|]|e] nodeList'] eqn:E.
  - destruct (Hrun relations nodeList' eq_refl) as (-> & _ & _).
    exists nodeList'. split; [reflexivity|].
    vm_compute in E. injection E as <-.
    split; [|reflexivity].
    etrans; [exact (Hpop 3%nat [] [] root [])|]. reflexivity.
  - by destruct (Hfuel nodeList').
  - by vm_compute in E.
Defined.

(* ===================================================================== *)
(** * Name lookups *)
(* ===================================================================== *)

Lemma dict_enumerate_getitem {V} (l : list V) (k : Z) :
  dict_getitem (dict_enumerate l) k =
  match (if 0 <=? k then l !! Z.to_nat k else None) with
  | Some v => Ok v
  | None => Raise KeyError
  end.
Proof.
  unfold dict_getitem, dict_enumerate. rewrite lookup_map_seqZ.
  destruct (Z.leb_spec 0 k).
  - rewrite option_guard_True by done. simpl. by rewrite Z.sub_0_r.
  - by rewrite option_guard_False by lia.
Qed.

Lemma dict_enumerate_miss {V} (l : list V) (k : Z) :
  k < 0 \/ Z.of_nat (length l) <= k ->
  dict_getitem (dict_enumerate l) k = Raise KeyError.
Proof.
  intros Hk. rewrite dict_enumerate_getitem.
  destruct (Z.leb_spec 0 k); [|done].
  rewrite lookup_ge_None_2; [done|lia].
Qed.

Lemma dict_enumerate_hit {V} (l : list V) (k : Z) (v : V) :
  dict_getitem (dict_enumerate l) k = Ok v ->
  0 <= k /\ l !! Z.to_nat k = Some v.
Proof.
  rewrite dict_enumerate_getitem.
  destruct (Z.leb_spec 0 k); [|done].
  destruct (l !! Z.to_nat k); [|done]. by intros [= ->].
Qed.

(** C10.  When [classNames] is given and has no entry at the prediction of
    the node, or [featureNames] is given and has no entry at the feature index
    of an internal node, [node_to_str] raises [KeyError] and appends nothing:
    it does not fall back to the index-based name.  The names Class # and
    Feature # followed by the index are used when the list is absent; when
    the list is given, the name shown is always its entry at the index. *)
Theorem provided_names_lookup_miss :
  (forall n fN cN names numC filled rl brew nodeList,
     node_prediction n < 0 \/ Z.of_nat (length names) <= node_prediction n ->
     node_to_str n fN cN (Some names) numC filled rl brew nodeList
       = (Raise KeyError, nodeList))
  /\ (forall id p imp fi sp g l r names cN clN numC filled rl brew nodeList,
        fi < 0 \/ Z.of_nat (length names) <= fi ->
        node_to_str (Internal id p imp fi sp g l r) (Some names) cN clN numC
          filled rl brew nodeList
          = (Raise KeyError, nodeList))
  /\ (forall p, class_name_str_of None p = Ok ("Class #" +:+ str_Z p))
  /\ (forall i,
        feature_name_of None i = Ok (inl i, "Feature #" +:+ str_Z i))
  /\ (forall names p s,
        class_name_str_of (Some names) p = Ok s ->
        0 <= p /\ names !! Z.to_nat p = Some s)
  /\ (forall names i k s,
        feature_name_of (Some names) i = Ok (k, s) ->
        0 <= i /\ names !! Z.to_nat i = Some s /\ k = inr s).
Proof.
  split; [|split; [|split; [|split; [|split]]]].
  - intros n fN cN names numC filled rl brew nodeList Hmiss.
    rewrite node_to_str_run. unfold node_statement, class_name_str_of.
    by rewrite dict_enumerate_miss.
  - intros id p imp fi sp g l r names cN clN numC filled rl brew nodeList Hmiss.
    rewrite node_to_str_run. unfold node_statement.
    destruct (class_name_str_of clN _) as [cls|e] eqn:Ecls.
    + simpl. unfold feature_name_of. by rewrite dict_enumerate_miss.
    + simpl. destruct clN as [names'|]; [|done].
      unfold class_name_str_of in Ecls.
      rewrite dict_enumerate_getitem in Ecls.
      destruct (if 0 <=? _ then names' !! _ else None) in Ecls; [done|].
      by injection Ecls as <-.
  - done.
  - done.
  - intros names p s H. unfold class_name_str_of in H.
    by apply dict_enumerate_hit in H.
  - intros names i k s H. unfold feature_name_of in H.
    unfold mbind, result_bind in H.
    destruct (dict_getitem _ i) as [v|] eqn:E; [|done].
    injection H as <- <-.
    by apply dict_enumerate_hit in E as [? ?].
Qed.

Lemma provided_names_lookup_miss_witness :
  node_to_str (Leaf (Some 0) 2 (Z2F 0)) None None (Some ["no"; "yes"]) 3
    false true [] []
    = (Raise KeyError, [])
  /\ node_to_str
       (Internal (Some 0) 1 (Z2F 0) 5 (Continuous (Z2F 1)) (Z2F 0)
          (Leaf (Some 1) 0 (Z2F 0)) (Leaf (Some 2) 1 (Z2F 0)))
       (Some ["age"; "height"]) None (Some ["no"; "yes"]) 2 false true [] []
       = (Raise KeyError, []).
Proof.
  split.
  - apply (proj1 provided_names_lookup_miss). simpl. lia.
  - apply (proj1 (proj2 provided_names_lookup_miss)). simpl. lia.
Defined.

(* ===================================================================== *)
(** * The fill colour *)
(* ===================================================================== *)

(** C7.  A node formatted with [filled] set, when nothing is raised: the
    statement appended ends with the attribute fillcolor, whose value is the
    hue [colorBrew[prediction]], the saturation [1.0 - impurity] and the
    value 1.0, separated by commas, each rendered by ["%.4f"]: a finite float
    is rendered with exactly four decimals.  The impurity is not checked: an
    impurity of 1.5 gives the saturation -0.5000, an impurity of -0.25 the
    saturation 1.2500. *)
Theorem filled_node_fillcolor n fN cN clN numC rl brew nodeList s nodeList' :
  node_to_str n fN cN clN numC true rl brew nodeList = (Ok s, nodeList') ->
  (exists (h : float) (id : Z) (attributes : list string),
     list_getitem brew (node_prediction n) = Ok h /\
     node_id n = Some id /\
     nodeList' = nodeList ++
       [str_Z id +:+ " [" +:+
        String.concat ","
          (attributes ++
             ["fillcolor=" +:+ DQ +:+ fmt4 h +:+ ","
              +:+ fmt4 (float_sub (Z2F 1) (node_impurity n)) +:+ ","
              +:+ "1.0000" +:+ DQ])
        +:+ "]"])
  /\ (forall sign m e, exists frac : string,
        fmt4 (S754_finite sign m e) =
          (if sign then "-" else "") +:+ str_Z (scaled4 m e / 10000)
          +:+ "." +:+ frac
        /\ String.length frac = 4%nat)
  /\ fmt4 (float_sub (Z2F 1) (float_lit 15 10)) = "-0.5000"
  /\ fmt4 (float_sub (Z2F 1) (float_lit (-25) 100)) = "1.2500".
Proof.
  intros Hrun. split; [|split; [apply fmt4_finite|split; reflexivity]].
  rewrite node_to_str_run in Hrun.
  destruct (node_statement n fN cN clN true rl brew) as [[i stmt]|e] eqn:E;
    [|done].
  injection Hrun as <- <-.
  unfold node_statement in E. unfold mbind, result_bind in E.
  destruct (class_name_str_of clN _) as [cls|?]; [|done].
  destruct (node_attributes n fN cN cls rl) as [attrs|?]; [|done].
  destruct (list_getitem brew _) as [h|?]; [|done].
  simpl in E. unfold node_getid in E.
  destruct (node_id n) as [j|]; [|done].
  injection E as <- <-.
  by exists h, j, attrs.
Qed.

Lemma filled_node_fillcolor_witness :
  exists (h : float) (id : Z) (attributes : list string),
    list_getitem [Z2F 0; float_lit 1 2] 1 = Ok h /\
    Some 4 = Some id /\
    [ "4 [shape=ellipse, label=" +:+ DQ
      +:+ "Node ID 4\nImpurity = 0.2500\nPrediction = Class #1" +:+ DQ
      +:+ " ,fillcolor=" +:+ DQ +:+ "0.5000,0.7500,1.0000" +:+ DQ +:+ "]" ]
    = [] ++
      [str_Z id +:+ " [" +:+
       String.concat ","
         (attributes ++
            ["fillcolor=" +:+ DQ +:+ fmt4 h +:+ ","
             +:+ fmt4 (float_sub (Z2F 1) (float_lit 1 4)) +:+ ","
             +:+ "1.0000" +:+ DQ])
       +:+ "]"].
Proof.
  apply (filled_node_fillcolor (Leaf (Some 4) 1 (float_lit 1 4))
           None None None 2 true [Z2F 0; float_lit 1 2] [] "4").
  vm_compute. reflexivity.
Defined.

(* ===================================================================== *)
(** * Categorical splits *)
(* ===================================================================== *)

Lemma result_mapM_Ok {A B} (f : A -> result B) (g : A -> B) (l : list A) :
  (forall x, x ∈ l -> f x = Ok (g x)) -> mapM f l = Ok (g <$> l).
Proof.
  induction l as [|x l IH]; intros Hf; [done|].
  simpl. rewrite (Hf x) by apply list_elem_of_here. simpl.
  rewrite IH; [done|].
  intros y Hy. apply Hf. by apply list_elem_of_further.
Qed.

Lemma result_mapM_Raise {A B} (f : A -> result B) (e : exn) (l : list A) :
  (forall x, x ∈ l -> f x = Raise e \/ exists y, f x = Ok y) ->
  (exists x, x ∈ l /\ f x = Raise e) ->
  mapM f l = Raise e.
Proof.
  induction l as [|x l IH]; intros Hf [z [Hz Hfz]]; [by inversion Hz|].
  simpl. destruct (Hf x (list_elem_of_here x l)) as [->|[y Hy]]; [done|].
  rewrite Hy. simpl. rewrite IH; [done| |].
  - intros y' Hy'. apply Hf. by apply list_elem_of_further.
  - apply elem_of_cons in Hz as [->|Hz]; [congruence|eauto].
Qed.

Lemma result_mapM_Raise_inv {A B} (f : A -> result B) (e : exn) (l : list A) :
  mapM f l = Raise e -> exists x, x ∈ l /\ f x = Raise e.
Proof.
  induction l as [|x l IH]; [done|].
  simpl. destruct (f x) as [y|e'] eqn:E; simpl.
  - destruct (mapM f l) as [ys|e'']; [done|]. simpl.
    intros [= ->]. destruct IH as (z & Hz & Hfz); [done|].
    exists z. split; [by apply list_elem_of_further|done].
  - intros [= ->]. exists x. split; [apply list_elem_of_here|done].
Qed.

Lemma range_by_5_nonpos stop : stop <= 0 -> range_by_5 stop = [].
Proof.
  intros H. unfold range_by_5. rewrite seqZ_nil; [done|].
  apply Z.lt_succ_r, Z.div_lt_upper_bound; lia.
Qed.

Lemma range_by_5_pos stop :
  0 < stop -> range_by_5 stop = 0 :: ((fun i => i + 5) <$> range_by_5 (stop - 5)).
Proof.
  intros H. unfold range_by_5.
  replace ((stop + 4) / 5) with (Z.succ ((stop - 5 + 4) / 5)).
  2:{ replace (stop + 4) with (stop - 5 + 4 + 1 * 5) by lia.
      rewrite Z.div_add by lia. lia. }
  assert (0 <= (stop - 5 + 4) / 5).
  { replace (stop - 5 + 4) with (stop - 1) by lia. apply Z.div_pos; lia. }
  rewrite seqZ_cons by lia. rewrite Z.pred_succ, fmap_cons. f_equal.
  replace (Z.succ 0) with (1 + 0) by done.
  rewrite <- fmap_add_seqZ, <- !list_fmap_compose.
  apply list_fmap_ext. intros _ k _. simpl. lia.
Qed.

(** The slices the code takes are the successive chunks of five. *)
Lemma slices_are_chunks {A} (fuel : nat) (l : list A) :
  (length l <= fuel)%nat ->
  slice_5 l <$> range_by_5 (Z.of_nat (length l)) = chunks_5 fuel l.
Proof.
  revert l. induction fuel as [|fuel IH]; intros l Hlen.
  - destruct l; [done|simpl in Hlen; lia].
  - destruct l as [|x l]; [done|].
    rewrite range_by_5_pos by (simpl; lia).
    cbn [chunks_5]. rewrite fmap_cons. f_equal.
    rewrite <- IH by (rewrite length_drop; simpl in *; lia).
    rewrite length_drop.
    destruct (decide (length (x :: l) <= 5)%nat) as [Hsmall|Hbig].
    + rewrite !range_by_5_nonpos by lia. done.
    + replace (Z.of_nat (length (x :: l)) - 5)
        with (Z.of_nat (length (x :: l) - 5)) by lia.
      rewrite <- list_fmap_compose. apply list_fmap_ext.
      intros n i Hi. unfold compose, slice_5.
      apply list_elem_of_lookup_2 in Hi.
      unfold range_by_5 in Hi. apply list_elem_of_fmap in Hi as (k & -> & Hk).
      apply elem_of_seqZ in Hk.
      rewrite drop_drop. f_equal. f_equal. lia.
Qed.

Lemma chunks_5_concat {A} (fuel : nat) (l : list A) :
  (length l <= fuel)%nat -> concat (chunks_5 fuel l) = l.
Proof.
  revert l. induction fuel as [|fuel IH]; intros l Hlen.
  - destruct l; [done|simpl in Hlen; lia].
  - destruct l as [|x l]; [done|].
    cbn [chunks_5 concat].
    rewrite IH by (rewrite length_drop; simpl in *; lia).
    apply take_drop.
Qed.

Lemma chunks_5_sizes {A} (fuel : nat) (l : list A) :
  Forall (fun c => 0 < length c <= 5)%nat (chunks_5 fuel l).
Proof.
  revert l. induction fuel as [|fuel IH]; intros l; [done|].
  destruct l as [|x l]; [done|].
  cbn [chunks_5]. constructor; [|apply IH].
  rewrite length_take. cbn [length]. lia.
Qed.

Lemma chunks_5_full {A} (fuel : nat) (l : list A) (i : nat) (c : list A) :
  chunks_5 fuel l !! i = Some c ->
  (S i < length (chunks_5 fuel l))%nat ->
  length c = 5%nat.
Proof.
  revert l i. induction fuel as [|fuel IH]; intros l i; [done|].
  destruct l as [|x l]; [done|].
  cbn [chunks_5]. destruct i as [|i].
  - intros Hc Hlen. injection Hc as Hc. rewrite <- Hc.
    change (length (take 5 (x :: l)) = 5%nat).
    destruct (decide (5 <= length (x :: l))%nat) as [Hge|Hlt].
    + rewrite length_take. lia.
    + rewrite drop_ge in Hlen by lia.
      destruct fuel; simpl in Hlen; lia.
  - intros Hc Hlen. eapply IH; [exact Hc|]. cbn [length] in Hlen. lia.
Qed.

Lemma categories_5_by_5_Ok show (g : Z -> string) (lc : list Z) :
  (forall j, j ∈ lc -> show j = Ok (g j)) ->
  categories_5_by_5 show lc
  = Ok ((fun c => String.concat "," (g <$> c)) <$> lines_of_5 lc).
Proof.
  intros Hshow. unfold categories_5_by_5, lines_of_5.
  rewrite <- (slices_are_chunks (length lc)) by done.
  rewrite <- list_fmap_compose. apply result_mapM_Ok.
  intros i _. simpl.
  rewrite (result_mapM_Ok show g); [done|].
  intros j Hj. apply Hshow. unfold slice_5 in Hj.
  by apply (subseteq_drop (Z.to_nat i)), (subseteq_take 5).
Qed.

Lemma categories_5_by_5_Raise show (e : exn) (lc : list Z) :
  (forall j, j ∈ lc -> show j = Raise e \/ exists y, show j = Ok y) ->
  (exists j, j ∈ lc /\ show j = Raise e) ->
  categories_5_by_5 show lc = Raise e.
Proof.
  intros Hshow (j & Hj & Hje). unfold categories_5_by_5.
  assert (Hslice : forall i x, x ∈ slice_5 lc i -> x ∈ lc).
  { intros i x Hx. unfold slice_5 in Hx.
    by apply (subseteq_drop (Z.to_nat i)), (subseteq_take 5). }
  apply result_mapM_Raise.
  - intros i _.
    destruct (mapM show (slice_5 lc i)) as [names|e'] eqn:E; [right; eauto|].
    left. simpl.
    apply result_mapM_Raise_inv in E as (x & Hx & Hxe).
    destruct (Hshow x (Hslice _ _ Hx)) as [He|[y Hy]]; congruence.
  - rewrite <- (chunks_5_concat (length lc) lc) in Hj by done.
    rewrite <- slices_are_chunks in Hj by done.
    apply list_elem_of_In, in_concat in Hj as (c & Hc & Hjc).
    apply list_elem_of_In in Hc, Hjc.
    apply list_elem_of_fmap in Hc as (i & -> & Hi).
    exists i. split; [done|].
    simpl. rewrite (result_mapM_Raise show e); [done|eauto..].
Qed.

Lemma categories_raw_eq (lc : list Z) :
  categories_raw lc
  = Ok ("categories# " +:+ braces_of_lines (show_lines str_Z (lines_of_5 lc))).
Proof.
  unfold categories_raw.
  rewrite (categories_5_by_5_Ok _ str_Z) by done.
  unfold braces_of_lines, show_lines. by rewrite <- list_fmap_compose.
Qed.

Lemma label_lookup (labels : list string) (j : Z) :
  dict_getitem (dict_enumerate labels) j
  = if has_label labels j then Ok (label_of labels j) else Raise KeyError.
Proof.
  rewrite dict_enumerate_getitem. unfold has_label, label_of.
  destruct (Z.leb_spec 0 j); simpl; [|done].
  destruct (Z.ltb_spec j (Z.of_nat (length labels))).
  - destruct (lookup_lt_is_Some_2 labels (Z.to_nat j)) as [s ->]; [lia|done].
  - rewrite lookup_ge_None_2; [done|lia].
Qed.

Lemma forallb_false_elem {A} (f : A -> bool) (l : list A) :
  forallb f l = false -> exists x, x ∈ l /\ f x = false.
Proof.
  induction l as [|x l IH]; [done|].
  simpl. destruct (f x) eqn:E; simpl.
  - intros H. destruct (IH H) as (y & Hy & Hfy).
    exists y. split; [by apply list_elem_of_further|done].
  - intros _. exists x. split; [apply list_elem_of_here|done].
Qed.

Lemma categories_named_eq categoryNames feature_name (lc : list Z) :
  categories_named categoryNames feature_name lc
  = match categoryNames !! feature_name with
    | None => Raise KeyError
    | Some labels =>
        if forallb (has_label labels) lc
        then Ok (braces_of_lines (show_lines (label_of labels) (lines_of_5 lc)))
        else Raise KeyError
    end.
Proof.
  unfold categories_named.
  change (dict_getitem categoryNames feature_name)
    with (match categoryNames !! feature_name with
          | Some v => Ok v
          | None => Raise KeyError
          end).
  destruct (categoryNames !! feature_name) as [labels|]; [|done].
  simpl. destruct (forallb (has_label labels) lc) eqn:Hall.
  - rewrite forallb_forall in Hall.
    rewrite (categories_5_by_5_Ok _ (label_of labels)).
    + unfold braces_of_lines, show_lines. by rewrite <- list_fmap_compose.
    + intros j Hj. rewrite label_lookup, Hall; [done|].
      by apply list_elem_of_In.
  - rewrite (categories_5_by_5_Raise _ KeyError); [done| |].
    + intros j _. rewrite label_lookup. destruct (has_label labels j); eauto.
    + apply forallb_false_elem in Hall as (j & Hj & Hjl).
      exists j. split; [done|]. by rewrite label_lookup, Hjl.
Qed.

(** C8.  The description of a categorical split.  The left categories are
    cut into successive lines of five values (the last line may be shorter),
    the values of a line are joined by commas, the lines by the two
    characters backslash and n, and the whole is put in braces.  When
    [categoryNames] has labels for the feature and every left category has
    an entry among them, the values shown are these labels.  When
    [categoryNames] is absent, or has nothing for the feature, or some left
    category has no entry, the values shown are the raw integers, after the
    prefix categories#; no exception is raised in any of these cases.  The
    description stands in the label after the feature name and the word
    in. *)
Theorem categorical_split_description
    (cN : option (gmap (Z + string) (list string))) (lc : list Z) :
  let raw := "categories# " +:+ braces_of_lines (show_lines str_Z (lines_of_5 lc)) in
  (forall feature_name : Z + string,
     categories_of cN feature_name lc =
     Ok (match cN with
         | None => raw
         | Some categoryNames =>
             match categoryNames !! feature_name with
             | None => raw
             | Some labels =>
                 if forallb (has_label labels) lc
                 then braces_of_lines (show_lines (label_of labels) (lines_of_5 lc))
                 else raw
             end
         end))
  /\ concat (lines_of_5 lc) = lc
  /\ Forall (fun c => 0 < length c <= 5)%nat (lines_of_5 lc)
  /\ (forall i c, lines_of_5 lc !! i = Some c ->
        (S i < length (lines_of_5 lc))%nat -> length c = 5%nat)
  /\ (forall id p imp fi g l r fN clN numC rl brew nodeList key fname cls
             categories,
        feature_name_of fN fi = Ok (key, fname) ->
        class_name_str_of clN p = Ok cls ->
        categories_of cN key lc = Ok categories ->
        node_to_str (Internal (Some id) p imp fi (Categorical lc) g l r)
          fN cN clN numC false rl brew nodeList
        = (Ok (str_Z id),
           nodeList ++
             [str_Z id +:+ " [" +:+ " label=" +:+ DQ +:+ "Node ID "
              +:+ str_Z id +:+ "\n" +:+ fname +:+ " in " +:+ categories
              +:+ "\nImpurity = " +:+ fmt4 imp +:+ "\nGain = " +:+ fmt4 g
              +:+ "\nPrediction = " +:+ cls +:+ DQ +:+ " " +:+ "]"])).
Proof.
  intros raw. split; [|split; [|split; [|split]]].
  - intros feature_name. unfold categories_of.
    destruct cN as [categoryNames|]; [|apply categories_raw_eq].
    rewrite categories_named_eq, categories_raw_eq.
    destruct (categoryNames !! feature_name) as [labels|]; [|done].
    by destruct (forallb (has_label labels) lc).
  - by apply chunks_5_concat.
  - apply chunks_5_sizes.
  - apply chunks_5_full.
  - intros id p imp fi g l r fN clN numC rl brew nodeList key fname cls
      categories Hf Hc Hcat.
    rewrite node_to_str_run. unfold node_statement. simpl.
    rewrite Hc. simpl. rewrite Hf. simpl. rewrite Hcat. simpl.
    unfold label_categorical. by rewrite !string_app_assoc.
Qed.

Lemma categorical_split_description_witness :
  node_to_str
    (Internal (Some 4) 1 (float_lit 1 2) 1
       (Categorical [0; 1; 2; 3; 4; 5; 6]) (float_lit 1 4)
       (Leaf (Some 9) 0 (Z2F 0)) (Leaf (Some 10) 1 (Z2F 0)))
    (Some ["age"; "colour"])
    (Some {[ inr "colour" := ["r"; "g"; "b"; "c"; "m"; "y"] ]})
    None 2 false true [] []
  = (Ok (str_Z 4),
     [] ++
       [str_Z 4 +:+ " [" +:+ " label=" +:+ DQ +:+ "Node ID "
        +:+ str_Z 4 +:+ "\n" +:+ "colour" +:+ " in "
        +:+ "categories# {0,1,2,3,4\n5,6}"
        +:+ "\nImpurity = " +:+ fmt4 (float_lit 1 2) +:+ "\nGain = "
        +:+ fmt4 (float_lit 1 4)
        +:+ "\nPrediction = " +:+ "Class #1" +:+ DQ +:+ " " +:+ "]"]).
Proof.
  apply (proj2 (proj2 (proj2 (proj2
    (categorical_split_description
       (Some {[ inr "colour" := ["r"; "g"; "b"; "c"; "m"; "y"] ]})
       [0; 1; 2; 3; 4; 5; 6])))) 4 1 (float_lit 1 2) 1 (float_lit 1 4)
    (Leaf (Some 9) 0 (Z2F 0)) (Leaf (Some 10) 1 (Z2F 0))
    (Some ["age"; "colour"]) None 2 true [] [] (inr "colour") "colour"
    "Class #1" "categories# {0,1,2,3,4\n5,6}").
  - reflexivity.
  - reflexivity.
  - vm_compute. reflexivity.
Defined.

(* ===================================================================== *)
(** * [get_num_classes] *)
(* ===================================================================== *)

(** Serving the node on top of the stack serves its whole subtree: after
    as many iterations as the subtree has nodes the stack below is
    untouched and the predictions of the subtree are in [classes]. *)
Lemma explore_classes_subtree (t : node) :
  forall (fuel : nat) (stack : list node) (classes : gset Z),
    explore_classes (tree_size t + fuel) (stack ++ [t]) classes
    = explore_classes fuel stack (classes ∪ list_to_set (predictions t)).
Proof.
  induction t as [id p imp|id p imp fi sp g l IHl r IHr];
    intros fuel stack classes.
  - simpl. rewrite list_pop_snoc. simpl. f_equal. set_solver.
  - cbn [tree_size]. cbn [Nat.add explore_classes].
    rewrite list_pop_snoc. cbn [node_prediction].
    replace (tree_size l + tree_size r + fuel)%nat
      with (tree_size r + (tree_size l + fuel))%nat by lia.
    rewrite IHr, IHl. f_equal. cbn [predictions].
    rewrite list_to_set_cons, list_to_set_app_L. set_solver.
Qed.

Lemma explore_classes_root (t : node) :
  explore_classes (S (tree_size t)) [t] ∅ = Some (list_to_set (predictions t)).
Proof.
  replace (S (tree_size t)) with (tree_size t + 1)%nat by lia.
  rewrite (explore_classes_subtree t 1 [] ∅). simpl. f_equal. set_solver.
Qed.

Lemma foldl_max_spec (l : list Z) (x : Z) :
  (foldl Z.max x l = x \/ foldl Z.max x l ∈ l)
  /\ x <= foldl Z.max x l
  /\ (forall y, y ∈ l -> y <= foldl Z.max x l).
Proof.
  revert x. induction l as [|a l IH]; intros x; simpl.
  - split; [by left|]. split; [lia|]. intros y Hy. by inversion Hy.
  - destruct (IH (x `max` a)) as (Hin & Hle & Hall).
    split; [|split].
    + destruct Hin as [Heq|Hin].
      * rewrite Heq. destruct (Z.max_spec x a) as [[_ ->]|[_ ->]].
        -- right. apply list_elem_of_here.
        -- by left.
      * right. by apply list_elem_of_further.
    + lia.
    + intros y Hy. apply elem_of_cons in Hy as [->|Hy]; [lia|by apply Hall].
Qed.

Lemma list_max_Z_spec (l : list Z) (m : Z) :
  m ∈ l -> (forall y, y ∈ l -> y <= m) -> list_max_Z l = Ok m.
Proof.
  destruct l as [|x l]; [by inversion 1|].
  intros Hm Hmax. simpl. f_equal.
  destruct (foldl_max_spec l x) as (Hin & Hle & Hall).
  apply Z.le_antisymm.
  - apply Hmax. destruct Hin as [->|Hin];
      [apply list_elem_of_here|by apply list_elem_of_further].
  - apply elem_of_cons in Hm as [->|Hm]; [done|by apply Hall].
Qed.

Lemma max_prediction_spec (t : node) :
  max_prediction t ∈ predictions t
  /\ (forall p, p ∈ predictions t -> p <= max_prediction t).
Proof.
  induction t as [id p imp|id p imp fi sp g l [IHl1 IHl2] r [IHr1 IHr2]].
  - simpl. split; [apply list_elem_of_here|].
    intros q Hq. apply list_elem_of_singleton in Hq. lia.
  - cbn [max_prediction predictions]. split.
    + destruct (Z.max_spec p (max_prediction l `max` max_prediction r))
        as [[_ ->]|[_ ->]]; [|apply list_elem_of_here].
      apply list_elem_of_further, elem_of_app.
      destruct (Z.max_spec (max_prediction l) (max_prediction r))
        as [[_ ->]|[_ ->]]; auto.
    + intros q Hq. apply elem_of_cons in Hq as [->|Hq]; [lia|].
      apply elem_of_app in Hq as [Hq|Hq];
        [apply IHl2 in Hq|apply IHr2 in Hq]; lia.
Qed.

Lemma predictions_length (t : node) : length (predictions t) = tree_size t.
Proof.
  induction t as [|? ? ? ? ? ? l IHl r IHr]; [done|].
  cbn [predictions tree_size length]. rewrite length_app. lia.
Qed.

(** C3.  [get_num_classes] collects the predictions of all the nodes of
    the tree, those of internal nodes as those of leaves, into the set
    [classes], and returns the largest of them plus one.  A tree whose
    predictions are exactly 0 and 2 gives 3. *)
Theorem get_num_classes_is_max_plus_one (t : node) :
  explore_classes (S (tree_size t)) [t] ∅ = Some (list_to_set (predictions t))
  /\ get_num_classes t = Some (Ok (max_prediction t + 1))
  /\ max_prediction t ∈ predictions t
  /\ (forall p, p ∈ predictions t -> p <= max_prediction t)
  /\ length (predictions t) = tree_size t
  /\ (list_to_set (predictions t) = ({[0; 2]} : gset Z) ->
      get_num_classes t = Some (Ok 3)).
Proof.
  destruct (max_prediction_spec t) as [Hin Hmax].
  assert (Hnum : get_num_classes t = Some (Ok (max_prediction t + 1))).
  { unfold get_num_classes. rewrite explore_classes_root. simpl.
    rewrite (list_max_Z_spec _ (max_prediction t)); [done| |].
    - by rewrite elem_of_elements, elem_of_list_to_set.
    - intros y Hy. rewrite elem_of_elements, elem_of_list_to_set in Hy.
      by apply Hmax. }
  split; [apply explore_classes_root|]. split; [done|].
  split; [done|]. split; [done|]. split.
  - apply predictions_length.
  - intros Hset. rewrite Hnum. do 2 f_equal.
    assert (H2 : 2 ∈ predictions t).
    { apply (elem_of_list_to_set (C:=gset Z)). rewrite Hset. set_solver. }
    assert (Hm : max_prediction t ∈ ({[0; 2]} : gset Z)).
    { rewrite <- Hset. by apply elem_of_list_to_set. }
    apply Hmax in H2. set_solver by lia.
Qed.

Lemma get_num_classes_is_max_plus_one_witness :
  get_num_classes
    (Internal None 0 (float_lit 1 2) 0 (Continuous (Z2F 1)) (float_lit 1 4)
       (Leaf None 0 (Z2F 0)) (Leaf None 2 (Z2F 0)))
  = Some (Ok 3).
Proof.
  apply get_num_classes_is_max_plus_one. vm_compute. reflexivity.
Defined.

(* ===================================================================== *)
(** * [generate_color_brew] *)
(* ===================================================================== *)

Lemma digits2_pos_bounds (p : positive) :
  2 ^ (Zpos (digits2_pos p) - 1) <= Zpos p < 2 ^ Zpos (digits2_pos p).
Proof.
  induction p as [p IH|p IH|]; cbn [digits2_pos].
  - rewrite Pos2Z.inj_succ.
    replace (Z.succ (Zpos (digits2_pos p)) - 1) with (Zpos (digits2_pos p) - 1 + 1) by lia.
    rewrite Z.pow_succ_r by lia.
    assert (0 <= Zpos (digits2_pos p) - 1) by lia.
    rewrite Z.pow_add_r by lia. lia.
  - rewrite Pos2Z.inj_succ.
    replace (Z.succ (Zpos (digits2_pos p)) - 1) with (Zpos (digits2_pos p) - 1 + 1) by lia.
    rewrite Z.pow_succ_r by lia.
    rewrite Z.pow_add_r by lia. lia.
  - simpl. lia.
Qed.

Lemma digits2_pos_iter_xO (p k : positive) :
  digits2_pos (Pos.iter xO p k) = (digits2_pos p + k)%positive.
Proof.
  induction k as [|k IH] using Pos.peano_ind.
  - simpl. lia.
  - rewrite Pos.iter_succ. cbn [digits2_pos]. rewrite IH. lia.
Qed.

Lemma binary_round_aux_exact (mz : positive) (ez : Z) :
  digits2_pos mz = 53%positive -> -1074 <= ez <= 971 ->
  binary_round_aux prec emax false (Zpos mz) ez loc_Exact = S754_finite false mz ez.
Proof.
  intros Hd He.
  unfold binary_round_aux, shr_fexp, fexp, emin, prec, emax.
  cbn [Zdigits2 shr_record_of_loc]. rewrite Hd.
  replace (Z.max (53 + ez - 53) (3 - 1024 - 53) - ez) with 0 by lia.
  cbn [shr shr_m loc_of_shr_record round_nearest_even Zdigits2 shr_record_of_loc].
  rewrite Hd.
  replace (Z.max (53 + ez - 53) (3 - 1024 - 53) - ez) with 0 by lia.
  cbn [shr shr_m].
  destruct (Z.leb_spec ez (1024 - 53)); [done|lia].
Qed.

Lemma shr_1_m (mrs : shr_record) :
  0 <= shr_m mrs -> shr_m (shr_1 mrs) = shr_m mrs / 2.
Proof.
  destruct mrs as [m r s]. cbn [shr_m]. intros Hm.
  destruct m as [|[p|p|]|p]; try lia; cbn [shr_1 shr_m].
  - done.
  - apply (Z.div_unique (Zpos p~1) 2 (Zpos p) 1); lia.
  - apply (Z.div_unique (Zpos p~0) 2 (Zpos p) 0); lia.
  - done.
Qed.

Lemma iter_pos_shr_1_m (k : positive) :
  forall mrs : shr_record,
    0 <= shr_m mrs ->
    shr_m (SpecFloat.iter_pos shr_1 k mrs) = shr_m mrs / 2 ^ Zpos k.
Proof.
  induction k as [k IH|k IH|]; intros mrs Hm; cbn [SpecFloat.iter_pos];
    try assert (Hpow : 0 < 2 ^ Zpos k) by (by apply Z.pow_pos_nonneg).
  - assert (H1 : 0 <= shr_m (shr_1 mrs)).
    { rewrite shr_1_m by done. apply Z.div_pos; lia. }
    assert (H2 : 0 <= shr_m (SpecFloat.iter_pos shr_1 k (shr_1 mrs))).
    { rewrite IH by done. apply Z.div_pos; [done|]. by apply Z.pow_pos_nonneg. }
    rewrite IH, IH, shr_1_m by done.
    rewrite !Z.div_div by lia.
    f_equal. replace (Zpos k~1) with (1 + Zpos k + Zpos k) by lia.
    rewrite !Z.pow_add_r by lia. change (2 ^ 1) with 2. ring.
  - assert (H2 : 0 <= shr_m (SpecFloat.iter_pos shr_1 k mrs)).
    { rewrite IH by done. apply Z.div_pos; [done|]. by apply Z.pow_pos_nonneg. }
    rewrite IH, IH by done.
    rewrite !Z.div_div by lia.
    f_equal. replace (Zpos k~0) with (Zpos k + Zpos k) by lia.
    by rewrite Z.pow_add_r by lia.
  - rewrite shr_1_m by done. done.
Qed.

Lemma Zdigits2_bounds (m : Z) :
  0 < m -> 2 ^ (Zdigits2 m - 1) <= m < 2 ^ Zdigits2 m.
Proof.
  destruct m as [|p|p]; try lia. intros _. apply digits2_pos_bounds.
Qed.

Lemma round_nearest_even_cases (m : Z) (l : location) :
  round_nearest_even m l = m \/ round_nearest_even m l = m + 1.
Proof.
  destruct l as [|[| |]]; simpl; auto. destruct (Z.even m); auto.
Qed.

Lemma pow2_lt_inv (a b : Z) : 0 <= a -> 0 <= b -> 2 ^ a < 2 ^ b -> a < b.
Proof. intros Ha Hb H. by apply Z.pow_lt_mono_r_iff in H. Qed.

Lemma shr_fexp_exact (m e k : Z) :
  fexp prec emax (Zdigits2 m + e) - e = k ->
  shr_fexp prec emax m e loc_Exact
  = shr {| shr_m := m; shr_r := false; shr_s := false |} e k.
Proof. intros <-. reflexivity. Qed.

(** An integer of more than 53 and at most 1023 binary digits is converted
    to a finite float. *)
Lemma binary_round_aux_large (p : positive) :
  53 < Zpos (digits2_pos p) <= 1023 ->
  exists m e,
    binary_round_aux prec emax false (Zpos p) 0 loc_Exact
    = S754_finite false m e.
Proof.
  intros Hd. pose proof (digits2_pos_bounds p) as Hp.
  set (d := Zpos (digits2_pos p)) in *.
  destruct (d - 53) as [|k|k] eqn:Hk; try lia.
  unfold binary_round_aux.
  (* the first shift, by [d - 53] *)
  rewrite (shr_fexp_exact (Zpos p) 0 (Zpos k)).
  2:{ unfold fexp, emin, prec, emax. cbn [Zdigits2]. fold d. lia. }
  cbn [shr].
  pose proof (iter_pos_shr_1_m k
                {| shr_m := Zpos p; shr_r := false; shr_s := false |}
                ltac:(done)) as Hm'.
  cbn [shr_m] in Hm'.
  set (mrs' := SpecFloat.iter_pos shr_1 k _) in *.
  assert (Hpow : 0 < 2 ^ Zpos k) by (by apply Z.pow_pos_nonneg).
  assert (Hsplit : 2 ^ d = 2 ^ 53 * 2 ^ Zpos k).
  { rewrite <- Z.pow_add_r by lia. f_equal. lia. }
  assert (Hsplit' : 2 ^ (d - 1) = 2 ^ 52 * 2 ^ Zpos k).
  { rewrite <- Z.pow_add_r by lia. f_equal. lia. }
  assert (Hm'b : 2 ^ 52 <= shr_m mrs' < 2 ^ 53).
  { rewrite Hm'. split.
    - apply Z.div_le_lower_bound; lia.
    - apply Z.div_lt_upper_bound; lia. }
  (* the rounding *)
  set (m1 := round_nearest_even (shr_m mrs') (loc_of_shr_record mrs')).
  assert (Hm1 : 2 ^ 52 <= m1 <= 2 ^ 53).
  { subst m1.
    destruct (round_nearest_even_cases (shr_m mrs') (loc_of_shr_record mrs'))
      as [-> | ->]; lia. }
  clearbody m1. clear Hm' Hm'b mrs'.
  (* the second shift, by 0 or 1 *)
  pose proof (Zdigits2_bounds m1 ltac:(lia)) as Hd1.
  assert (Hd1' : Zdigits2 m1 = 53 \/ Zdigits2 m1 = 54).
  { assert (0 <= Zdigits2 m1) by (destruct m1; simpl; lia).
    assert (52 < Zdigits2 m1).
    { apply pow2_lt_inv; [lia..|]. lia. }
    assert (Zdigits2 m1 - 1 < 54).
    { apply pow2_lt_inv; [lia..|].
      assert (2 ^ 53 < 2 ^ 54) by done. lia. }
    lia. }
  destruct Hd1' as [Hq|Hq].
  - rewrite (shr_fexp_exact m1 (0 + Zpos k) 0).
    2:{ unfold fexp, emin, prec, emax. rewrite Hq. lia. }
    cbn [shr shr_m]. destruct m1 as [|q|q]; try lia.
    destruct (Z.leb_spec (0 + Zpos k) (emax - prec));
      [by eexists _, _|unfold emax, prec in *; lia].
  - rewrite (shr_fexp_exact m1 (0 + Zpos k) 1).
    2:{ unfold fexp, emin, prec, emax. rewrite Hq. lia. }
    cbn [shr SpecFloat.iter_pos].
    assert (Hq2 : 0 < shr_m (shr_1 {| shr_m := m1; shr_r := false;
                                     shr_s := false |})).
    { rewrite shr_1_m by (cbn [shr_m]; lia). cbn [shr_m].
      apply Z.div_str_pos. assert (2 <= 2 ^ 52) by done. lia. }
    destruct (shr_m _) as [|q'|q']; try lia.
    destruct (Z.leb_spec (0 + Zpos k + 1) (emax - prec));
      [by eexists _, _|unfold emax, prec in *; lia].
Qed.

Lemma Z2F_finite (p : positive) :
  Zpos p < 2 ^ 1023 ->
  exists m e, Z2F (Zpos p) = S754_finite false m e.
Proof.
  intros Hp.
  pose proof (digits2_pos_bounds p) as [Hlo _].
  assert (Hd : Zpos (digits2_pos p) <= 1023).
  { destruct (Z.le_gt_cases (Zpos (digits2_pos p)) 1023) as [|Hgt]; [done|].
    exfalso. assert (2 ^ 1023 <= 2 ^ (Zpos (digits2_pos p) - 1)).
    { apply Z.pow_le_mono_r; lia. }
    lia. }
  destruct (Z.le_gt_cases (Zpos (digits2_pos p)) 53) as [Hsmall|Hlarge].
  - unfold Z2F, binary_normalize, binary_round, shl_align, fexp, emin, prec,
      emax.
    replace (Z.max (Zpos (digits2_pos p) + 0 - 53) (3 - 1024 - 53) - 0)
      with (Zpos (digits2_pos p) - 53) by lia.
    replace (Z.max (Zpos (digits2_pos p) + 0 - 53) (3 - 1024 - 53))
      with (Zpos (digits2_pos p) - 53) by lia.
    destruct (Zpos (digits2_pos p) - 53) as [|k|k] eqn:Hk; [|lia|].
    + eexists _, _. apply binary_round_aux_exact; lia.
    + eexists _, _. apply binary_round_aux_exact; [|lia].
      rewrite digits2_pos_iter_xO. lia.
  - unfold Z2F, binary_normalize, binary_round, shl_align.
    unfold fexp at 1. unfold emin, prec at 1 2, emax at 1.
    replace (Z.max (Zpos (digits2_pos p) + 0 - 53) (3 - 1024 - 53) - 0)
      with (Zpos (digits2_pos p) - 53) by lia.
    destruct (Zpos (digits2_pos p) - 53) as [|k|k] eqn:Hk; try lia.
    apply binary_round_aux_large. lia.
Qed.

Lemma float_of_int_finite (z : Z) :
  0 <= z < 2 ^ 1023 ->
  float_of_int z = Ok (Z2F z) /\ (0 < z -> float_is_zero (Z2F z) = false).
Proof.
  intros Hz. destruct z as [|p|p]; [done| |lia].
  destruct (Z2F_finite p) as (m & e & Hf); [lia|].
  unfold float_of_int. by rewrite Hf.
Qed.

Lemma generate_color_brew_total (n : Z) :
  0 < n < 2 ^ 1023 -> generate_color_brew n = Ok (hue_of n <$> seqZ 0 n).
Proof.
  intros Hn. unfold generate_color_brew.
  destruct (float_of_int_finite n) as [-> Hnz]; [lia|].
  cbn [mbind result_bind]. unfold float_truediv at 1.
  rewrite Hnz by lia. cbn [mbind result_bind].
  apply result_mapM_Ok. intros i Hi. apply elem_of_seqZ in Hi.
  unfold brew_hue. destruct (float_of_int_finite i) as [-> _]; [lia|].
  reflexivity.
Qed.

(** ** Rounding: the place of a remainder *)

Lemma loc_of_rem_cases (b1 b2 : bool) (m r d : Z) :
  0 <= r < d ->
  loc_of_shr_record {| shr_m := m; shr_r := b1; shr_s := b2 |} = loc_of_rem r d
  <-> match b1, b2 with
      | false, false => r = 0
      | false, true => 0 < r /\ 2 * r < d
      | true, false => 2 * r = d
      | true, true => d < 2 * r
      end.
Proof.
  intros Hr. unfold loc_of_rem.
  destruct (Z.eqb_spec r 0) as [->|Hr0].
  - destruct b1, b2; simpl; split; try done; try lia.
  - destruct (Z.compare_spec (2 * r) d); destruct b1, b2; simpl;
      split; try done; try lia.
Qed.

Lemma represents_shr_1 (mrs : shr_record) (num den : Z) :
  represents mrs num den -> represents (shr_1 mrs) num (2 * den).
Proof.
  destruct mrs as [m b1 b2]. intros (Hden & Hnum & Hm & Hloc).
  cbn [shr_m] in Hm.
  pose proof (Z.div_mod num den ltac:(lia)) as Hdm.
  pose proof (Z.mod_pos_bound num den Hden) as Hr.
  apply loc_of_rem_cases in Hloc; [|done].
  assert (Hm0 : 0 <= m) by (subst m; apply Z.div_pos; lia).
  set (r := num mod den) in *. rewrite <- Hm in Hdm. clearbody r. clear Hm.
  assert (Hq : forall q b, m = 2 * q + b -> 0 <= b < 2 ->
                 num / (2 * den) = q /\ num mod (2 * den) = b * den + r).
  { intros q b -> Hb.
    apply (Z.div_mod_unique (2 * den));
      [left; apply Z.mod_pos_bound; lia|left; nia|].
    rewrite <- Z.div_mod by lia. rewrite Hdm. ring. }
  split; [lia|]. split; [done|].
  destruct m as [|[p|p|]|p]; try lia; cbn [shr_1 shr_m].
  - destruct (Hq 0 0 ltac:(lia) ltac:(lia)) as [-> ->]. split; [done|].
    apply loc_of_rem_cases; [lia|]. destruct b1, b2; simpl; lia.
  - destruct (Hq (Zpos p) 1 ltac:(lia) ltac:(lia)) as [-> ->]. split; [done|].
    apply loc_of_rem_cases; [lia|]. destruct b1, b2; simpl; lia.
  - destruct (Hq (Zpos p) 0 ltac:(lia) ltac:(lia)) as [-> ->]. split; [done|].
    apply loc_of_rem_cases; [lia|]. destruct b1, b2; simpl; lia.
  - destruct (Hq 0 1 ltac:(lia) ltac:(lia)) as [-> ->]. split; [done|].
    apply loc_of_rem_cases; [lia|]. destruct b1, b2; simpl; lia.
Qed.

Lemma iter_pos_invariant {A} (f : A -> A) (P : Z -> A -> Prop) :
  (forall j x, P j x -> P (j + 1) (f x)) ->
  forall (k : positive) (j : Z) (x : A),
    P j x -> P (j + Zpos k) (SpecFloat.iter_pos f k x).
Proof.
  intros Hstep. induction k as [k IH|k IH|]; intros j x Hx;
    cbn [SpecFloat.iter_pos].
  - replace (j + Zpos k~1) with (j + 1 + Zpos k + Zpos k) by lia.
    by apply IH, IH, Hstep.
  - replace (j + Zpos k~0) with (j + Zpos k + Zpos k) by lia.
    by apply IH, IH.
  - by apply Hstep.
Qed.

Lemma represents_iter (k : positive) (mrs : shr_record) (num den : Z) :
  represents mrs num den ->
  represents (SpecFloat.iter_pos shr_1 k mrs) num (den * 2 ^ Zpos k).
Proof.
  intros Hrep.
  pose proof (iter_pos_invariant shr_1
                (fun j x => 0 <= j /\ represents x num (den * 2 ^ j))) as Hit.
  destruct (Hit) with (k := k) (j := 0) (x := mrs) as [_ H].
  - intros j x [Hj Hx]. split; [lia|].
    rewrite Z.pow_add_r by lia. change (2 ^ 1) with 2.
    replace (den * (2 ^ j * 2)) with (2 * (den * 2 ^ j)) by ring.
    by apply represents_shr_1.
  - split; [done|]. by rewrite Z.pow_0_r, Z.mul_1_r.
  - exact H.
Qed.

Lemma represents_round (mrs : shr_record) (num den : Z) :
  represents mrs num den ->
  round_nearest_even (shr_m mrs) (loc_of_shr_record mrs)
  = round_half_even num den.
Proof.
  intros (Hden & Hnum & Hm & Hloc). rewrite Hm, Hloc.
  unfold round_half_even, loc_of_rem.
  pose proof (Z.mod_pos_bound num den Hden) as Hr.
  destruct (Z.eqb_spec (num mod den) 0) as [->|Hr0].
  - simpl. by destruct den.
  - by destruct (2 * (num mod den) ?= den).
Qed.

Lemma new_location_rem (d r : Z) :
  0 < d -> 0 <= r < d -> new_location d r = loc_of_rem r d.
Proof.
  intros Hd Hr. unfold new_location, new_location_even, new_location_odd,
    loc_of_rem.
  destruct (Z.even d) eqn:Hev; [done|].
  destruct (Z.eqb_spec r 0); [done|]. f_equal.
  assert (Hodd : Z.odd d = true) by (by rewrite <- Z.negb_even, Hev).
  apply Z.odd_spec in Hodd as [c Hc].
  destruct (Z.compare_spec (2 * r + 1) d), (Z.compare_spec (2 * r) d);
    try done; lia.
Qed.

Lemma Zdigits2_unique (m d : Z) :
  0 < d -> 2 ^ (d - 1) <= m < 2 ^ d -> Zdigits2 m = d.
Proof.
  intros Hd Hm.
  assert (0 < 2 ^ (d - 1)) by (apply Z.pow_pos_nonneg; lia).
  pose proof (Zdigits2_bounds m ltac:(lia)) as Hb.
  assert (0 < Zdigits2 m) by (destruct m; simpl; lia).
  assert (Zdigits2 m - 1 < d).
  { apply pow2_lt_inv; [lia..|]. lia. }
  assert (d - 1 < Zdigits2 m).
  { apply pow2_lt_inv; [lia..|]. lia. }
  lia.
Qed.

(** The rounding of a quotient that has at least 53 binary digits: the
    mantissa is the quotient, scaled to 53 digits and rounded to the nearest
    integer, ties to even. *)
Lemma binary_round_aux_value (mx ex : Z) (lx : location) (num den k : Z) :
  represents (shr_record_of_loc mx lx) num den ->
  2 ^ 52 <= mx ->
  k = Zdigits2 mx - 53 ->
  -1074 <= ex + k -> ex + k + 1 <= 971 ->
  exists (m : positive) (e : Z),
    binary_round_aux prec emax false mx ex lx = S754_finite false m e
    /\ 2 ^ 52 <= Zpos m < 2 ^ 53
    /\ ex + k <= e <= ex + k + 1
    /\ 0 <= k
    /\ Zpos m * 2 ^ (e - (ex + k)) = round_half_even num (den * 2 ^ k).
Proof.
  intros Hrep Hmx Hk Hlo Hhi.
  assert (Hmx0 : 0 < mx) by (assert (0 < 2 ^ 52) by done; lia).
  pose proof (Zdigits2_bounds mx Hmx0) as Hd.
  assert (Hk0 : 0 <= k).
  { assert (0 < Zdigits2 mx) by (destruct mx; simpl; lia).
    assert (52 < Zdigits2 mx); [|lia].
    apply pow2_lt_inv; [lia..|]. lia. }
  unfold binary_round_aux. unfold shr_fexp at 1.
  replace (fexp prec emax (Zdigits2 mx + ex) - ex) with k
    by (unfold fexp, emin, prec, emax; lia).
  set (mrs0 := shr_record_of_loc mx lx) in *.
  assert (Hm0 : shr_m mrs0 = mx) by (subst mrs0; by destruct lx as [|[]]).
  assert (Hshift : exists mrs',
             shr mrs0 ex k = (mrs', ex + k)
             /\ represents mrs' num (den * 2 ^ k)).
  { destruct k as [|k'|k']; try lia.
    - exists mrs0. split; [cbn [shr]; f_equal; lia|].
      by rewrite Z.pow_0_r, Z.mul_1_r.
    - exists (SpecFloat.iter_pos shr_1 k' mrs0). split; [done|].
      by apply represents_iter. }
  destruct Hshift as (mrs' & -> & Hrep'). cbv beta iota.
  rewrite (represents_round _ _ _ Hrep').
  destruct Hrep' as (HD & Hnum & Hm' & _).
  destruct Hrep as (Hden & _ & Hq & _). rewrite Hm0 in Hq.
  pose proof (round_half_even_near num (den * 2 ^ k) HD) as Hnear.
  set (R := round_half_even num (den * 2 ^ k)) in *.
  assert (Hpow : 0 < 2 ^ k) by (by apply Z.pow_pos_nonneg).
  assert (Hsplit : 2 ^ Zdigits2 mx = 2 ^ 53 * 2 ^ k).
  { rewrite <- Z.pow_add_r by lia. f_equal. lia. }
  assert (Hsplit' : 2 ^ (Zdigits2 mx - 1) = 2 ^ 52 * 2 ^ k).
  { rewrite <- Z.pow_add_r by lia. f_equal. lia. }
  (* [2^52 <= num / D < 2^53], hence [2^52 <= R <= 2^53] *)
  pose proof (Z.div_mod num den ltac:(lia)) as Hdm.
  pose proof (Z.mod_pos_bound num den Hden) as Hr.
  rewrite <- Hq in Hdm.
  assert (HR : 2 ^ 52 <= R <= 2 ^ 53).
  { assert (2 ^ 52 * (den * 2 ^ k) <= num) by nia.
    assert (num < 2 ^ 53 * (den * 2 ^ k)) by nia.
    assert (H52 : (2 ^ 52 : Z) = 4503599627370496) by done.
    assert (H53 : (2 ^ 53 : Z) = 9007199254740992) by done.
    rewrite H52, H53 in *. clearbody R. clear -H H0 Hnear HD. nia. }
  clearbody R.
  destruct (Z.eq_dec R (2 ^ 53)) as [->|Hne].
  - rewrite (shr_fexp_exact (2 ^ 53) (ex + k) 1)
      by (unfold fexp, emin, prec, emax; simpl Zdigits2; lia).
    exists (4503599627370496%positive), (ex + k + 1).
    cbn [shr SpecFloat.iter_pos]. simpl shr_m.
    destruct (Z.leb_spec (ex + k + 1) (emax - prec));
      [|unfold emax, prec in *; lia].
    split; [done|]. split; [done|]. split; [lia|]. split; [done|].
    replace (ex + k + 1 - (ex + k)) with 1 by lia. done.
  - assert (Hdig : Zdigits2 R = 53) by (apply Zdigits2_unique; [done|]; lia).
    rewrite (shr_fexp_exact R (ex + k) 0)
      by (unfold fexp, emin, prec, emax; rewrite Hdig; lia).
    cbn [shr shr_m]. destruct R as [|q|q]; try lia.
    exists q, (ex + k).
    destruct (Z.leb_spec (ex + k) (emax - prec));
      [|unfold emax, prec in *; lia].
    split; [done|]. split; [lia|]. split; [lia|]. split; [done|].
    rewrite Z.sub_diag. simpl. lia.
Qed.

(** ** Rounding: the relative error *)

Lemma Qpow2_pos (a : Z) : (0 < 2 ^ a)%Q.
Proof. by apply Qpower_0_lt. Qed.

Lemma Qpow2_add (a b : Z) : (2 ^ (a + b) == 2 ^ a * 2 ^ b)%Q.
Proof. by apply Qpower_plus. Qed.

Lemma Qpow2_inject (a : Z) : 0 <= a -> (inject_Z (2 ^ a) == 2 ^ a)%Q.
Proof. intros Ha. by rewrite Zpower_Qpower. Qed.

Lemma Zpos_iter_xO (p k : positive) :
  Zpos (Pos.iter xO p k) = Zpos p * 2 ^ Zpos k.
Proof.
  induction k as [|k IH] using Pos.peano_ind.
  - simpl. lia.
  - rewrite Pos.iter_succ, Pos2Z.inj_xO, IH, Pos2Z.inj_succ, Z.pow_succ_r by lia.
    ring.
Qed.

Lemma Z2F_exact (z : Z) :
  0 < z < 2 ^ 53 ->
  exists (m : positive) (e : Z),
    Z2F z = S754_finite false m e
    /\ 2 ^ 52 <= Zpos m < 2 ^ 53 /\ -52 <= e <= 0
    /\ Zpos m = z * 2 ^ (- e).
Proof.
  intros Hz. destruct z as [|p|p]; try lia.
  pose proof (digits2_pos_bounds p) as Hp.
  set (d := Zpos (digits2_pos p)) in *.
  assert (Hd : 1 <= d <= 53).
  { split; [lia|]. assert (d - 1 < 53); [|lia].
    apply pow2_lt_inv; [lia..|]. lia. }
  unfold Z2F, binary_normalize, binary_round, shl_align, fexp, emin, prec, emax.
  fold d.
  replace (Z.max (d + 0 - 53) (3 - 1024 - 53) - 0) with (d - 53) by lia.
  replace (Z.max (d + 0 - 53) (3 - 1024 - 53)) with (d - 53) by lia.
  destruct (d - 53) as [|k|k] eqn:Hk; [|lia|].
  - exists p, 0. split; [apply binary_round_aux_exact; [|lia]|].
    + apply Pos2Z.inj. fold d. lia.
    + replace d with 53 in Hp by lia. split; [done|]. split; [lia|].
      simpl. lia.
  - exists (Pos.iter xO p k), (Zneg k).
    split; [apply binary_round_aux_exact; [|lia]|].
    + rewrite digits2_pos_iter_xO. apply Pos2Z.inj.
      rewrite Pos2Z.inj_add. fold d. lia.
    + rewrite Zpos_iter_xO. change (- Zneg k) with (Zpos k).
      assert (Hs : 2 ^ 53 = 2 ^ d * 2 ^ Zpos k).
      { rewrite <- Z.pow_add_r by lia. f_equal. lia. }
      assert (Hs' : 2 ^ 52 = 2 ^ (d - 1) * 2 ^ Zpos k).
      { rewrite <- Z.pow_add_r by lia. f_equal. lia. }
      assert (0 < 2 ^ Zpos k) by (by apply Z.pow_pos_nonneg).
      rewrite Hs, Hs'. split; [nia|]. split; [lia|done].
Qed.

Lemma Z2F_normal (z : Z) :
  0 < z < 2 ^ 53 ->
  normal_in (Z2F z) (-52) 0 /\ (F2Q (Z2F z) == inject_Z z)%Q.
Proof.
  intros Hz. destruct (Z2F_exact z Hz) as (m & e & -> & Hm & He & Hv).
  split; [by exists m, e|].
  cbn [F2Q]. rewrite Hv, inject_Z_mult, Qpow2_inject by lia.
  rewrite <- Qmult_assoc, <- Qpow2_add.
  replace (- e + e) with 0 by lia. simpl. ring.
Qed.

(** The relative error of a mantissa rounded to the nearest integer. *)
Lemma round_error (m e e0 N D : Z) (x : Q) :
  0 < D -> 0 <= e - e0 ->
  2 ^ 53 * Z.abs (m * 2 ^ (e - e0) * D - N) <= N ->
  (x * inject_Z D == inject_Z N * 2 ^ e0)%Q ->
  rel_near (inject_Z m * 2 ^ e) x.
Proof.
  intros HD He Herr Hx.
  set (M := m * 2 ^ (e - e0)) in *.
  assert (Hv : (inject_Z m * 2 ^ e == inject_Z M * 2 ^ e0)%Q).
  { subst M. rewrite inject_Z_mult, Qpow2_inject by done.
    rewrite <- Qmult_assoc, <- Qpow2_add.
    by replace (e - e0 + e0) with e by lia. }
  unfold rel_near. rewrite Hv.
  pose proof (Qpow2_pos e0) as HP. set (P := (2 ^ e0)%Q) in *.
  assert (HDq : (0 < inject_Z D)%Q) by (unfold Qlt; simpl; lia).
  assert (H1 : (inject_Z N - inject_Z M * inject_Z D
                <= inject_Z N * unit_roundoff)%Q).
  { assert (H : 2 ^ 53 * N <= N + 2 ^ 53 * (M * D)) by lia.
    rewrite Zle_Qle, inject_Z_plus, !inject_Z_mult in H.
    unfold unit_roundoff.
    change (inject_Z (2 ^ 53)) with (9007199254740992 # 1)%Q in H.
    set (a := inject_Z N) in *. set (b := (inject_Z M * inject_Z D)%Q) in *.
    lra. }
  assert (H2 : (inject_Z M * inject_Z D - inject_Z N
                <= inject_Z N * unit_roundoff)%Q).
  { assert (H : 2 ^ 53 * (M * D) <= N + 2 ^ 53 * N) by lia.
    rewrite Zle_Qle, inject_Z_plus, !inject_Z_mult in H.
    unfold unit_roundoff.
    change (inject_Z (2 ^ 53)) with (9007199254740992 # 1)%Q in H.
    set (a := inject_Z N) in *. set (b := (inject_Z M * inject_Z D)%Q) in *.
    lra. }
  set (Nq := inject_Z N) in *. set (Mq := inject_Z M) in *.
  set (Dq := inject_Z D) in *. clearbody Nq Mq Dq P.
  split.
  - apply (Qmult_le_r _ _ Dq); [done|].
    assert (H : (0 <= P * (Nq * unit_roundoff - (Nq - Mq * Dq)))%Q).
    { apply Qmult_le_0_compat; lra. }
    assert (Hl : (x * (1 - unit_roundoff) * Dq
                  == Nq * P * (1 - unit_roundoff))%Q).
    { rewrite <- Hx. ring. }
    rewrite Hl. lra.
  - apply (Qmult_le_r _ _ Dq); [done|].
    assert (H : (0 <= P * (Nq * unit_roundoff - (Mq * Dq - Nq)))%Q).
    { apply Qmult_le_0_compat; lra. }
    assert (Hl : (x * (1 + unit_roundoff) * Dq
                  == Nq * P * (1 + unit_roundoff))%Q).
    { rewrite <- Hx. ring. }
    rewrite Hl. lra.
Qed.

Lemma shr_record_of_loc_m (m : Z) (l : location) :
  shr_m (shr_record_of_loc m l) = m.
Proof. by destruct l as [|[]]. Qed.

Lemma loc_of_shr_record_of_loc (m : Z) (l : location) :
  loc_of_shr_record (shr_record_of_loc m l) = l.
Proof. by destruct l as [|[]]. Qed.

Lemma represents_quotient (num den : Z) :
  0 <= num -> 0 < den ->
  represents (shr_record_of_loc (num / den) (loc_of_rem (num mod den) den))
    num den.
Proof.
  intros Hn Hd. split; [done|]. split; [done|].
  by rewrite shr_record_of_loc_m, loc_of_shr_record_of_loc.
Qed.

(** The rounding of a quotient of at least 53 binary digits, with its
    relative error: at most [2^-53]. *)
Lemma binary_round_aux_error (ex num den k : Z) (x : Q) :
  0 <= num -> 0 < den ->
  2 ^ 52 <= num / den ->
  k = Zdigits2 (num / den) - 53 ->
  -1074 <= ex + k -> ex + k + 1 <= 971 ->
  (x * inject_Z (den * 2 ^ k) == inject_Z num * 2 ^ (ex + k))%Q ->
  let y := binary_round_aux prec emax false (num / den) ex
             (loc_of_rem (num mod den) den) in
  normal_in y (ex + k) (ex + k + 1) /\ 0 <= k /\ rel_near (F2Q y) x.
Proof.
  intros Hnum Hden Hq Hk Hlo Hhi Hx y. subst y.
  destruct (binary_round_aux_value (num / den) ex
              (loc_of_rem (num mod den) den) num den k)
    as (m & e & -> & Hm & He & Hk0 & Hv); try done.
  { by apply represents_quotient. }
  split; [by exists m, e|]. split; [done|].
  cbn [F2Q].
  assert (Hpow : 0 < 2 ^ k) by (by apply Z.pow_pos_nonneg).
  apply (round_error (Zpos m) e (ex + k) num (den * 2 ^ k)); [nia|lia| |done].
  rewrite Hv.
  pose proof (round_half_even_near num (den * 2 ^ k) ltac:(nia)) as Hnear.
  set (R := round_half_even num (den * 2 ^ k)) in *. clearbody R.
  pose proof (Zdigits2_bounds (num / den)
                ltac:(assert (0 < 2 ^ 52) by done; lia)) as [Hd _].
  replace (Zdigits2 (num / den) - 1) with (52 + k) in Hd by lia.
  rewrite Z.pow_add_r in Hd by lia.
  pose proof (Z.div_mod num den ltac:(lia)) as Hdm.
  pose proof (Z.mod_pos_bound num den Hden) as Hr.
  assert (H52 : (2 ^ 52 : Z) = 4503599627370496) by done.
  assert (H53 : (2 ^ 53 : Z) = 9007199254740992) by done.
  rewrite H52 in Hd. rewrite H53.
  assert (4503599627370496 * (den * 2 ^ k) <= num) by nia.
  lia.
Qed.

Lemma normal_digits (m : positive) :
  2 ^ 52 <= Zpos m < 2 ^ 53 -> Zdigits2 (Zpos m) = 53.
Proof. intros Hm. by apply Zdigits2_unique. Qed.

Lemma SFmul_near (x y : float) (lx hx ly hy : Z) :
  normal_in x lx hx -> normal_in y ly hy ->
  -1074 <= lx + ly + 52 -> hx + hy + 54 <= 971 ->
  normal_in (SFmul prec emax x y) (lx + ly + 52) (hx + hy + 54)
  /\ rel_near (F2Q (SFmul prec emax x y)) (F2Q x * F2Q y).
Proof.
  intros (mx & ex & -> & Hmx & Hex) (my & ey & -> & Hmy & Hey) Hlo Hhi.
  cbn [SFmul xorb F2Q].
  set (M := Zpos (mx * my)).
  assert (HM : M = Zpos mx * Zpos my) by done.
  assert (HMb : 2 ^ 104 <= M < 2 ^ 106).
  { assert (H52 : (2 ^ 52 : Z) = 4503599627370496) by done.
    assert (H53 : (2 ^ 53 : Z) = 9007199254740992) by done.
    rewrite H52, H53 in *.
    change (2 ^ 104) with (4503599627370496 * 4503599627370496).
    change (2 ^ 106) with (9007199254740992 * 9007199254740992).
    rewrite HM. nia. }
  pose proof (Zdigits2_bounds M ltac:(lia)) as Hd.
  assert (Hk : 52 <= Zdigits2 M - 53 <= 53).
  { assert (0 < Zdigits2 M) by done.
    assert (104 < Zdigits2 M) by (apply pow2_lt_inv; [lia..|]; lia).
    assert (Zdigits2 M - 1 < 106) by (apply pow2_lt_inv; [lia..|]; lia).
    lia. }
  set (k := Zdigits2 M - 53) in *.
  pose proof (binary_round_aux_error (ex + ey) M 1 k
                (inject_Z (Zpos mx) * 2 ^ ex * (inject_Z (Zpos my) * 2 ^ ey))%Q)
    as Hround.
  rewrite Z.div_1_r, Z.mod_1_r in Hround. change (loc_of_rem 0 1) with loc_Exact in Hround.
  destruct Hround as (Hn & _ & Hrel); try lia; try done.
  { rewrite Z.mul_1_l, Qpow2_inject, !Qpow2_add, HM, inject_Z_mult by lia.
    ring. }
  split; [|done].
  destruct Hn as (m & e & -> & Hm & He). exists m, e. split; [done|].
  split; [done|]. lia.
Qed.

Lemma SFdiv_core_binary_normal (mx my : positive) (ex ey : Z) :
  2 ^ 52 <= Zpos mx < 2 ^ 53 -> 2 ^ 52 <= Zpos my < 2 ^ 53 ->
  -1021 <= ex - ey ->
  SFdiv_core_binary prec emax (Zpos mx) ex (Zpos my) ey
  = ((Zpos mx * 2 ^ 53) / Zpos my, ex - ey - 53,
     loc_of_rem ((Zpos mx * 2 ^ 53) mod Zpos my) (Zpos my)).
Proof.
  intros Hmx Hmy He. unfold SFdiv_core_binary.
  rewrite !normal_digits by done.
  unfold fexp, emin, prec, emax.
  replace (Z.min (Z.max (53 + ex - (53 + ey) - 53) (3 - 1024 - 53)) (ex - ey))
    with (ex - ey - 53) by lia.
  replace (ex - ey - (ex - ey - 53)) with 53 by lia.
  rewrite Z.shiftl_mul_pow2 by lia.
  pose proof (Z.mod_pos_bound (Zpos mx * 2 ^ 53) (Zpos my) ltac:(lia)) as Hr.
  unfold Z.div, Z.modulo in *.
  destruct (Z.div_eucl (Zpos mx * 2 ^ 53) (Zpos my)) as [q r].
  by rewrite new_location_rem.
Qed.

Lemma SFdiv_near (x y : float) (lx hx ly hy : Z) (q : Q) :
  normal_in x lx hx -> normal_in y ly hy ->
  -1021 <= lx - hy -> hx - ly - 51 <= 971 ->
  (q * F2Q y == F2Q x)%Q ->
  normal_in (SFdiv prec emax x y) (lx - hy - 53) (hx - ly - 51)
  /\ rel_near (F2Q (SFdiv prec emax x y)) q.
Proof.
  intros (mx & ex & -> & Hmx & Hex) (my & ey & -> & Hmy & Hey) Hlo Hhi Hq.
  cbn [SFdiv xorb]. cbn [F2Q] in Hq.
  rewrite SFdiv_core_binary_normal by (done || lia).
  set (N := Zpos mx * 2 ^ 53).
  assert (H52 : (2 ^ 52 : Z) = 4503599627370496) by done.
  assert (H53 : (2 ^ 53 : Z) = 9007199254740992) by done.
  assert (HQ : 2 ^ 52 <= N / Zpos my < 2 ^ 54).
  { split.
    - apply Z.div_le_lower_bound; [lia|]. subst N. rewrite H52, H53 in *. nia.
    - apply Z.div_lt_upper_bound; [lia|]. subst N.
      change (2 ^ 54) with (2 * 2 ^ 53). rewrite H52, H53 in *. nia. }
  pose proof (Zdigits2_bounds (N / Zpos my) ltac:(lia)) as Hd.
  assert (Hk : 0 <= Zdigits2 (N / Zpos my) - 53 <= 1).
  { assert (0 < Zdigits2 (N / Zpos my)) by (destruct (N / Zpos my); simpl; lia).
    assert (52 < Zdigits2 (N / Zpos my)) by (apply pow2_lt_inv; [lia..|]; lia).
    assert (Zdigits2 (N / Zpos my) - 1 < 54)
      by (apply pow2_lt_inv; [lia..|]; lia).
    lia. }
  set (k := Zdigits2 (N / Zpos my) - 53) in *.
  destruct (binary_round_aux_error (ex - ey - 53) N (Zpos my) k q)
    as (Hn & _ & Hrel); try lia; try done.
  { apply (Qmult_inj_r _ _ (2 ^ ey)%Q).
    { pose proof (Qpow2_pos ey). lra. }
    subst N. rewrite !inject_Z_mult, !Qpow2_inject by lia.
    transitivity (q * (inject_Z (Zpos my) * 2 ^ ey) * 2 ^ k)%Q; [ring|].
    rewrite Hq.
    assert (E : (2 ^ 53 * 2 ^ (ex - ey - 53 + k) * 2 ^ ey == 2 ^ ex * 2 ^ k)%Q).
    { rewrite <- !Qpow2_add.
      by replace (53 + (ex - ey - 53 + k) + ey) with (ex + k) by lia. }
    transitivity (inject_Z (Zpos mx)
                  * (2 ^ 53 * 2 ^ (ex - ey - 53 + k) * 2 ^ ey))%Q;
      [rewrite E|]; ring. }
  split; [|done].
  destruct Hn as (m & e & -> & Hm & He). exists m, e. split; [done|].
  split; [done|]. lia.
Qed.

(** ** The hues *)

Lemma inject_Z_pos (z : Z) : 0 < z -> (0 < inject_Z z)%Q.
Proof. intros Hz. unfold Qlt. simpl. lia. Qed.

(** A full mantissa below [2^t] has an exponent below [t - 52]. *)
Lemma normal_exponent_lt (m : positive) (e t : Z) :
  2 ^ 52 <= Zpos m ->
  (inject_Z (Zpos m) * 2 ^ e < 2 ^ t)%Q -> e < t - 52.
Proof.
  intros Hm Hlt. destruct (Z.lt_ge_cases e (t - 52)) as [|Hge]; [done|].
  exfalso.
  assert (H1 : (2 ^ (t - 52) <= 2 ^ e)%Q).
  { apply Qpower_le_compat_l; [lia|done]. }
  assert (H2 : (2 ^ 52 <= inject_Z (Zpos m))%Q).
  { rewrite Zle_Qle in Hm. by rewrite <- (Qpow2_inject 52). }
  assert (H3 : (2 ^ t == 2 ^ 52 * 2 ^ (t - 52))%Q).
  { rewrite <- Qpow2_add. by replace (52 + (t - 52)) with t by lia. }
  pose proof (Qpow2_pos (t - 52)) as H4. pose proof (Qpow2_pos e) as H5.
  rewrite H3 in Hlt.
  set (a := (2 ^ (t - 52))%Q) in *. set (b := (2 ^ e)%Q) in *.
  set (c := inject_Z (Zpos m)) in *. set (d := (2 ^ 52)%Q) in *.
  assert (0 < d)%Q by done.
  assert (d * a <= c * b)%Q; [|lra].
  apply Qle_trans with (d * b)%Q.
  - apply Qmult_le_l; done.
  - apply Qmult_le_r; done.
Qed.

(** The hue of the colour [i] of [n], for [0 < i < n < 2^53]: a float with a
    full mantissa, which is the ratio [i/n] up to three roundings. *)
Lemma hue_of_roundings (n i : Z) :
  0 < i < n -> n < 2 ^ 53 ->
  exists (m : positive) (e : Z) (r : Q),
    hue_of n i = S754_finite false m e
    /\ 2 ^ 52 <= Zpos m < 2 ^ 53
    /\ (r * inject_Z n == inject_Z i)%Q
    /\ (r * ((1 - unit_roundoff) * (1 - unit_roundoff) * (1 - unit_roundoff))
        <= inject_Z (Zpos m) * 2 ^ e
        <= r * ((1 + unit_roundoff) * (1 + unit_roundoff)
                * (1 + unit_roundoff)))%Q.
Proof.
  intros Hi Hn.
  destruct (Z2F_normal n) as [Nn Vn]; [lia|].
  destruct (Z2F_normal i) as [Ni Vi]; [lia|].
  destruct (Z2F_normal 360) as [Nc Vc]; [done|].
  pose proof (inject_Z_pos n ltac:(lia)) as Hnq.
  pose proof (inject_Z_pos i ltac:(lia)) as Hiq.
  set (nq := inject_Z n) in *. set (iq := inject_Z i) in *.
  change (inject_Z 360) with (360 # 1)%Q in Vc.
  unfold hue_of.
  set (s := SFdiv prec emax (Z2F 360) (Z2F n)).
  set (p := SFmul prec emax (Z2F i) s).
  set (h := SFdiv prec emax p (Z2F 360)).
  destruct (SFdiv_near (Z2F 360) (Z2F n) (-52) 0 (-52) 0 (360 / nq)%Q)
    as [Ns Rs]; [done|done|lia|lia| |].
  { rewrite Vn, Vc. field. lra. }
  fold s in Ns, Rs.
  destruct (SFmul_near (Z2F i) s (-52) 0 (-52 - 0 - 53) (0 - -52 - 51))
    as [Np Rp]; [done|done|lia|lia|].
  fold p in Np, Rp.
  destruct (SFdiv_near p (Z2F 360) (-52 + (-52 - 0 - 53) + 52)
              (0 + (0 - -52 - 51) + 54) (-52) 0 (F2Q p / 360)%Q)
    as [Nh Rh]; [done|done|lia|lia| |].
  { rewrite Vc. field. }
  fold h in Nh, Rh.
  destruct Nh as (m & e & Hh & Hm & _). rewrite Hh in Rh. cbn [F2Q] in Rh.
  exists m, e, (iq / nq)%Q.
  split; [done|]. split; [done|]. split; [field; lra|].
  unfold rel_near in *. rewrite Vi in Rp.
  set (S := F2Q s) in *. set (P := F2Q p) in *.
  set (H := (inject_Z (Zpos m) * 2 ^ e)%Q) in *.
  set (r := (iq / nq)%Q).
  assert (Ha : (iq * (360 / nq) == 360 * r)%Q) by (subst r; field; lra).
  assert (Hq : (P / 360 * 360 == P)%Q) by field.
  set (a := (360 / nq)%Q) in *. set (Pq := (P / 360)%Q) in *.
  assert (HT : (iq * (a * (1 - unit_roundoff)) <= iq * S
                /\ iq * S <= iq * (a * (1 + unit_roundoff)))%Q).
  { split; apply Qmult_le_l; tauto. }
  set (T := (iq * S)%Q) in *.
  assert (HT' : (360 * r * (1 - unit_roundoff) <= T
                 /\ T <= 360 * r * (1 + unit_roundoff))%Q).
  { rewrite <- Ha. split; [apply Qle_trans with (iq * (a * (1 - unit_roundoff)))%Q
                          |apply Qle_trans with (iq * (a * (1 + unit_roundoff)))%Q];
      try tauto.
    - apply Qle_lteq. right. ring.
    - apply Qle_lteq. right. ring. }
  clearbody T r Pq P H. clear -HT' Rp Rh Hq.
  unfold unit_roundoff in *. lra.
Qed.

Lemma hue_of_first (n : Z) : 0 < n < 2 ^ 53 -> hue_of n 0 = S754_zero false.
Proof.
  intros Hn. unfold hue_of.
  destruct (Z2F_normal n Hn) as [Nn Vn].
  destruct (Z2F_normal 360) as [Nc Vc]; [done|].
  pose proof (inject_Z_pos n ltac:(lia)) as Hnq.
  destruct (SFdiv_near (Z2F 360) (Z2F n) (-52) 0 (-52) 0
              (inject_Z 360 / inject_Z n)%Q)
    as [(m & e & -> & _) _]; [done|done|lia|lia| |].
  { rewrite Vn, Vc. field. lra. }
  destruct Nc as (mc & ec & -> & _). reflexivity.
Qed.

Lemma in_unit_interval_normal (m : positive) (e : Z) :
  e < -52 -> in_unit_interval (S754_finite false m e) = true.
Proof.
  intros He. unfold in_unit_interval.
  change (Z2F 0) with (S754_zero false).
  change (Z2F 1) with (S754_finite false 4503599627370496 (-52)).
  unfold SFleb, SFltb. cbn [SFcompare andb].
  by destruct (Z.compare_spec e (-52)); try lia.
Qed.

(** For [n] up to [2^51] every hue is a number of the interval [[0,1)]. *)
Lemma hue_of_unit_interval (n i : Z) :
  0 < n <= 2 ^ 51 -> 0 <= i < n -> in_unit_interval (hue_of n i) = true.
Proof.
  intros Hn Hi.
  assert (Hn53 : n < 2 ^ 53) by (assert (2 ^ 51 < 2 ^ 53) by done; lia).
  destruct (Z.eq_dec i 0) as [->|Hi0].
  { by rewrite hue_of_first by lia. }
  destruct (hue_of_roundings n i) as (m & e & r & -> & Hm & Hr & _ & Hup);
    [lia|done|].
  apply in_unit_interval_normal.
  apply (normal_exponent_lt m e 0); [lia|].
  change (2 ^ 0)%Q with 1%Q.
  pose proof (inject_Z_pos n ltac:(lia)) as Hnq.
  assert (Hin : (inject_Z i <= inject_Z n - 1)%Q).
  { assert (H : i + 1 <= n) by lia.
    rewrite Zle_Qle, inject_Z_plus in H. change (inject_Z 1) with 1%Q in H.
    lra. }
  assert (Hnb : (inject_Z n <= 2251799813685248 # 1)%Q).
  { destruct Hn as [_ H]. rewrite Zle_Qle in H. exact H. }
  set (nq := inject_Z n) in *. set (iq := inject_Z i) in *.
  assert (Hr4 : (r <= 1 - (4 # 1) * unit_roundoff)%Q).
  { apply (Qmult_le_r _ _ nq); [done|]. rewrite Hr.
    unfold unit_roundoff. lra. }
  set (H := (inject_Z (Zpos m) * 2 ^ e)%Q) in *.
  clearbody H nq iq. unfold unit_roundoff in *. lra.
Qed.

(** For [n] below [2^53] every hue is within [2^-51] of the ratio [i/n]. *)
Lemma hue_of_near_ratio (n i : Z) :
  0 < n < 2 ^ 53 -> 0 <= i < n -> near_ratio (hue_of n i) i n = true.
Proof.
  intros Hn Hi.
  destruct (Z.eq_dec i 0) as [->|Hi0].
  { by rewrite hue_of_first by lia. }
  destruct (hue_of_roundings n i) as (m & e & r & -> & Hm & Hr & Hlow & Hup);
    [lia|lia|].
  pose proof (inject_Z_pos n ltac:(lia)) as Hnq.
  pose proof (inject_Z_pos i ltac:(lia)) as Hiq.
  assert (Hin : (inject_Z i <= inject_Z n)%Q).
  { assert (H : i <= n) by lia. by rewrite Zle_Qle in H. }
  set (nq := inject_Z n) in *. set (iq := inject_Z i) in *.
  assert (Hr0 : (0 <= r)%Q).
  { apply (Qmult_le_r _ _ nq); [done|]. rewrite Hr. lra. }
  assert (Hr1 : (r <= 1)%Q).
  { apply (Qmult_le_r _ _ nq); [done|]. rewrite Hr. lra. }
  set (H := (inject_Z (Zpos m) * 2 ^ e)%Q) in *.
  assert (Hnear : (r - (4 # 1) * unit_roundoff <= H
                   /\ H <= r + (4 # 1) * unit_roundoff)%Q).
  { clearbody H. unfold unit_roundoff in *. lra. }
  (* the exponent is negative *)
  assert (He : e < 1 - 52).
  { apply (normal_exponent_lt m e 1); [lia|]. fold H.
    change (2 ^ 1)%Q with (2 # 1)%Q. unfold unit_roundoff in *. lra. }
  destruct e as [|E|E]; try lia.
  cbn [near_ratio]. apply Z.leb_le.
  set (G := 2 ^ Zpos E).
  assert (HG : 0 < G) by (by apply Z.pow_pos_nonneg).
  pose proof (inject_Z_pos G HG) as HGq.
  assert (HHG : (H * inject_Z G == inject_Z (Zpos m))%Q).
  { subst H G. rewrite Qpow2_inject, <- Qmult_assoc, <- Qpow2_add by lia.
    replace (Zneg E + Zpos E) with 0 by lia. simpl. ring. }
  set (mq := inject_Z (Zpos m)) in *. set (Gq := inject_Z G) in *.
  assert (Hprod : (0 < nq * Gq)%Q) by (by apply Qmult_lt_0_compat).
  assert (K1 : (0 <= (H - (r - (4 # 1) * unit_roundoff)) * (nq * Gq))%Q).
  { apply Qmult_le_0_compat; lra. }
  assert (K2 : (0 <= (r + (4 # 1) * unit_roundoff - H) * (nq * Gq))%Q).
  { apply Qmult_le_0_compat; lra. }
  assert (E1 : ((H - (r - (4 # 1) * unit_roundoff)) * (nq * Gq)
                == H * Gq * nq - r * nq * Gq
                   + (4 # 1) * unit_roundoff * (nq * Gq))%Q) by ring.
  assert (E2 : ((r + (4 # 1) * unit_roundoff - H) * (nq * Gq)
                == r * nq * Gq - H * Gq * nq
                   + (4 # 1) * unit_roundoff * (nq * Gq))%Q) by ring.
  rewrite E1, HHG, Hr in K1. rewrite E2, HHG, Hr in K2.
  assert (Z1 : Zpos m * n * 2 ^ 51 <= n * G + i * G * 2 ^ 51).
  { rewrite Zle_Qle, inject_Z_plus, !inject_Z_mult.
    fold mq nq iq Gq. change (inject_Z (2 ^ 51)) with (2251799813685248 # 1)%Q.
    unfold unit_roundoff in *. lra. }
  assert (Z2 : i * G * 2 ^ 51 <= n * G + Zpos m * n * 2 ^ 51).
  { rewrite Zle_Qle, inject_Z_plus, !inject_Z_mult.
    fold mq nq iq Gq. change (inject_Z (2 ^ 51)) with (2251799813685248 # 1)%Q.
    unfold unit_roundoff in *. lra. }
  lia.
Qed.

(** C6.  For a positive [n] (below [2^1023], so that [float(n)] is finite)
    the call raises nothing and returns exactly [n] values; the value at
    index [i] is the binary64 result of [(i * (360 / n)) / 360].  That value
    is the ratio [i * (1/n)] up to rounding: for [n] below [2^53] the value
    at every index [i] is within [2^-51] of [i/n], and for [n] up to [2^51]
    every value is a number of the interval [[0,1)].
    [generate_color_brew 4] is the list 0.0, 0.25, 0.5, 0.75. *)
Theorem generate_color_brew_values (n : Z) :
  0 < n < 2 ^ 1023 ->
  (exists hues : list float,
     generate_color_brew n = Ok hues
     /\ Z.of_nat (length hues) = n
     /\ (forall i, 0 <= i < n -> hues !! Z.to_nat i = Some (hue_of n i))
     /\ (n < 2 ^ 53 -> forall (k : nat) (x : float),
           hues !! k = Some x -> near_ratio x (Z.of_nat k) n = true)
     /\ (n <= 2 ^ 51 -> forall x : float,
           x ∈ hues -> in_unit_interval x = true))
  /\ generate_color_brew 4
     = Ok [Z2F 0; float_lit 1 4; float_lit 1 2; float_lit 3 4].
Proof.
  intros Hn. split; [|by vm_compute].
  exists (hue_of n <$> seqZ 0 n). split; [by apply generate_color_brew_total|].
  split; [|split; [|split]].
  - rewrite length_fmap, length_seqZ. lia.
  - intros i Hi. rewrite list_lookup_fmap, lookup_seqZ_lt by lia.
    simpl. do 2 f_equal. lia.
  - intros Hsmall k x Hk. rewrite list_lookup_fmap in Hk.
    destruct (seqZ 0 n !! k) as [i|] eqn:Hi; [|done].
    apply lookup_seqZ in Hi as [-> Hi]. injection Hk as <-.
    rewrite Z.add_0_l. apply hue_of_near_ratio; lia.
  - intros Hsmall x Hx. apply list_elem_of_fmap in Hx as (i & -> & Hi).
    apply elem_of_seqZ in Hi. apply hue_of_unit_interval; lia.
Qed.

Lemma generate_color_brew_values_witness :
  exists hues : list float,
    generate_color_brew 3 = Ok hues
    /\ Z.of_nat (length hues) = 3
    /\ hues !! 2%nat = Some (hue_of 3 2)
    /\ near_ratio (hue_of 3 2) 2 3 = true
    /\ in_unit_interval (hue_of 3 2) = true.
Proof.
  destruct (generate_color_brew_values 3 ltac:(lia))
    as [(hues & Hrun & Hlen & Hnth & Hnear & Hunit) _].
  assert (H2 : hues !! 2%nat = Some (hue_of 3 2)) by (apply (Hnth 2); lia).
  exists hues. split; [done|]. split; [done|]. split; [done|]. split.
  - apply (Hnear ltac:(reflexivity) 2%nat _ H2).
  - apply (Hunit ltac:(discriminate)). by apply list_elem_of_lookup_2 in H2.
Defined.

(** The hues are computed in binary64, and the bounds on [n] are needed.
    [hue_of 5 3] is the float nearest to 0.6, while the float product
    [3 * (1/5)] is the float after it; at [n = 2^53 - 1] the last hue is
    rounded to 1.0. *)
Lemma hue_of_limits :
  hue_of 5 3 = S754_finite false 5404319552844595 (-53)
  /\ ratio_product 5 3 = S754_finite false 5404319552844596 (-53)
  /\ hue_of (2 ^ 53 - 1) (2 ^ 53 - 2) = Z2F 1
  /\ in_unit_interval (Z2F 1) = false.
Proof. by vm_compute. Qed.

(* ===================================================================== *)
(** * [add_node_ids]: references and shapes *)
(* ===================================================================== *)

Lemma shape_of_with_id k n : shape_of (with_id k n) = shape_of n.
Proof. by destruct n. Qed.

Lemma shape_of_set_id p k t : shape_of (set_id p k t) = shape_of t.
Proof.
  revert t. induction p as [|d p IH]; intros t; [apply shape_of_with_id|].
  destruct t as [|? ? ? ? ? ? l r]; [done|].
  destruct d; simpl; by rewrite IH.
Qed.

Lemma tree_size_shape t : tree_size t = shape_size (shape_of t).
Proof. induction t; simpl; lia. Qed.

Lemma subtree_shape p t : shape_of <$> subtree p t = shape_at p (shape_of t).
Proof.
  revert t. induction p as [|d p IH]; intros t; [done|].
  destruct t as [|? ? ? ? ? ? l r]; [done|].
  destruct d; simpl; apply IH.
Qed.

Lemma subtree_set_id_same p k t :
  subtree p (set_id p k t) = with_id k <$> subtree p t.
Proof.
  revert t. induction p as [|d p IH]; intros t; [done|].
  destruct t as [|? ? ? ? ? ? l r]; [done|].
  destruct d; simpl; apply IH.
Qed.

Lemma id_at_set_id_same p k t :
  is_Some (subtree p t) -> id_at p (set_id p k t) = Some k.
Proof.
  intros [n Hn]. unfold id_at. rewrite subtree_set_id_same, Hn.
  by destruct n.
Qed.

Lemma id_at_set_id_other p q k t : p <> q -> id_at q (set_id p k t) = id_at q t.
Proof.
  revert q t. induction p as [|d p IH]; intros q t Hne.
  - destruct q as [|e q]; [done|]. by destruct t.
  - destruct t as [|i ? ? ? ? ? l r]; [done|].
    destruct q as [|e q]; [by destruct d|].
    unfold id_at in *.
    destruct d, e; simpl; try done; apply IH; congruence.
Qed.

Lemma erase_ids_set_id p k t : erase_ids (set_id p k t) = erase_ids t.
Proof.
  revert t. induction p as [|d p IH]; intros t; [by destruct t|].
  destruct t as [|? ? ? ? ? ? l r]; [done|].
  destruct d; simpl; by rewrite IH.
Qed.

Lemma shape_at_app p q s : shape_at (p ++ q) s = shape_at p s ≫= shape_at q.
Proof.
  revert s. induction p as [|d p IH]; intros s; [done|].
  destruct s as [|l r]; [done|]. destruct d; simpl; apply IH.
Qed.

Lemma shape_paths_length s : length (shape_paths s) = shape_size s.
Proof.
  induction s as [|l IHl r IHr]; [done|].
  cbn [shape_paths shape_size length].
  rewrite length_app, !length_fmap. lia.
Qed.

Lemma shape_paths_NoDup s : NoDup (shape_paths s).
Proof.
  induction s as [|l IHl r IHr]; simpl.
  - apply NoDup_singleton.
  - apply NoDup_cons. split.
    + intros Hin. apply elem_of_app in Hin as [Hin|Hin];
        apply list_elem_of_fmap in Hin as (? & ? & _); done.
    + apply NoDup_app. split; [|split].
      * apply NoDup_fmap; [|done]. by intros ? ? [= ->].
      * intros p Hl Hr.
        apply list_elem_of_fmap in Hl as (? & -> & _).
        apply list_elem_of_fmap in Hr as (? & ? & _). done.
      * apply NoDup_fmap; [|done]. by intros ? ? [= ->].
Qed.

Lemma shape_paths_valid s p : p ∈ shape_paths s -> is_Some (shape_at p s).
Proof.
  revert p. induction s as [|l IHl r IHr]; intros p Hp; simpl in Hp.
  - apply list_elem_of_singleton in Hp as ->. by eexists.
  - apply elem_of_cons in Hp as [->|Hp]; [by eexists|].
    apply elem_of_app in Hp as [Hp|Hp];
      apply list_elem_of_fmap in Hp as (q & -> & Hq); simpl; auto.
Qed.

Lemma below_leaf s p : shape_at p s = Some SLeaf -> below s p = [p].
Proof. intros H. unfold below. rewrite H. simpl. by rewrite app_nil_r. Qed.

Lemma below_node s p l r :
  shape_at p s = Some (SNode l r) ->
  below s p = p :: below s (p ++ [GoLeft]) ++ below s (p ++ [GoRight]).
Proof.
  intros H. unfold below. rewrite !shape_at_app, H. simpl.
  rewrite app_nil_r. f_equal. rewrite fmap_app, <- !list_fmap_compose.
  f_equal; apply list_fmap_ext; intros _ q _; simpl; by rewrite <- app_assoc.
Qed.

Lemma children_leaf s p : shape_at p s = Some SLeaf -> children s p = [].
Proof. intros H. unfold children. by rewrite H. Qed.

Lemma children_node s p l r :
  shape_at p s = Some (SNode l r) ->
  children s p = [p ++ [GoLeft]; p ++ [GoRight]]
  /\ shape_at (p ++ [GoLeft]) s = Some l
  /\ shape_at (p ++ [GoRight]) s = Some r.
Proof.
  intros H. unfold children. rewrite !shape_at_app, H. done.
Qed.

(** The queue is served in an order that lists, once each, the references
    below the references it holds; this takes as many iterations as there
    are such references. *)
Lemma bfs_order_Permutation s (fuel : nat) (queue : list path) :
  Forall (fun p => is_Some (shape_at p s)) queue ->
  (length (queue ≫= below s) < fuel)%nat ->
  bfs_order fuel queue s ≡ₚ queue ≫= below s.
Proof.
  revert queue. induction fuel as [|fuel IH]; intros queue Hvalid Hfuel; [lia|].
  destruct queue as [|p queue]; [done|].
  apply Forall_cons in Hvalid as [[sh Hp] Hvalid].
  cbn [bfs_order]. rewrite bind_cons in *.
  destruct sh as [|l r].
  - rewrite (children_leaf _ _ Hp), app_nil_r.
    rewrite (below_leaf _ _ Hp) in *. simpl in *.
    apply Permutation_skip, IH; [done|lia].
  - destruct (children_node _ _ _ _ Hp) as (-> & Hl & Hr).
    rewrite (below_node _ _ _ _ Hp) in *. simpl in Hfuel |- *.
    apply Permutation_skip. rewrite IH.
    + rewrite bind_app. simpl. rewrite app_nil_r. by rewrite (comm app).
    + apply Forall_app. split; [done|]. repeat constructor; by eexists.
    + rewrite bind_app, length_app in *. simpl. rewrite app_nil_r.
      rewrite length_app in *. lia.
Qed.

Lemma bfs_order_root s :
  bfs_order (S (shape_size s)) [[]] s ≡ₚ shape_paths s.
Proof.
  rewrite bfs_order_Permutation.
  - simpl. unfold below. simpl. rewrite app_nil_r. by rewrite list_fmap_id.
  - repeat constructor. by eexists.
  - simpl. unfold below. simpl.
    rewrite app_nil_r, length_fmap, shape_paths_length. lia.
Qed.

(* ===================================================================== *)
(** * [add_node_ids]: the loop *)
(* ===================================================================== *)

Lemma shape_of_assign order k t : shape_of (assign order k t) = shape_of t.
Proof.
  revert k t. induction order as [|p order IH]; intros k t; [done|].
  simpl. by rewrite IH, shape_of_set_id.
Qed.

Lemma erase_ids_assign order k t : erase_ids (assign order k t) = erase_ids t.
Proof.
  revert k t. induction order as [|p order IH]; intros k t; [done|].
  simpl. by rewrite IH, erase_ids_set_id.
Qed.

Lemma subtree_is_Some p t :
  is_Some (shape_at p (shape_of t)) -> is_Some (subtree p t).
Proof.
  rewrite <- subtree_shape. intros [sh H].
  destruct (subtree p t); [by eexists|done].
Qed.

(** The loop numbers the nodes in the order [bfs_order] gives, starting
    after [counter]. *)
Lemma add_ids_loop_assign (fuel : nat) :
  forall (queue : list path) (counter : Z) (root : node),
    Forall (fun p => is_Some (shape_at p (shape_of root))) queue ->
    (length (queue ≫= below (shape_of root)) < fuel)%nat ->
    add_ids_loop fuel queue counter root
    = Some (assign (bfs_order fuel queue (shape_of root)) (counter + 1) root).
Proof.
  induction fuel as [|fuel IH]; intros queue counter root Hvalid Hfuel; [lia|].
  destruct queue as [|p queue]; [done|].
  apply Forall_cons in Hvalid as [[sh Hp] Hvalid].
  cbn [add_ids_loop bfs_order assign]. rewrite bind_cons in Hfuel.
  rewrite subtree_set_id_same.
  pose proof (subtree_shape p root) as Hsub. rewrite Hp in Hsub.
  destruct (subtree p root) as [n|]; [|done].
  injection Hsub as Hsub.
  set (root1 := set_id p (counter + 1) root).
  assert (Hshape : shape_of root1 = shape_of root) by apply shape_of_set_id.
  destruct n as [i pr im|i pr im fi sp g l r]; simpl in Hsub; subst sh.
  - simpl. rewrite (children_leaf _ _ Hp), app_nil_r.
    rewrite (below_leaf _ _ Hp) in Hfuel. simpl in Hfuel.
    rewrite IH; rewrite ?Hshape; [done|done|lia].
  - simpl. destruct (children_node _ _ _ _ Hp) as (-> & Hl & Hr).
    rewrite (below_node _ _ _ _ Hp) in Hfuel. simpl in Hfuel.
    rewrite <- app_assoc. simpl.
    rewrite IH; rewrite ?Hshape; [done| |].
    + apply Forall_app. split; [done|]. repeat constructor; by eexists.
    + rewrite bind_app, length_app in *. simpl. rewrite app_nil_r.
      rewrite length_app in *. lia.
Qed.

Lemma add_node_ids_assign (t : node) :
  add_node_ids t
  = Some (assign (bfs_order (S (tree_size t)) [[]] (shape_of t)) 0 t).
Proof.
  unfold add_node_ids. rewrite add_ids_loop_assign; [done| |].
  - repeat constructor. by eexists.
  - simpl. unfold below. simpl.
    rewrite app_nil_r, length_fmap, shape_paths_length, tree_size_shape. lia.
Qed.

Lemma id_at_assign_notin order p k t :
  p ∉ order -> id_at p (assign order k t) = id_at p t.
Proof.
  revert k t. induction order as [|q order IH]; intros k t Hp; [done|].
  apply not_elem_of_cons in Hp as [Hne Hp].
  simpl. rewrite IH by done. by apply id_at_set_id_other.
Qed.

Lemma id_at_assign_in order p (i : nat) k t :
  NoDup order -> order !! i = Some p ->
  is_Some (shape_at p (shape_of t)) ->
  id_at p (assign order k t) = Some (k + Z.of_nat i).
Proof.
  revert i k t. induction order as [|q order IH]; intros i k t Hnd Hi Hv;
    [done|].
  apply NoDup_cons in Hnd as [Hq Hnd].
  destruct i as [|i]; simpl in Hi.
  - injection Hi as ->. simpl.
    rewrite id_at_assign_notin by done.
    rewrite id_at_set_id_same by (by apply subtree_is_Some).
    f_equal. lia.
  - simpl. rewrite (IH i) by (rewrite ?shape_of_set_id; done).
    f_equal. lia.
Qed.

Lemma tree_ids_paths t :
  tree_ids t = (fun p => id_at p t) <$> shape_paths (shape_of t).
Proof.
  induction t as [|i pr im fi sp g l IHl r IHr]; [done|].
  cbn [tree_ids shape_of shape_paths]. rewrite fmap_cons, fmap_app.
  rewrite <- !list_fmap_compose, IHl, IHr. done.
Qed.

Lemma tree_ids_length t : length (tree_ids t) = tree_size t.
Proof.
  by rewrite tree_ids_paths, length_fmap, shape_paths_length, tree_size_shape.
Qed.

(** The ids a numbering leaves at the references it lists. *)
Lemma assign_ids order k t :
  NoDup order ->
  Forall (fun p => is_Some (shape_at p (shape_of t))) order ->
  (fun p => id_at p (assign order k t)) <$> order
  = Some <$> seqZ k (Z.of_nat (length order)).
Proof.
  intros Hnd Hvalid. apply list_eq. intros i.
  rewrite !list_lookup_fmap.
  destruct (order !! i) as [p|] eqn:Hi; simpl.
  - rewrite lookup_seqZ_lt by (apply lookup_lt_Some in Hi; lia).
    simpl. f_equal. apply id_at_assign_in; [done..|].
    rewrite Forall_forall in Hvalid.
    by apply Hvalid, list_elem_of_lookup_2 with i.
  - rewrite lookup_seqZ_ge; [done|]. apply lookup_ge_None in Hi. lia.
Qed.

Lemma bfs_order_root_facts s :
  let order := bfs_order (S (shape_size s)) [[]] s in
  NoDup order
  /\ Forall (fun p => is_Some (shape_at p s)) order
  /\ length order = shape_size s.
Proof.
  intros order. pose proof (bfs_order_root s) as Hperm. fold order in Hperm.
  split; [|split].
  - rewrite Hperm. apply shape_paths_NoDup.
  - rewrite Hperm. apply Forall_forall. intros p Hp.
    by apply shape_paths_valid.
  - by rewrite Hperm, shape_paths_length.
Qed.

(** Two trees are the same when they agree without their ids and on the ids
    in prefix order. *)
Lemma tree_ext t1 t2 :
  erase_ids t1 = erase_ids t2 -> tree_ids t1 = tree_ids t2 -> t1 = t2.
Proof.
  revert t2. induction t1 as [i1 p1 m1|i1 p1 m1 f1 s1 g1 l1 IHl r1 IHr];
    intros [i2 p2 m2|i2 p2 m2 f2 s2 g2 l2 r2]; simpl; try done.
  - by intros [= -> ->] [= ->].
  - intros [= -> -> -> -> -> Hl Hr] [= -> Hids].
    assert (Hlen : length (tree_ids l1) = length (tree_ids l2)).
    { rewrite !tree_ids_length, !tree_size_shape.
      assert (Hs : forall t, shape_of (erase_ids t) = shape_of t).
      { induction t; simpl; congruence. }
      by rewrite <- (Hs l1), <- (Hs l2), Hl. }
    apply app_inj_1 in Hids as [Hil Hir]; [|done].
    by rewrite (IHl l2), (IHr r2).
Qed.

(** The ids after [add_node_ids] depend on the shape of the tree alone. *)
Lemma add_node_ids_by_shape t1 t2 t1' t2' :
  shape_of t1 = shape_of t2 ->
  add_node_ids t1 = Some t1' -> add_node_ids t2 = Some t2' ->
  tree_ids t1' = tree_ids t2'.
Proof.
  intros Hshape H1 H2. rewrite add_node_ids_assign in H1, H2.
  apply (inj Some) in H1, H2. subst t1' t2'.
  rewrite !tree_ids_paths, !shape_of_assign, !tree_size_shape.
  rewrite <- !Hshape.
  destruct (bfs_order_root_facts (shape_of t1)) as (Hnd & Hvalid & _).
  apply list_fmap_ext. intros _ p Hp%list_elem_of_lookup_2.
  rewrite <- (bfs_order_root (shape_of t1)) in Hp.
  apply list_elem_of_lookup in Hp as [i Hi].
  assert (Hv : is_Some (shape_at p (shape_of t1))).
  { rewrite Forall_forall in Hvalid.
    by apply Hvalid, list_elem_of_lookup_2 with i. }
  rewrite !(id_at_assign_in _ p i); rewrite <- ?Hshape; done.
Qed.

Lemma add_node_ids_facts t :
  exists t',
    add_node_ids t = Some t'
    /\ erase_ids t' = erase_ids t
    /\ shape_of t' = shape_of t
    /\ tree_ids t' ≡ₚ Some <$> seqZ 0 (Z.of_nat (tree_size t)).
Proof.
  eexists. split; [apply add_node_ids_assign|].
  split; [apply erase_ids_assign|]. split; [apply shape_of_assign|].
  rewrite tree_ids_paths, shape_of_assign, tree_size_shape.
  destruct (bfs_order_root_facts (shape_of t)) as (Hnd & Hvalid & Hlen).
  rewrite <- (bfs_order_root (shape_of t)), assign_ids by done.
  by rewrite Hlen.
Qed.

(* ===================================================================== *)
(** * [add_node_ids]: the order is breadth-first *)
(* ===================================================================== *)

Lemma by_depth_cons p l :
  Forall (fun q => length p <= length q)%nat l -> by_depth l -> by_depth (p :: l).
Proof.
  intros Hp Hl i j x y Hij Hi Hj.
  destruct j as [|j]; [lia|]. simpl in Hj.
  destruct i as [|i]; simpl in Hi.
  - injection Hi as <-. rewrite Forall_forall in Hp.
    by apply Hp, list_elem_of_lookup_2 with j.
  - apply (Hl i j); [lia|done..].
Qed.

Lemma children_depth s p :
  Forall (fun q => length q = S (length p)) (children s p).
Proof.
  unfold children. destruct (shape_at p s) as [[|l r]|]; [done| |done].
  repeat constructor; rewrite length_app; simpl; lia.
Qed.

(** A queue that holds references of depth [d] followed by references of
    depth [d + 1] is served by non-decreasing depth. *)
Lemma bfs_order_by_depth s (fuel : nat) :
  forall (now next : list path) (d : nat),
    Forall (fun p => length p = d) now ->
    Forall (fun p => length p = S d) next ->
    by_depth (bfs_order fuel (now ++ next) s)
    /\ Forall (fun p => d <= length p)%nat (bfs_order fuel (now ++ next) s)
    /\ (now = [] ->
        Forall (fun p => S d <= length p)%nat (bfs_order fuel (now ++ next) s)).
Proof.
  induction fuel as [|fuel IH]; intros now next d Hnow Hnext.
  { split; [|by split]. intros i j p q _ Hi. by destruct i. }
  destruct now as [|p now].
  - destruct next as [|p next].
    { split; [|by split]. intros i j p q _ Hi. by destruct i. }
    apply Forall_cons in Hnext as [Hp Hnext].
    cbn [app bfs_order].
    destruct (IH next (children s p) (S d)) as (Hsorted & Hlow & _);
      [done|rewrite <- Hp; apply children_depth|].
    split; [|split].
    + apply by_depth_cons; [|done].
      eapply Forall_impl; [exact Hlow|]. simpl. lia.
    + constructor; [lia|]. eapply Forall_impl; [exact Hlow|]. simpl. lia.
    + intros _. constructor; [lia|]. eapply Forall_impl; [exact Hlow|].
      simpl. lia.
  - apply Forall_cons in Hnow as [Hp Hnow].
    cbn [app bfs_order]. rewrite <- app_assoc.
    destruct (IH now (next ++ children s p) d) as (Hsorted & Hlow & _);
      [done| |].
    { apply Forall_app. split; [done|]. rewrite <- Hp. apply children_depth. }
    split; [|split; [|done]].
    + apply by_depth_cons; [|done].
      eapply Forall_impl; [exact Hlow|]. simpl. lia.
    + constructor; [lia|done].
Qed.

Lemma bfs_order_root_by_depth s fuel : by_depth (bfs_order fuel [[]] s).
Proof.
  destruct (bfs_order_by_depth s fuel [[]] [] 0%nat) as (H & _ & _);
    [by repeat constructor|done|].
  by rewrite app_nil_r in H.
Qed.

Lemma adjacent_cons {A} (a : A) l x y : adjacent l x y -> adjacent (a :: l) x y.
Proof. intros [i [Hi Hj]]. by exists (S i). Qed.

(** Two references that follow each other in the queue are served one
    after the other. *)
Lemma bfs_order_adjacent_queue s (front : list path) :
  forall (fuel : nat) (x y : path) (back : list path),
    (length front + 2 <= fuel)%nat ->
    adjacent (bfs_order fuel (front ++ x :: y :: back) s) x y.
Proof.
  induction front as [|a front IH]; intros fuel x y back Hfuel.
  - destruct fuel as [|[|fuel]]; [simpl in Hfuel; lia..|].
    by exists 0%nat.
  - destruct fuel as [|fuel]; [simpl in Hfuel; lia|].
    cbn [app bfs_order]. apply adjacent_cons.
    rewrite <- app_assoc. simpl. apply IH. simpl in Hfuel. lia.
Qed.

Lemma below_self s p : is_Some (shape_at p s) -> p ∈ below s p.
Proof.
  intros [sh H]. unfold below. rewrite H.
  apply list_elem_of_fmap. exists []. split; [by rewrite app_nil_r|].
  destruct sh; apply list_elem_of_here.
Qed.

Lemma length_bind_below_ge s (queue : list path) :
  Forall (fun q => is_Some (shape_at q s)) queue ->
  (length queue <= length (queue ≫= below s))%nat.
Proof.
  induction queue as [|q queue IH]; intros Hvalid; [done|].
  apply Forall_cons in Hvalid as [Hq Hvalid].
  rewrite bind_cons, length_app. cbn [length].
  apply below_self in Hq. specialize (IH Hvalid).
  destruct (below s q); [by inversion Hq|simpl; lia].
Qed.

(** The two children of a served internal node are served one after the
    other, the left one first. *)
Lemma bfs_order_siblings s (fuel : nat) :
  forall (queue : list path) (p : path) (l r : shape),
    Forall (fun q => is_Some (shape_at q s)) queue ->
    (length (queue ≫= below s) < fuel)%nat ->
    p ∈ queue ≫= below s ->
    shape_at p s = Some (SNode l r) ->
    adjacent (bfs_order fuel queue s) (p ++ [GoLeft]) (p ++ [GoRight]).
Proof.
  induction fuel as [|fuel IH]; intros queue p l r Hvalid Hfuel Hp Hsh; [lia|].
  destruct queue as [|q queue]; [by inversion Hp|].
  apply Forall_cons in Hvalid as [[sh Hq] Hvalid].
  cbn [bfs_order]. apply adjacent_cons. rewrite bind_cons in *.
  destruct (decide (p = q)) as [->|Hne].
  - destruct (children_node _ _ _ _ Hsh) as (-> & Hl & Hr).
    rewrite (below_node _ _ _ _ Hsh) in Hfuel.
    apply bfs_order_adjacent_queue.
    pose proof (length_bind_below_ge s queue Hvalid).
    pose proof (below_self s (q ++ [GoLeft]) ltac:(by eexists)) as Hbl.
    pose proof (below_self s (q ++ [GoRight]) ltac:(by eexists)) as Hbr.
    simpl in Hfuel. rewrite !length_app in Hfuel.
    destruct (below s (q ++ [GoLeft])); [by inversion Hbl|].
    destruct (below s (q ++ [GoRight])); [by inversion Hbr|].
    simpl in Hfuel. lia.
  - destruct sh as [|l' r'].
    + rewrite (children_leaf _ _ Hq), app_nil_r.
      rewrite (below_leaf _ _ Hq) in *. simpl in *.
      apply elem_of_cons in Hp as [->|Hp]; [done|].
      apply (IH _ _ l r); [done|lia|done|done].
    + destruct (children_node _ _ _ _ Hq) as (-> & Hl & Hr).
      rewrite (below_node _ _ _ _ Hq) in *. simpl in Hfuel, Hp.
      apply elem_of_cons in Hp as [->|Hp]; [done|].
      apply (IH _ _ l r); [| | |done].
      * apply Forall_app. split; [done|]. repeat constructor; by eexists.
      * rewrite bind_app, length_app in *. simpl. rewrite app_nil_r.
        rewrite length_app in *. lia.
      * rewrite bind_app. simpl. rewrite app_nil_r.
        apply elem_of_app in Hp as [Hp|Hp]; apply elem_of_app; auto.
Qed.

(* ===================================================================== *)
(** * [add_node_ids]: the ids *)
(* ===================================================================== *)

Lemma shape_paths_complete s p : is_Some (shape_at p s) -> p ∈ shape_paths s.
Proof.
  revert s. induction p as [|d p IH]; intros s Hp.
  - destruct s; apply list_elem_of_here.
  - destruct s as [|l r]; [by destruct Hp|].
    simpl. apply list_elem_of_further, elem_of_app.
    destruct d; [left|right]; apply list_elem_of_fmap; eexists; split;
      try done; by apply IH.
Qed.

Lemma id_at_valid p t i :
  id_at p t = Some i -> is_Some (shape_at p (shape_of t)).
Proof.
  unfold id_at. rewrite <- subtree_shape.
  destruct (subtree p t); [by eexists|done].
Qed.

(** The id of a node is its rank in the order of the queue. *)
Lemma add_node_ids_rank t t' p i :
  add_node_ids t = Some t' -> id_at p t' = Some i ->
  0 <= i
  /\ bfs_order (S (tree_size t)) [[]] (shape_of t) !! Z.to_nat i = Some p.
Proof.
  intros Hrun Hid. rewrite add_node_ids_assign in Hrun.
  apply (inj Some) in Hrun. subst t'.
  pose proof (id_at_valid _ _ _ Hid) as Hv. rewrite shape_of_assign in Hv.
  rewrite tree_size_shape in *.
  destruct (bfs_order_root_facts (shape_of t)) as (Hnd & _ & _).
  pose proof (shape_paths_complete _ _ Hv) as Hp.
  rewrite <- (bfs_order_root (shape_of t)) in Hp.
  apply list_elem_of_lookup in Hp as [k Hk].
  rewrite (id_at_assign_in _ p k) in Hid by done.
  injection Hid as <-. split; [lia|].
  by replace (Z.to_nat (0 + Z.of_nat k)) with k by lia.
Qed.

Lemma add_node_ids_of_rank t t' p (k : nat) :
  add_node_ids t = Some t' ->
  bfs_order (S (tree_size t)) [[]] (shape_of t) !! k = Some p ->
  id_at p t' = Some (Z.of_nat k).
Proof.
  intros Hrun Hk. rewrite add_node_ids_assign in Hrun.
  apply (inj Some) in Hrun. subst t'. rewrite tree_size_shape in *.
  destruct (bfs_order_root_facts (shape_of t)) as (Hnd & Hvalid & _).
  rewrite (id_at_assign_in _ p k); [done..|].
  rewrite Forall_forall in Hvalid. by apply Hvalid, list_elem_of_lookup_2 with k.
Qed.

Lemma shape_size_pos s : exists k, shape_size s = S k.
Proof. destruct s; by eexists. Qed.

(** The root gets 0, its left child 1, its right child 2. *)
Lemma add_node_ids_top i p m f s g l r t' :
  add_node_ids (Internal i p m f s g l r) = Some t' ->
  exists l' r',
    t' = Internal (Some 0) p m f s g l' r'
    /\ node_id l' = Some 1 /\ node_id r' = Some 2
    /\ erase_ids l' = erase_ids l /\ erase_ids r' = erase_ids r.
Proof.
  intros Hrun.
  assert (Hfuel : exists k, tree_size (Internal i p m f s g l r) = S (S (S k))).
  { simpl. rewrite !tree_size_shape.
    destruct (shape_size_pos (shape_of l)) as [a ->].
    destruct (shape_size_pos (shape_of r)) as [b ->].
    exists (a + b)%nat. lia. }
  destruct Hfuel as [k Hfuel].
  pose proof (add_node_ids_of_rank _ _ [] 0 Hrun) as H0.
  pose proof (add_node_ids_of_rank _ _ [GoLeft] 1 Hrun) as H1.
  pose proof (add_node_ids_of_rank _ _ [GoRight] 2 Hrun) as H2.
  rewrite Hfuel in H0, H1, H2.
  specialize (H0 eq_refl). specialize (H1 eq_refl). specialize (H2 eq_refl).
  destruct (add_node_ids_facts (Internal i p m f s g l r))
    as (t'' & Hrun' & Herase & _).
  rewrite Hrun in Hrun'. injection Hrun' as <-.
  destruct t' as [|i' p' m' f' s' g' l' r']; [done|].
  simpl in Herase. injection Herase as -> -> -> -> -> Hl Hr.
  unfold id_at in H0, H1, H2. simpl in H0, H1, H2. subst i'.
  by exists l', r'.
Qed.

(** C9.  Running [add_node_ids] again on the tree it returned returns the
    same tree: no id changes.  After the two children of the root have
    changed places, a new run gives 1 to the node that had 2 and 2 to the
    node that had 1. *)
Theorem add_node_ids_idempotent (t t' : node) :
  add_node_ids t = Some t' ->
  add_node_ids t' = Some t'
  /\ (forall i p m f s g l r,
        t' = Internal i p m f s g l r ->
        node_id l = Some 1 /\ node_id r = Some 2
        /\ exists l' r',
             add_node_ids (swap_children t') = Some (Internal i p m f s g r' l')
             /\ erase_ids r' = erase_ids r /\ erase_ids l' = erase_ids l
             /\ node_id r' = Some 1 /\ node_id l' = Some 2).
Proof.
  intros Hrun. split.
  - destruct (add_node_ids_facts t) as (t1 & Hrun1 & Herase1 & Hshape1 & _).
    rewrite Hrun in Hrun1. injection Hrun1 as <-.
    destruct (add_node_ids_facts t') as (t2 & Hrun2 & Herase2 & _).
    rewrite Hrun2. f_equal. apply tree_ext; [done|].
    by apply (add_node_ids_by_shape t' t).
  - intros i p m f s g l r ->.
    destruct t as [|i0 p0 m0 f0 s0 g0 l0 r0].
    { vm_compute in Hrun. done. }
    destruct (add_node_ids_top _ _ _ _ _ _ _ _ _ Hrun)
      as (l1 & r1 & [= -> -> -> -> -> -> -> ->] & Hl & Hr & _).
    split; [done|]. split; [done|].
    destruct (add_node_ids_facts (swap_children
                (Internal (Some 0) p0 m0 f0 s0 g0 l1 r1)))
      as (t2 & Hrun2 & _).
    simpl in Hrun2.
    destruct (add_node_ids_top _ _ _ _ _ _ _ _ _ Hrun2)
      as (r' & l' & -> & Hr' & Hl' & Her & Hel).
    by exists l', r'.
Qed.

Lemma add_node_ids_idempotent_witness :
  let t' := Internal (Some 0) 0 (Z2F 0) 0 (Continuous (Z2F 1)) (Z2F 0)
              (Internal (Some 1) 1 (Z2F 0) 1 (Continuous (Z2F 1)) (Z2F 0)
                 (Leaf (Some 3) 0 (Z2F 0)) (Leaf (Some 4) 1 (Z2F 0)))
              (Leaf (Some 2) 1 (Z2F 0)) in
  add_node_ids t' = Some t'.
Proof.
  intros t'.
  apply (add_node_ids_idempotent (erase_ids t') t'). reflexivity.
Defined.

Lemma list_to_set_fmap_eq {A B} `{Countable B} (f : A -> B) (l1 l2 : list A) :
  (forall x, x ∈ l1 <-> x ∈ l2) ->
  list_to_set (f <$> l1) = (list_to_set (f <$> l2) : gset B).
Proof.
  intros Hl. apply set_eq. intros y.
  rewrite !elem_of_list_to_set, !list_elem_of_fmap.
  split; intros (x & -> & Hx); exists x; split; try done; by apply Hl.
Qed.

(** C1, as the code has it.  A tree with three internal nodes has four
    leaves and seven nodes.  Once [add_node_ids] has run on it, a rendering
    that raises nothing returns six edges, a True edge followed by a False
    edge for each internal node, and appends twelve node statements, four
    for each internal node; the ids these statements declare are the seven
    ids 0 to 6. *)
Theorem render_seven_node_tree
    (fN : option (list string)) (cN : option (gmap (Z + string) (list string)))
    (clN : option (list string)) (numC : Z) (filled rl : bool)
    (brew : list float) (t0 t : node) (relations nodeList : list string) :
  internal_count t0 = 3%nat ->
  add_node_ids t0 = Some t ->
  relations_to_str fN cN clN numC filled rl brew t []
    = (Ok (Some relations), nodeList) ->
  leaf_count t0 = 4%nat /\ tree_size t0 = 7%nat
  /\ length relations = 6%nat
  /\ relations = render_internal t ≫= node_edges
  /\ length (render_internal t) = 3%nat
  /\ length nodeList = 12%nat
  /\ list_to_set (stmt_id <$> nodeList)
     = (list_to_set (str_Z <$> seqZ 0 7) : gset string)
  /\ size (list_to_set (stmt_id <$> nodeList) : gset string) = 7%nat.
Proof.
  intros Hcount Hids Hrun.
  destruct (node_counts t0) as [Hleaves Hsize].
  destruct (add_node_ids_facts t0) as (t1 & Hids1 & _ & Hshape & Hperm).
  rewrite Hids in Hids1. injection Hids1 as <-.
  assert (Hcount' : internal_count t = 3%nat).
  { rewrite <- Hcount. clear -Hshape. revert t0 Hshape.
    induction t as [|? ? ? ? ? ? l IHl r IHr]; intros [|? ? ? ? ? ? l0 r0];
      try done.
    intros [= Hl Hr]. simpl. by rewrite (IHl l0), (IHr r0). }
  rewrite relations_to_str_render in Hrun.
  destruct (render_tree _ t [] []) as [[rels|e] nl] eqn:Hrender; [|done].
  injection Hrun as <- <-.
  apply render_tree_ok in Hrender as (-> & stmts & -> & Hstmts & Hsome).
  simpl.
  assert (Hlen : length stmts = 12%nat).
  { rewrite <- (length_fmap stmt_id), Hstmts, length_fmap, render_ids_length.
    lia. }
  assert (Hset : list_to_set (stmt_id <$> stmts)
                 = (list_to_set (str_Z <$> seqZ 0 7) : gset string)).
  { rewrite Hstmts.
    destruct t as [|id p imp fi sp g l r]; [done|].
    replace (str_Z <$> seqZ 0 7) with (id_text <$> (Some <$> seqZ 0 7))
      by (by rewrite <- list_fmap_compose).
    apply list_to_set_fmap_eq. intros x.
    rewrite <- (elem_of_list_to_set (C:=gset (option Z)) x (render_ids _)).
    rewrite render_ids_set_internal, elem_of_list_to_set, Hperm.
    by replace (Z.of_nat (tree_size t0)) with 7 by lia. }
  split; [lia|]. split; [lia|]. split; [rewrite render_edges_length; lia|].
  split; [done|]. split; [rewrite render_internal_length; lia|].
  split; [done|]. split; [done|].
  rewrite Hset. by vm_compute.
Qed.

Lemma render_seven_node_tree_witness :
  let leaf := Leaf None 1 (Z2F 0) in
  let inner := Internal None 0 (float_lit 1 2) 0 (Continuous (Z2F 1))
                 (float_lit 1 4) leaf leaf in
  let t0 := Internal None 0 (float_lit 1 2) 1 (Continuous (Z2F 2))
              (float_lit 1 4) inner inner in
  exists t relations nodeList,
    add_node_ids t0 = Some t
    /\ relations_to_str None None None 2 true true [Z2F 0; float_lit 1 2] t []
       = (Ok (Some relations), nodeList)
    /\ length relations = 6%nat /\ length nodeList = 12%nat
    /\ size (list_to_set (stmt_id <$> nodeList) : gset string) = 7%nat.
Proof.
  intros leaf inner t0.
  destruct (add_node_ids t0) as [t|] eqn:Hids; [|by vm_compute in Hids].
  destruct (relations_to_str None None None 2 true true
              [Z2F 0; float_lit 1 2] t [])
    as [[[relations|]|e] nodeList] eqn:Hrun.
  - exists t, relations, nodeList.
    destruct (render_seven_node_tree None None None 2 true true
                [Z2F 0; float_lit 1 2] t0 t relations nodeList eq_refl Hids Hrun)
      as (_ & _ & Hrel & _ & _ & Hnl & _ & Hsize).
    by repeat split.
  - vm_compute in Hids. injection Hids as <-. by vm_compute in Hrun.
  - vm_compute in Hids. injection Hids as <-. by vm_compute in Hrun.
Defined.

(** C1, as the specification words it, fails: on a tree of seven nodes the
    rendering appends twelve node statements, not seven. *)
Lemma render_seven_node_tree_statements :
  let leaf := Leaf None 1 (Z2F 0) in
  let inner := Internal None 0 (float_lit 1 2) 0 (Continuous (Z2F 1))
                 (float_lit 1 4) leaf leaf in
  let t0 := Internal None 0 (float_lit 1 2) 1 (Continuous (Z2F 2))
              (float_lit 1 4) inner inner in
  exists t relations nodeList,
    tree_size t0 = 7%nat
    /\ add_node_ids t0 = Some t
    /\ relations_to_str None None None 2 true true [Z2F 0; float_lit 1 2] t []
       = (Ok (Some relations), nodeList)
    /\ length relations = 6%nat
    /\ stmt_id <$> nodeList
       = ["0"; "1"; "0"; "2"; "2"; "5"; "2"; "6"; "1"; "3"; "1"; "4"]
    /\ length nodeList = 12%nat
    /\ length nodeList <> 7%nat.
Proof.
  intros leaf inner t0.
  destruct (add_node_ids t0) as [t|] eqn:Hids; vm_compute in Hids; [|done].
  injection Hids as <-.
  eexists _, _, _. split; [reflexivity|]. split; [reflexivity|].
  split; [by vm_compute|]. by vm_compute.
Qed.

(* ===================================================================== *)
(** * [node_to_str]: when it goes through and what it raises *)
(* ===================================================================== *)

Lemma list_getitem_range {A} (l : list A) (i : Z) :
  if index_in_range l i
  then exists x, list_getitem l i = Ok x
                 /\ l !! Z.to_nat (if i <? 0 then Z.of_nat (length l) + i else i)
                    = Some x
  else list_getitem l i = Raise IndexError.
Proof.
  unfold index_in_range, list_getitem. cbv zeta.
  destruct (Z.leb_spec (- Z.of_nat (length l)) i);
    destruct (Z.ltb_spec i (Z.of_nat (length l)));
    destruct (Z.ltb_spec i 0); simpl;
    repeat match goal with
    | |- context [?a <=? ?b] => destruct (Z.leb_spec a b); try lia
    | |- context [?a <? ?b] => destruct (Z.ltb_spec a b); try lia
    end; simpl; try done.
  - destruct (lookup_lt_is_Some_2 l (Z.to_nat (Z.of_nat (length l) + i)))
      as [x Hx]; [lia|]. rewrite Hx. eauto.
  - destruct (lookup_lt_is_Some_2 l (Z.to_nat i)) as [x Hx]; [lia|].
    rewrite Hx. eauto.
Qed.

Lemma class_name_str_of_cases clN p :
  if has_name clN p
  then exists s, class_name_str_of clN p = Ok s
  else class_name_str_of clN p = Raise KeyError.
Proof.
  destruct clN as [names|]; simpl; [|eauto].
  rewrite dict_enumerate_getitem.
  destruct (Z.leb_spec 0 p); simpl; [|done].
  destruct (Z.ltb_spec p (Z.of_nat (length names))).
  - destruct (lookup_lt_is_Some_2 names (Z.to_nat p)) as [x ->]; [lia|]. eauto.
  - rewrite lookup_ge_None_2; [done|lia].
Qed.

Lemma feature_name_of_cases fN i :
  if has_name fN i
  then exists k s, feature_name_of fN i = Ok (k, s)
  else feature_name_of fN i = Raise KeyError.
Proof.
  destruct fN as [names|]; simpl; [|eauto].
  rewrite dict_enumerate_getitem.
  destruct (Z.leb_spec 0 i); simpl; [|done].
  destruct (Z.ltb_spec i (Z.of_nat (length names))).
  - destruct (lookup_lt_is_Some_2 names (Z.to_nat i)) as [x ->]; [lia|].
    simpl. eauto.
  - rewrite lookup_ge_None_2; [done|lia].
Qed.

Lemma categories_of_Ok cN key lc : exists s, categories_of cN key lc = Ok s.
Proof.
  unfold categories_of. destruct cN as [categoryNames|].
  - rewrite categories_named_eq, categories_raw_eq.
    destruct (categoryNames !! key) as [labels|]; [|simpl; eauto].
    destruct (forallb (has_label labels) lc); simpl; eauto.
  - rewrite categories_raw_eq. eauto.
Qed.

(** The outcome of [node_attributes]. *)
Lemma node_attributes_cases n fN cN cls rl :
  match n with
  | Internal _ _ _ fi _ _ _ _ =>
      if has_name fN fi
      then match node_id n with
           | Some _ => exists attrs, node_attributes n fN cN cls rl = Ok attrs
           | None => node_attributes n fN cN cls rl = Raise KeyError
           end
      else node_attributes n fN cN cls rl = Raise KeyError
  | Leaf _ _ _ =>
      match node_id n with
      | Some _ => exists attrs, node_attributes n fN cN cls rl = Ok attrs
      | None => node_attributes n fN cN cls rl = Raise KeyError
      end
  end.
Proof.
  destruct n as [id p imp|id p imp fi sp g l r]; cbn [node_attributes node_id].
  - unfold node_getid. cbn [node_id]. destruct id; simpl; eauto.
  - pose proof (feature_name_of_cases fN fi) as Hf.
    destruct (has_name fN fi).
    + destruct Hf as (k & s & ->). cbn [mbind result_bind].
      unfold node_getid. cbn [node_id].
      destruct sp as [th|lc].
      * destruct id; simpl; eauto.
      * destruct (categories_of_Ok cN k lc) as [c ->]. cbn [mbind result_bind].
        destruct id; simpl; eauto.
    + by rewrite Hf.
Qed.

(** The outcome of [node_statement], by cases. *)
Lemma node_statement_cases n fN cN clN filled rl brew :
  if names_found fN clN n then
    match node_id n with
    | None => node_statement n fN cN clN filled rl brew = Raise KeyError
    | Some i =>
        if filled && negb (index_in_range brew (node_prediction n))
        then node_statement n fN cN clN filled rl brew = Raise IndexError
        else exists stmt, node_statement n fN cN clN filled rl brew = Ok (i, stmt)
    end
  else node_statement n fN cN clN filled rl brew = Raise KeyError.
Proof.
  unfold names_found, node_statement.
  pose proof (class_name_str_of_cases clN (node_prediction n)) as Hc.
  destruct (has_name clN (node_prediction n)); [|by rewrite Hc].
  destruct Hc as [cls ->]. cbn [mbind result_bind andb].
  pose proof (node_attributes_cases n fN cN cls rl) as Ha.
  assert (Hgen :
    if (match n with
        | Internal _ _ _ fi _ _ _ _ => has_name fN fi
        | Leaf _ _ _ => true
        end)
    then match node_id n with
         | Some _ => exists attrs, node_attributes n fN cN cls rl = Ok attrs
         | None => node_attributes n fN cN cls rl = Raise KeyError
         end
    else node_attributes n fN cN cls rl = Raise KeyError).
  { destruct n; [done|]. done. }
  clear Ha.
  destruct (match n with
            | Internal _ _ _ fi _ _ _ _ => has_name fN fi
            | Leaf _ _ _ => true
            end); [|by rewrite Hgen].
  unfold node_getid.
  destruct (node_id n) as [i|]; [|by rewrite Hgen].
  destruct Hgen as [attrs ->]. cbn [mbind result_bind].
  destruct filled; cbn [andb].
  - pose proof (list_getitem_range brew (node_prediction n)) as Hb.
    destruct (index_in_range brew (node_prediction n)); cbn [negb].
    + destruct Hb as (h & -> & _). simpl. eauto.
    + by rewrite Hb.
  - simpl. eauto.
Qed.

(** X1.  The outcome of [node_to_str] on any node and any arguments.  When
    [classNames] is given and has no entry at the prediction, or the node is
    internal and [featureNames] is given and has no entry at the feature
    index, the call raises [KeyError]; so it does when the node has no id.
    Otherwise, when [filled] is set and the prediction is not an index of
    [colorBrew] (negative indices count from the end), it raises
    [IndexError].  Otherwise it appends exactly one statement, which starts
    with the id, and returns the text of the id.  In the cases where it
    raises, [nodeList] is left as it was. *)
Theorem node_to_str_outcome n fN cN clN numC filled rl brew nodeList :
  let run := node_to_str n fN cN clN numC filled rl brew nodeList in
  if names_found fN clN n then
    match node_id n with
    | None => run = (Raise KeyError, nodeList)
    | Some i =>
        if filled && negb (index_in_range brew (node_prediction n))
        then run = (Raise IndexError, nodeList)
        else exists stmt, run = (Ok (str_Z i), nodeList ++ [stmt])
                          /\ stmt_id stmt = str_Z i
    end
  else run = (Raise KeyError, nodeList).
Proof.
  intros run. subst run. rewrite node_to_str_run.
  pose proof (node_statement_cases n fN cN clN filled rl brew) as H.
  destruct (names_found fN clN n); [|by rewrite H].
  destruct (node_id n) as [i|]; [|by rewrite H].
  destruct (filled && negb (index_in_range brew (node_prediction n)));
    [by rewrite H|].
  destruct H as [stmt H]. rewrite H. exists stmt. split; [done|].
  apply node_statement_id in H as [_ ->].
  apply (stmt_id_str_Z i EmptyString).
Qed.

(** X2.  The statement of a leaf formatted without class names: the id,
    then in brackets the attribute shape=ellipse when [round_leaves] is set,
    the label with the id, the impurity with four decimals and Class # with
    the prediction, and the fill colour when [filled] is set.  The feature
    names and the category names are not looked at. *)
Theorem leaf_statement (id prediction : Z) (impurity : float)
    (fN : option (list string)) (cN : option (gmap (Z + string) (list string)))
    (numC : Z) (rl : bool) (brew : list float) (nodeList : list string) :
  let n := Leaf (Some id) prediction impurity in
  let shape := if rl then "shape=ellipse," else "" in
  let label :=
    " label=" +:+ DQ +:+ "Node ID " +:+ str_Z id
    +:+ "\nImpurity = " +:+ fmt4 impurity
    +:+ "\nPrediction = Class #" +:+ str_Z prediction +:+ DQ +:+ " " in
  node_to_str n fN cN None numC false rl brew nodeList
    = (Ok (str_Z id),
       nodeList ++ [str_Z id +:+ " [" +:+ shape +:+ label +:+ "]"])
  /\ node_to_str n fN cN None numC true rl brew nodeList
     = match list_getitem brew prediction with
       | Ok h =>
           (Ok (str_Z id),
            nodeList ++ [str_Z id +:+ " [" +:+ shape +:+ label +:+ ","
                         +:+ fillcolor_attr h (float_sub (Z2F 1) impurity)
                         +:+ "]"])
       | Raise e => (Raise e, nodeList)
       end.
Proof.
  intros n shape label. split.
  - rewrite node_to_str_run. unfold node_statement. simpl.
    unfold shape, label, label_leaf. destruct rl; simpl;
      by rewrite !string_app_assoc.
  - rewrite node_to_str_run. unfold node_statement. simpl.
    unfold mbind, result_bind. simpl.
    destruct (list_getitem brew prediction) as [h|e]; [|done].
    unfold shape, label, label_leaf. destruct rl; simpl;
      by rewrite !string_app_assoc.
Qed.

(* ===================================================================== *)
(** * [relations_to_str]: any tree *)
(* ===================================================================== *)

Lemma render_nodes_ids t : node_id <$> render_nodes t = render_ids t.
Proof.
  induction t as [|? ? ? ? ? ? l IHl r IHr]; [done|].
  cbn [render_nodes render_ids]. rewrite !fmap_app, IHl, IHr. done.
Qed.

Lemma render_nodes_length t : length (render_nodes t) = (4 * internal_count t)%nat.
Proof. by rewrite <- render_ids_length, <- render_nodes_ids, length_fmap. Qed.

Lemma nodes_root t : t ∈ nodes t.
Proof. destruct t; apply list_elem_of_here. Qed.

Lemma render_nodes_nodes t n : n ∈ render_nodes t -> n ∈ nodes t.
Proof.
  induction t as [|? ? ? ? ? ? l IHl r IHr]; [by inversion 1|].
  pose proof (nodes_root l) as Hl. pose proof (nodes_root r) as Hr.
  simpl. set_solver.
Qed.

Lemma nodes_render_nodes id p imp fi sp g l r n :
  let t := Internal id p imp fi sp g l r in
  n ∈ nodes t -> n ∈ render_nodes t.
Proof.
  intros t. subst t. revert id p imp fi sp g r.
  assert (Hgen : forall u, forall n, n ∈ nodes u -> n = u \/ n ∈ render_nodes u).
  { induction u as [|? ? ? ? ? ? l' IHl r' IHr]; intros m.
    - simpl. rewrite list_elem_of_singleton. auto.
    - simpl. intros Hm. apply elem_of_cons in Hm as [->|Hm]; [by left|].
      right. apply elem_of_app in Hm as [H|H].
      + destruct (IHl _ H) as [->|H']; set_solver.
      + destruct (IHr _ H) as [->|H']; set_solver. }
  intros id p imp fi sp g r H.
  destruct (Hgen _ _ H) as [->|H']; [|done].
  apply list_elem_of_here.
Qed.

Lemma statement_ready_cases fN cN clN filled rl brew n :
  if statement_ready fN clN filled brew n
  then exists i stmt, node_id n = Some i
         /\ node_statement n fN cN clN filled rl brew = Ok (i, stmt)
  else node_statement n fN cN clN filled rl brew = Raise KeyError
       \/ (filled = true /\ index_in_range brew (node_prediction n) = false
           /\ node_statement n fN cN clN filled rl brew = Raise IndexError).
Proof.
  pose proof (node_statement_cases n fN cN clN filled rl brew) as H.
  unfold statement_ready.
  destruct (names_found fN clN n); [|by left].
  destruct (node_id n) as [i|]; [|by left]. cbn [andb].
  destruct filled; cbn [andb negb orb] in *.
  - destruct (index_in_range brew (node_prediction n)); cbn [negb] in *.
    + destruct H as [stmt H]. eauto.
    + right. done.
  - destruct H as [stmt H]. eauto.
Qed.

Section relations_more.
Context (fN : option (list string))
        (cN : option (gmap (Z + string) (list string)))
        (clN : option (list string)) (numC : Z) (filled rl : bool)
        (brew : list float).

Abbreviation format' := (format_node fN cN clN numC filled rl brew).
Abbreviation ready := (statement_ready fN clN filled brew).
Abbreviation statement := (fun n => node_statement n fN cN clN filled rl brew).

Lemma format_node_cases n nodeList :
  if ready n
  then exists i stmt, node_id n = Some i
         /\ format' n nodeList = (Ok (str_Z i), nodeList ++ [stmt])
  else exists e, format' n nodeList = (Raise e, nodeList)
                 /\ statement n = Raise e.
Proof.
  rewrite format_node_run.
  pose proof (statement_ready_cases fN cN clN filled rl brew n) as H.
  destruct (ready n).
  - destruct H as (i & stmt & Hi & ->). eauto.
  - destruct H as [->|(_ & _ & ->)]; eauto.
Qed.

(** A traversal either goes through, and then every node it formats was
    ready, or stops at the first node that is not, with the exception of
    that node; the statements appended before are kept. *)
Lemma render_tree_cases (t : node) :
  forall (relations nodeList : list string),
    (Forall (fun n => ready n = true) (render_nodes t)
     /\ exists relations' nodeList',
          render_tree format' t relations nodeList = (Ok relations', nodeList'))
    \/ (exists e nodeList' n stmts,
          render_tree format' t relations nodeList = (Raise e, nodeList')
          /\ n ∈ render_nodes t /\ ready n = false /\ statement n = Raise e
          /\ nodeList' = nodeList ++ stmts
          /\ (length stmts < 4 * internal_count t)%nat).
Proof.
  induction t as [id p imp|id p imp fi sp g l IHl r IHr];
    intros relations nodeList.
  { left. split; [done|]. by eexists _, _. }
  cbn [render_tree render_nodes internal_count]. unfold mbind, Render_bind.
  set (t := Internal id p imp fi sp g l r).
  pose proof (format_node_cases t nodeList) as H1.
  destruct (ready t) eqn:Rt; cycle 1.
  { right. destruct H1 as (e & -> & He).
    exists e, nodeList, t, []. rewrite app_nil_r.
    split; [done|]. split; [apply list_elem_of_here|]. simpl.
    repeat split; try done. lia. }
  destruct H1 as (i1 & s1 & _ & ->).
  pose proof (format_node_cases l (nodeList ++ [s1])) as H2.
  destruct (ready l) eqn:Rl; cycle 1.
  { right. destruct H2 as (e & -> & He).
    exists e, (nodeList ++ [s1]), l, [s1].
    split; [done|]. split; [set_solver|]. simpl.
    repeat split; try done. lia. }
  destruct H2 as (i2 & s2 & _ & ->).
  pose proof (format_node_cases t ((nodeList ++ [s1]) ++ [s2])) as H3.
  rewrite Rt in H3. destruct H3 as (i3 & s3 & _ & ->).
  pose proof (format_node_cases r (((nodeList ++ [s1]) ++ [s2]) ++ [s3])) as H4.
  destruct (ready r) eqn:Rr; cycle 1.
  { right. destruct H4 as (e & -> & He).
    exists e, (((nodeList ++ [s1]) ++ [s2]) ++ [s3]), r, [s1; s2; s3].
    split; [done|]. split; [set_solver|]. simpl.
    rewrite <- !app_assoc. repeat split; try done. lia. }
  destruct H4 as (i4 & s4 & _ & ->).
  match goal with |- context [render_tree _ r ?rels ?nl] =>
    destruct (IHr rels nl) as [[Hr (rels5 & nl5 & Er)]
                              |(e & nl' & n & stmts & Er & Hn & Hnr & He & -> & Hlen)]
  end; cycle 1.
  { right. rewrite Er. eexists e, _, n, ([s1; s2; s3; s4] ++ stmts).
    split; [done|]. split; [set_solver|].
    rewrite <- !app_assoc, length_app. simpl.
    repeat split; try done. lia. }
  rewrite Er.
  pose proof Er as Er'. apply render_tree_ok in Er' as (_ & stmts5 & -> & Hids5 & _).
  assert (Hlen5 : length stmts5 = (4 * internal_count r)%nat).
  { by rewrite <- (length_fmap stmt_id), Hids5, length_fmap, render_ids_length. }
  match goal with |- context [render_tree _ l ?rels ?nl] =>
    destruct (IHl rels nl) as [[Hl (rels6 & nl6 & El)]
                              |(e & nl' & n & stmts & El & Hn & Hnr & He & -> & Hlen)]
  end; cycle 1.
  { right. rewrite El. eexists e, _, n, ([s1; s2; s3; s4] ++ stmts5 ++ stmts).
    split; [done|]. split; [set_solver|].
    rewrite <- !app_assoc, !length_app. simpl.
    repeat split; try done. lia. }
  left. rewrite El. split; [|by eexists _, _].
  repeat apply Forall_cons_2; try done. by apply Forall_app.
Qed.
End relations_more.

(** X3.  [relations_to_str] needs the ids that [add_node_ids] sets exactly
    when the root is internal: on an internal root without id it raises
    [KeyError] at once and leaves [nodeList] as it was, whatever the other
    arguments; on a root that is a leaf it returns no edge and appends
    nothing, even when the leaf has no id. *)
Theorem relations_to_str_needs_ids fN cN clN numC filled rl brew nodeList :
  (forall p imp fi sp g l r,
     relations_to_str fN cN clN numC filled rl brew
       (Internal None p imp fi sp g l r) nodeList
     = (Raise KeyError, nodeList))
  /\ (forall id p imp,
        relations_to_str fN cN clN numC filled rl brew (Leaf id p imp) nodeList
        = (Ok (Some []), nodeList)).
Proof.
  split; [|done].
  intros p imp fi sp g l r. rewrite relations_to_str_render.
  cbn [render_tree]. unfold mbind, Render_bind.
  rewrite format_node_run.
  pose proof (node_statement_cases (Internal None p imp fi sp g l r)
                fN cN clN filled rl brew) as H.
  cbn [node_id] in H.
  destruct (names_found fN clN _); by rewrite H.
Qed.

Lemma forallb_nodes_render (P : node -> bool) t :
  forallb P (nodes t) = true -> Forall (fun n => P n = true) (render_nodes t).
Proof.
  rewrite forallb_forall. intros H. apply Forall_forall. intros n Hn.
  by apply H, list_elem_of_In, render_nodes_nodes.
Qed.

Lemma edges_length t :
  length (render_internal t ≫= node_edges) = (tree_size t - 1)%nat.
Proof.
  rewrite render_edges_length. destruct (node_counts t) as [_ ->]. lia.
Qed.

(** What a rendering that goes through returns and appends. *)
Lemma relations_to_str_ready fN cN clN numC filled rl brew t nodeList :
  forallb (statement_ready fN clN filled brew) (nodes t) = true ->
  exists stmts : list string,
    relations_to_str fN cN clN numC filled rl brew t nodeList
      = (Ok (Some (render_internal t ≫= node_edges)), nodeList ++ stmts)
    /\ stmt_id <$> stmts = id_text <$> render_ids t
    /\ length stmts = (4 * internal_count t)%nat.
Proof.
  intros Hready. apply forallb_nodes_render in Hready.
  rewrite relations_to_str_render.
  destruct (render_tree_cases fN cN clN numC filled rl brew t [] nodeList)
    as [[_ (rels & nl & E)]|(e & nl & n & stmts & _ & Hn & Hnr & _)].
  - rewrite E. apply render_tree_ok in E as (-> & stmts & -> & Hids & _).
    exists stmts. split; [done|]. split; [done|].
    by rewrite <- (length_fmap stmt_id), Hids, length_fmap, render_ids_length.
  - rewrite Forall_forall in Hready. apply Hready in Hn. congruence.
Qed.

(** X4.  On a tree all of whose nodes go through [node_to_str] (names
    found, id present, prediction an index of [colorBrew] when [filled] is
    set), [relations_to_str] raises nothing.  It returns one edge for every
    node but the root, a True edge then a False edge for each internal
    node, the internal nodes taken root first and the right subtree before
    the left one.  It appends four statements for each internal node after
    the entries [nodeList] already has, in the order of [render_ids].  On a
    root that is a leaf nothing is appended; otherwise the ids declared are
    the ids of all the nodes of the tree. *)
Theorem relations_to_str_renders fN cN clN numC filled rl brew t nodeList :
  forallb (statement_ready fN clN filled brew) (nodes t) = true ->
  exists stmts : list string,
    relations_to_str fN cN clN numC filled rl brew t nodeList
      = (Ok (Some (render_internal t ≫= node_edges)), nodeList ++ stmts)
    /\ length (render_internal t ≫= node_edges) = (tree_size t - 1)%nat
    /\ length stmts = (4 * internal_count t)%nat
    /\ stmt_id <$> stmts = id_text <$> render_ids t
    /\ match t with
       | Leaf _ _ _ => stmts = []
       | Internal _ _ _ _ _ _ _ _ =>
           list_to_set (stmt_id <$> stmts)
           = (list_to_set (id_text <$> tree_ids t) : gset string)
       end.
Proof.
  intros Hready.
  destruct (relations_to_str_ready fN cN clN numC filled rl brew t nodeList
              Hready) as (stmts & Hrun & Hids & Hlen).
  exists stmts. split; [done|]. split; [apply edges_length|].
  split; [done|]. split; [done|].
  destruct t as [|id p imp fi sp g l r].
  - by destruct stmts.
  - rewrite Hids. apply list_to_set_fmap_eq. intros x.
    rewrite <- (elem_of_list_to_set (C:=gset (option Z)) x (render_ids _)).
    by rewrite render_ids_set_internal, elem_of_list_to_set.
Qed.

Lemma relations_to_str_renders_witness :
  let t := Internal (Some 0) 0 (float_lit 1 2) 3 (Continuous (float_lit 3 2))
             (float_lit 1 4) (Leaf (Some 1) 0 (Z2F 0)) (Leaf (Some 2) 1 (Z2F 0)) in
  exists stmts : list string,
    relations_to_str None None (Some ["no"; "yes"]) 2 true true
      [Z2F 0; float_lit 1 2] t ["kept"]
    = (Ok (Some [edge_true "0" "1"; edge_false "0" "2"]), ["kept"] ++ stmts)
    /\ length stmts = 4%nat
    /\ stmt_id <$> stmts = ["0"; "1"; "0"; "2"].
Proof.
  intros t.
  destruct (relations_to_str_renders None None (Some ["no"; "yes"]) 2 true true
              [Z2F 0; float_lit 1 2] t ["kept"] eq_refl)
    as (stmts & Hrun & _ & Hlen & Hids & _).
  exists stmts. split; [exact Hrun|]. split; [exact Hlen|exact Hids].
Defined.

(** X5.  On a tree with an internal root and a node that does not go
    through [node_to_str], [relations_to_str] raises: [KeyError], or
    [IndexError] when [filled] is set and some prediction is not an index of
    [colorBrew].  The entries [nodeList] had are kept, and so are the
    statements appended before the exception, fewer than four for each
    internal node: the list is not rolled back. *)
Theorem relations_to_str_stops fN cN clN numC filled rl brew nodeList
    id p imp fi sp g l r :
  let t := Internal id p imp fi sp g l r in
  forallb (statement_ready fN clN filled brew) (nodes t) = false ->
  exists (e : exn) (stmts : list string),
    relations_to_str fN cN clN numC filled rl brew t nodeList
      = (Raise e, nodeList ++ stmts)
    /\ (length stmts < 4 * internal_count t)%nat
    /\ (e = KeyError
        \/ (e = IndexError /\ filled = true
            /\ exists n, n ∈ nodes t
                 /\ index_in_range brew (node_prediction n) = false)).
Proof.
  intros t Hnot.
  apply forallb_false_elem in Hnot as (n & Hn & Hnr).
  apply nodes_render_nodes in Hn.
  rewrite relations_to_str_render.
  destruct (render_tree_cases fN cN clN numC filled rl brew t [] nodeList)
    as [[Hall _]|(e & nl & m & stmts & -> & Hm & Hmr & He & -> & Hlen)].
  - rewrite Forall_forall in Hall. apply Hall in Hn. congruence.
  - exists e, stmts. split; [done|]. split; [done|].
    pose proof (statement_ready_cases fN cN clN filled rl brew m) as Hc.
    rewrite Hmr in Hc. destruct Hc as [Hc|(Hf & Hr & Hc)].
    + left. congruence.
    + right. split; [congruence|]. split; [done|].
      exists m. split; [by apply render_nodes_nodes|done].
Qed.

Lemma relations_to_str_stops_witness :
  let t := Internal (Some 0) 0 (float_lit 1 2) 3 (Continuous (float_lit 3 2))
             (float_lit 1 4) (Leaf None 0 (Z2F 0)) (Leaf (Some 2) 1 (Z2F 0)) in
  exists (stmt : string),
    relations_to_str None None None 2 false true [] t ["kept"]
      = (Raise KeyError, ["kept"] ++ [stmt])
    /\ stmt_id stmt = "0".
Proof.
  intros t.
  destruct (relations_to_str_stops None None None 2 false true [] ["kept"]
              (Some 0) 0 (float_lit 1 2) 3 (Continuous (float_lit 3 2))
              (float_lit 1 4) (Leaf None 0 (Z2F 0)) (Leaf (Some 2) 1 (Z2F 0))
              eq_refl)
    as (e & stmts & Hrun & Hlen & _).
  fold t in Hrun. rewrite Hrun. clear Hlen.
  vm_compute in Hrun. injection Hrun as <- <-.
  eexists. split; reflexivity.
Defined.

(* ===================================================================== *)
(** * [export_graphviz] *)
(* ===================================================================== *)

Lemma get_num_classes_eq (t : node) :
  get_num_classes t = Some (Ok (max_prediction t + 1)).
Proof.
  destruct (max_prediction_spec t) as [Hin Hmax].
  unfold get_num_classes. rewrite explore_classes_root. simpl.
  rewrite (list_max_Z_spec _ (max_prediction t)); [done| |].
  - by rewrite elem_of_elements, elem_of_list_to_set.
  - intros y Hy. rewrite elem_of_elements, elem_of_list_to_set in Hy.
    by apply Hmax.
Qed.

Lemma tree_ids_nodes t : tree_ids t = node_id <$> nodes t.
Proof.
  induction t as [|? ? ? ? ? ? l IHl r IHr]; [done|].
  cbn [tree_ids nodes]. by rewrite fmap_cons, fmap_app, IHl, IHr.
Qed.

Lemma predictions_nodes t : predictions t = node_prediction <$> nodes t.
Proof.
  induction t as [|? ? ? ? ? ? l IHl r IHr]; [done|].
  cbn [predictions nodes]. by rewrite fmap_cons, fmap_app, IHl, IHr.
Qed.

(** Two trees that differ in their ids only have the same nodes, up to
    the ids. *)
Lemma nodes_erase_ids t1 t2 :
  erase_ids t1 = erase_ids t2 ->
  Forall2 (fun a b => erase_ids a = erase_ids b) (nodes t1) (nodes t2).
Proof.
  revert t2. induction t1 as [i1 p1 m1|i1 p1 m1 f1 s1 g1 l1 IHl r1 IHr];
    intros [i2 p2 m2|i2 p2 m2 f2 s2 g2 l2 r2] H; try done.
  - by repeat constructor.
  - cbn [nodes]. constructor; [done|].
    simpl in H. injection H as _ _ _ _ _ Hl Hr.
    apply Forall2_app; auto.
Qed.

Lemma names_found_erase_ids fN clN a b :
  erase_ids a = erase_ids b -> names_found fN clN a = names_found fN clN b.
Proof.
  destruct a as [i1 p1 m1|i1 p1 m1 f1 s1 g1 l1 r1],
           b as [i2 p2 m2|i2 p2 m2 f2 s2 g2 l2 r2]; simpl; try done.
  - by intros [= -> ->].
  - by intros [= -> -> -> -> -> _ _].
Qed.

Lemma node_prediction_erase_ids a b :
  erase_ids a = erase_ids b -> node_prediction a = node_prediction b.
Proof. destruct a, b; try done; simpl; congruence. Qed.

Lemma max_prediction_range t p :
  p ∈ predictions t -> p < max_prediction t + 1.
Proof. intros H. apply max_prediction_spec in H. lia. Qed.

(** The hues of a tree whose predictions are class indices. *)
Lemma color_brew_of_tree t :
  Forall (fun p => 0 <= p < 2 ^ 1023 - 1) (predictions t) ->
  let n := max_prediction t + 1 in
  0 < n < 2 ^ 1023
  /\ generate_color_brew n = Ok (hue_of n <$> seqZ 0 n)
  /\ Z.of_nat (length (hue_of n <$> seqZ 0 n)) = n
  /\ Forall (fun p => index_in_range (hue_of n <$> seqZ 0 n) p = true)
       (predictions t).
Proof.
  intros Hp n. rewrite Forall_forall in Hp.
  destruct (max_prediction_spec t) as [Hin Hmax].
  pose proof (Hp _ Hin) as Hm.
  assert (Hn : 0 < n < 2 ^ 1023) by (subst n; lia).
  assert (Hlen : Z.of_nat (length (hue_of n <$> seqZ 0 n)) = n).
  { rewrite length_fmap, length_seqZ. lia. }
  split; [done|]. split; [by apply generate_color_brew_total|].
  split; [done|]. apply Forall_forall. intros p Hin'.
  pose proof (Hp _ Hin'). pose proof (Hmax _ Hin').
  unfold index_in_range. rewrite Hlen. subst n.
  apply andb_true_iff. split; [apply Z.leb_le|apply Z.ltb_lt]; lia.
Qed.

(** After [add_node_ids], every node goes through [node_to_str] when its
    names are found and the predictions are indices of [colorBrew]. *)
Lemma statement_ready_add_node_ids fN clN filled brew t t' :
  add_node_ids t = Some t' ->
  Forall (fun p => index_in_range brew p = true) (predictions t) ->
  Forall2 (fun a' a =>
             statement_ready fN clN filled brew a' = names_found fN clN a)
    (nodes t') (nodes t).
Proof.
  intros Hrun Hp.
  destruct (add_node_ids_facts t) as (t1 & Hrun1 & Herase & _ & Hperm).
  rewrite Hrun in Hrun1. injection Hrun1 as <-.
  assert (Hids : Forall (fun n => is_Some (node_id n)) (nodes t')).
  { assert (H0 : Forall is_Some (tree_ids t')).
    { rewrite Hperm. apply Forall_fmap, Forall_forall. by eexists. }
    rewrite tree_ids_nodes, Forall_fmap in H0.
    eapply Forall_impl; [exact H0|]. by intros n Hn. }
  rewrite predictions_nodes, Forall_fmap in Hp.
  pose proof (nodes_erase_ids _ _ Herase) as H2.
  induction H2 as [|a' a l' l Ha H2 IH]; [constructor|].
  apply Forall_cons in Hids as [[i Hi] Hids].
  apply Forall_cons in Hp as [Hpa Hp].
  constructor; [|by apply IH].
  unfold statement_ready. rewrite Hi.
  rewrite (names_found_erase_ids _ _ _ _ Ha), (node_prediction_erase_ids _ _ Ha).
  simpl in Hpa. rewrite Hpa. by rewrite orb_true_r, !andb_true_r.
Qed.

Lemma forallb_Forall2_eq {A B} (P : A -> bool) (Q : B -> bool) l k :
  Forall2 (fun a b => P a = Q b) l k -> forallb P l = forallb Q k.
Proof. induction 1 as [|a b l k H _ IH]; [done|]. simpl. by rewrite H, IH. Qed.

Lemma tree_size_add_node_ids t t' :
  add_node_ids t = Some t' ->
  tree_size t' = tree_size t /\ internal_count t' = internal_count t.
Proof.
  intros Hrun.
  destruct (add_node_ids_facts t) as (t1 & Hrun1 & _ & Hshape & _).
  rewrite Hrun in Hrun1. injection Hrun1 as <-.
  assert (Hs : tree_size t' = tree_size t) by (by rewrite !tree_size_shape, Hshape).
  split; [done|].
  destruct (node_counts t) as [_ H1]. destruct (node_counts t') as [_ H2]. lia.
Qed.

(** [export_graphviz] by its steps, for predictions that are class
    indices. *)
Lemma export_graphviz_steps t fN cN clN filled rounded rl :
  Forall (fun p => 0 <= p < 2 ^ 1023 - 1) (predictions t) ->
  exists (t' : node) (brew : list float),
    add_node_ids t = Some t'
    /\ forallb (statement_ready fN clN filled brew) (nodes t')
       = forallb (names_found fN clN) (nodes t)
    /\ Forall (fun p => index_in_range brew p = true) (predictions t')
    /\ export_graphviz t fN cN clN filled rounded rl
       = match relations_to_str fN cN clN (max_prediction t + 1) filled rl brew
                 t' [] with
         | (Raise e, _) => Some (Raise e)
         | (Ok None, _) => None
         | (Ok (Some graph), node_list) =>
             Some (Ok (dot_string (style_of filled rounded)
                         (String.concat "" graph)
                         (String.concat NL node_list)))
         end.
Proof.
  intros Hp.
  destruct (color_brew_of_tree t Hp) as (Hn & Hbrew & Hlen & Hrange).
  destruct (add_node_ids_facts t) as (t' & Hrun & Herase & _).
  exists t', (hue_of (max_prediction t + 1) <$> seqZ 0 (max_prediction t + 1)).
  split; [done|]. split; [|split].
  - apply forallb_Forall2_eq. by apply statement_ready_add_node_ids.
  - replace (predictions t') with (predictions t); [done|].
    rewrite !predictions_nodes.
    pose proof (nodes_erase_ids _ _ Herase) as H2.
    induction H2 as [|a' a l' l Ha H2 IH]; [done|].
    rewrite !fmap_cons, IH. f_equal. symmetry.
    by apply node_prediction_erase_ids.
  - unfold export_graphviz. rewrite get_num_classes_eq. cbn [mbind option_bind].
    rewrite Hbrew, Hrun. cbn [mbind option_bind].
    destruct (relations_to_str _ _ _ _ _ _ _ _ _) as [[[graph|]|e] nl]; try done.
    unfold style_of. by destruct filled, rounded.
Qed.

(** Declared ids after a rendering of a numbered tree. *)
Lemma declared_ids_numbered t t' (stmts : list string) :
  add_node_ids t = Some t' ->
  (0 < internal_count t)%nat ->
  stmt_id <$> stmts = id_text <$> render_ids t' ->
  list_to_set (stmt_id <$> stmts)
  = (list_to_set (str_Z <$> seqZ 0 (Z.of_nat (tree_size t))) : gset string).
Proof.
  intros Hrun Hint Hids.
  destruct (tree_size_add_node_ids _ _ Hrun) as [_ Hcount].
  destruct (add_node_ids_facts t) as (t1 & Hrun1 & _ & _ & Hperm).
  rewrite Hrun in Hrun1. injection Hrun1 as <-.
  rewrite Hids.
  destruct t' as [|id p imp fi sp g l r]; [simpl in Hcount; lia|].
  replace (str_Z <$> seqZ 0 (Z.of_nat (tree_size t)))
    with (id_text <$> (Some <$> seqZ 0 (Z.of_nat (tree_size t))))
    by (by rewrite <- list_fmap_compose).
  apply list_to_set_fmap_eq. intros x.
  rewrite <- (elem_of_list_to_set (C:=gset (option Z)) x (render_ids _)).
  by rewrite render_ids_set_internal, elem_of_list_to_set, Hperm.
Qed.

Lemma declared_ids_size (n : nat) :
  size (list_to_set (str_Z <$> seqZ 0 (Z.of_nat n)) : gset string) = n.
Proof.
  rewrite size_list_to_set, length_fmap, length_seqZ; [lia|].
  apply NoDup_fmap_2; [exact str_Z_inj|apply NoDup_seqZ].
Qed.

(** X6.  [export_graphviz] on a tree whose predictions are class indices
    (not negative, below [2^1023 - 1]) and whose names are all found, which
    is the case when no names are given: it raises nothing and returns the
    template filled with the style (filled, rounded, both or neither), the
    edges one after the other and the node statements joined by newlines.
    The edges and the statements are those of the tree numbered by
    [add_node_ids]: one edge for every node but the root and four statements
    for each internal node.  On a root that is a leaf there is no statement;
    otherwise the ids declared are the integers from 0 to the number of
    nodes less one, as many distinct names as the tree has nodes. *)
Theorem export_graphviz_renders t fN cN clN filled rounded rl :
  Forall (fun p => 0 <= p < 2 ^ 1023 - 1) (predictions t) ->
  forallb (names_found fN clN) (nodes t) = true ->
  exists (t' : node) (node_list : list string),
    add_node_ids t = Some t'
    /\ export_graphviz t fN cN clN filled rounded rl
       = Some (Ok (dot_string
                     (match filled, rounded with
                      | true, true => "filled,rounded"
                      | true, false => "filled"
                      | false, true => "rounded"
                      | false, false => ""
                      end)
                     (String.concat "" (render_internal t' ≫= node_edges))
                     (String.concat NL node_list)))
    /\ length (render_internal t' ≫= node_edges) = (tree_size t - 1)%nat
    /\ length node_list = (4 * internal_count t)%nat
    /\ stmt_id <$> node_list = id_text <$> render_ids t'
    /\ match t with
       | Leaf _ _ _ => node_list = []
       | Internal _ _ _ _ _ _ _ _ =>
           list_to_set (stmt_id <$> node_list)
           = (list_to_set (str_Z <$> seqZ 0 (Z.of_nat (tree_size t)))
              : gset string)
           /\ size (list_to_set (stmt_id <$> node_list) : gset string)
              = tree_size t
       end.
Proof.
  intros Hp Hnames.
  destruct (export_graphviz_steps t fN cN clN filled rounded rl Hp)
    as (t' & brew & Hrun & Hready & _ & Hexp).
  rewrite Hnames in Hready.
  destruct (relations_to_str_ready fN cN clN (max_prediction t + 1) filled rl
              brew t' [] Hready) as (stmts & Hrel & Hids & Hlen).
  destruct (tree_size_add_node_ids _ _ Hrun) as [Hsize Hcount].
  exists t', stmts. split; [done|]. split; [|split; [|split; [|split]]].
  - rewrite Hexp, Hrel. by destruct filled, rounded.
  - by rewrite edges_length, Hsize.
  - by rewrite Hlen, Hcount.
  - done.
  - destruct t as [|id p imp fi sp g l r].
    + simpl in Hcount. rewrite Hcount in Hlen. by destruct stmts.
    + assert (Hset : list_to_set (stmt_id <$> stmts)
                     = (list_to_set
                          (str_Z <$> seqZ 0 (Z.of_nat
                             (tree_size (Internal id p imp fi sp g l r))))
                        : gset string)).
      { apply (declared_ids_numbered _ t'); [done|simpl; lia|done]. }
      split; [done|]. rewrite Hset. apply declared_ids_size.
Qed.

Lemma export_graphviz_renders_witness :
  let t := Internal None 0 (float_lit 1 2) 3 (Continuous (float_lit 3 2))
             (float_lit 1 4) (Leaf None 0 (Z2F 0)) (Leaf None 1 (Z2F 0)) in
  exists (node_list : list string),
    export_graphviz t (Some ["a"; "b"; "c"; "d"]) None None true true true
    = Some (Ok (dot_string "filled,rounded"
                  (String.concat "" [edge_true "0" "1"; edge_false "0" "2"])
                  (String.concat NL node_list)))
    /\ length node_list = 4%nat
    /\ stmt_id <$> node_list = ["0"; "1"; "0"; "2"].
Proof.
  intros t.
  destruct (export_graphviz_renders t (Some ["a"; "b"; "c"; "d"]) None None
              true true true)
    as (t' & node_list & Hrun & Hexp & _ & Hlen & Hids & _).
  - repeat constructor; done.
  - reflexivity.
  - vm_compute in Hrun. injection Hrun as <-.
    exists node_list. split; [exact Hexp|]. split; [exact Hlen|exact Hids].
Defined.

(** X7.  A tree that is a single leaf is exported as a graph with an empty
    body: no edge and no node statement, so the leaf is not drawn.  The
    names given are not looked at. *)
Theorem export_graphviz_single_leaf id p imp fN cN clN filled rounded rl :
  0 <= p < 2 ^ 1023 - 1 ->
  export_graphviz (Leaf id p imp) fN cN clN filled rounded rl
  = Some (Ok (dot_string
                (match filled, rounded with
                 | true, true => "filled,rounded"
                 | true, false => "filled"
                 | false, true => "rounded"
                 | false, false => ""
                 end) "" "")).
Proof.
  intros Hp.
  destruct (export_graphviz_steps (Leaf id p imp) fN cN clN filled rounded rl)
    as (t' & brew & Hrun & _ & _ & Hexp).
  { simpl. constructor; [done|constructor]. }
  rewrite Hexp. vm_compute in Hrun. injection Hrun as <-.
  by destruct filled, rounded.
Qed.

Lemma export_graphviz_single_leaf_witness :
  export_graphviz (Leaf None 1 (float_lit 1 4)) (Some []) None (Some [])
    true false true
  = Some (Ok (dot_string "filled" "" "")).
Proof.
  apply (export_graphviz_single_leaf None 1 (float_lit 1 4) (Some []) None
           (Some []) true false true).
  split; done.
Defined.

(** X8.  When the largest prediction of the tree is -1 the number of
    classes is 0 and [export_graphviz] raises [ZeroDivisionError], from
    [generate_color_brew], before any node is formatted. *)
Theorem export_graphviz_no_class t fN cN clN filled rounded rl :
  max_prediction t = -1 ->
  export_graphviz t fN cN clN filled rounded rl = Some (Raise ZeroDivisionError).
Proof.
  intros Hm. unfold export_graphviz. rewrite get_num_classes_eq, Hm. done.
Qed.

Lemma export_graphviz_no_class_witness :
  export_graphviz (Leaf None (-1) (Z2F 0)) None None None true true true
  = Some (Raise ZeroDivisionError).
Proof.
  apply (export_graphviz_no_class (Leaf None (-1) (Z2F 0))). reflexivity.
Defined.

(** X9.  On a tree with an internal root whose predictions are class
    indices, [export_graphviz] raises [KeyError] as soon as one node has a
    prediction without entry in the [classNames] given, or one internal node
    has a feature index without entry in the [featureNames] given. *)
Theorem export_graphviz_missing_name id p imp fi sp g l r fN cN clN
    filled rounded rl :
  let t := Internal id p imp fi sp g l r in
  Forall (fun p => 0 <= p < 2 ^ 1023 - 1) (predictions t) ->
  forallb (names_found fN clN) (nodes t) = false ->
  export_graphviz t fN cN clN filled rounded rl = Some (Raise KeyError).
Proof.
  intros t Hp Hnames.
  destruct (export_graphviz_steps t fN cN clN filled rounded rl Hp)
    as (t' & brew & Hrun & Hready & Hrange & Hexp).
  rewrite Hnames in Hready. rewrite Hexp.
  apply forallb_false_elem in Hready as (n & Hn & Hnr).
  assert (Hint : exists id' p' imp' fi' sp' g' l' r',
             t' = Internal id' p' imp' fi' sp' g' l' r').
  { destruct (tree_size_add_node_ids _ _ Hrun) as [_ Hcount].
    destruct t'; [simpl in Hcount; lia|]. by eexists _, _, _, _, _, _, _, _. }
  destruct Hint as (id' & p' & imp' & fi' & sp' & g' & l' & r' & ->).
  apply nodes_render_nodes in Hn.
  rewrite relations_to_str_render.
  destruct (render_tree_cases fN cN clN (max_prediction t + 1) filled rl brew
              (Internal id' p' imp' fi' sp' g' l' r') [] [])
    as [[Hall _]|(e & nl & m & stmts & -> & Hm & Hmr & He & _)].
  - rewrite Forall_forall in Hall. apply Hall in Hn. congruence.
  - pose proof (statement_ready_cases fN cN clN filled rl brew m) as Hc.
    rewrite Hmr in Hc. destruct Hc as [Hc|(_ & Hr & _)]; [congruence|].
    apply render_nodes_nodes in Hm.
    rewrite predictions_nodes, Forall_fmap, Forall_forall in Hrange.
    apply Hrange in Hm. simpl in Hm. congruence.
Qed.

Lemma export_graphviz_missing_name_witness :
  export_graphviz
    (Internal None 0 (float_lit 1 2) 3 (Continuous (float_lit 3 2))
       (float_lit 1 4) (Leaf None 0 (Z2F 0)) (Leaf None 2 (Z2F 0)))
    None None (Some ["no"; "yes"]) true true true
  = Some (Raise KeyError).
Proof.
  apply (export_graphviz_missing_name None 0 (float_lit 1 2) 3
           (Continuous (float_lit 3 2)) (float_lit 1 4)
           (Leaf None 0 (Z2F 0)) (Leaf None 2 (Z2F 0))
           None None (Some ["no"; "yes"]) true true true).
  - repeat constructor; done.
  - reflexivity.
Defined.

(** X10.  For a tree whose predictions are class indices, the list
    [generate_color_brew] returns for the number [get_num_classes] returns
    has that many hues, at least one, and has an entry at the prediction of
    every node of the tree: the lookup [colorBrew[prediction]] of
    [node_to_str] cannot fail. *)
Theorem color_brew_covers_predictions t :
  Forall (fun p => 0 <= p < 2 ^ 1023 - 1) (predictions t) ->
  exists (n : Z) (brew : list float),
    get_num_classes t = Some (Ok n)
    /\ generate_color_brew n = Ok brew
    /\ 1 <= n /\ Z.of_nat (length brew) = n
    /\ forall p, p ∈ predictions t -> list_getitem brew p = Ok (hue_of n p).
Proof.
  intros Hp.
  destruct (color_brew_of_tree t Hp) as (Hn & Hbrew & Hlen & _).
  eexists _, _. split; [apply get_num_classes_eq|]. split; [exact Hbrew|].
  split; [lia|]. split; [done|].
  intros p Hin. rewrite Forall_forall in Hp. pose proof (Hp _ Hin).
  pose proof (max_prediction_range _ _ Hin).
  unfold list_getitem. cbv zeta. rewrite Hlen.
  destruct (Z.ltb_spec p 0); [lia|].
  destruct (Z.leb_spec 0 p); [|lia].
  destruct (Z.ltb_spec p (max_prediction t + 1)); [|lia]. simpl.
  rewrite list_lookup_fmap, lookup_seqZ_lt by lia. simpl.
  do 2 f_equal. lia.
Qed.

Lemma color_brew_covers_predictions_witness :
  exists (brew : list float),
    generate_color_brew 3 = Ok brew
    /\ list_getitem brew 2 = Ok (hue_of 3 2).
Proof.
  destruct (color_brew_covers_predictions
              (Internal None 0 (float_lit 1 2) 0 (Continuous (Z2F 1))
                 (float_lit 1 4) (Leaf None 0 (Z2F 0)) (Leaf None 2 (Z2F 0))))
    as (n & brew & Hn & Hbrew & _ & _ & Hall).
  - repeat constructor; done.
  - vm_compute in Hn. injection Hn as <-.
    exists brew. split; [exact Hbrew|]. apply Hall. simpl. set_solver.
Defined.

(* ===================================================================== *)
(** * [add_node_ids]: the order inside a level *)
(* ===================================================================== *)

Lemma foldl_rank (p : path) (acc : Z) :
  foldl (fun acc d => 2 * acc + side_bit d) acc p
  = acc * 2 ^ Z.of_nat (length p) + path_rank p.
Proof.
  unfold path_rank. revert acc. induction p as [|d p IH]; intros acc.
  - simpl. lia.
  - cbn [foldl length]. rewrite IH, (IH (2 * 0 + side_bit d)).
    rewrite Nat2Z.inj_succ, Z.pow_succ_r by lia. ring.
Qed.

Lemma path_rank_app (p q : path) :
  path_rank (p ++ q) = path_rank p * 2 ^ Z.of_nat (length q) + path_rank q.
Proof. unfold path_rank at 1. rewrite foldl_app. apply foldl_rank. Qed.

Lemma path_rank_single (d : side) : path_rank [d] = side_bit d.
Proof. unfold path_rank. simpl. lia. Qed.

Lemma path_rank_snoc (p : path) (d : side) :
  path_rank (p ++ [d]) = 2 * path_rank p + side_bit d.
Proof.
  rewrite path_rank_app, path_rank_single. change (2 ^ Z.of_nat (length [d])) with 2.
  lia.
Qed.

Lemma pow2_succ (n : nat) : 2 ^ Z.of_nat (S n) = 2 * 2 ^ Z.of_nat n.
Proof. rewrite Nat2Z.inj_succ, Z.pow_succ_r by lia. done. Qed.

Lemma path_rank_bounds (p : path) : 0 <= path_rank p < 2 ^ Z.of_nat (length p).
Proof.
  induction p as [|d p IH] using rev_ind; [done|].
  rewrite path_rank_snoc, length_app. cbn [length].
  rewrite Nat.add_1_r, pow2_succ. destruct d; simpl; lia.
Qed.

Lemma heap_index_snoc (p : path) (d : side) :
  heap_index (p ++ [d]) = 2 * heap_index p + 1 + side_bit d.
Proof.
  unfold heap_index. rewrite path_rank_snoc, length_app. cbn [length].
  rewrite Nat.add_1_r, pow2_succ. lia.
Qed.

Lemma heap_index_bounds (p : path) :
  2 ^ Z.of_nat (length p) - 1 <= heap_index p
  /\ heap_index p < 2 ^ Z.of_nat (S (length p)) - 1.
Proof.
  pose proof (path_rank_bounds p). unfold heap_index.
  rewrite pow2_succ. lia.
Qed.

Lemma heap_index_nonneg (p : path) : 0 <= heap_index p.
Proof.
  pose proof (heap_index_bounds p) as [H _].
  assert (0 < 2 ^ Z.of_nat (length p)) by (apply Z.pow_pos_nonneg; lia). lia.
Qed.

Lemma heap_index_depth (p q : path) :
  (length p < length q)%nat -> heap_index p < heap_index q.
Proof.
  intros Hlen. pose proof (heap_index_bounds p) as [_ Hp].
  pose proof (heap_index_bounds q) as [Hq _].
  assert (2 ^ Z.of_nat (S (length p)) <= 2 ^ Z.of_nat (length q))
    by (apply Z.pow_le_mono_r; lia).
  lia.
Qed.

Lemma heap_index_left_of (p q : path) :
  length p = length q -> left_of p q -> heap_index p < heap_index q.
Proof.
  intros Hlen (c & a & b & -> & ->).
  rewrite !length_app in Hlen. cbn [length] in Hlen.
  assert (Hab : length a = length b) by lia.
  unfold heap_index. rewrite !length_app. cbn [length]. rewrite Hab.
  change (GoLeft :: a) with ([GoLeft] ++ a).
  change (GoRight :: b) with ([GoRight] ++ b).
  rewrite !path_rank_app, !path_rank_single, !length_app, Hab.
  cbn [length side_bit].
  pose proof (path_rank_bounds a) as Ha. pose proof (path_rank_bounds b).
  rewrite Hab in Ha.
  set (k := 2 ^ Z.of_nat (length b)) in *.
  set (K := 2 ^ Z.of_nat (1 + length b)).
  assert (0 < K) by (apply Z.pow_pos_nonneg; lia).
  nia.
Qed.

Lemma heap_index_inj_level (p q : path) :
  heap_index p = heap_index q -> length p = length q.
Proof.
  intros H. destruct (Nat.lt_trichotomy (length p) (length q)) as [Hl|[Hl|Hl]];
    [|done|]; apply heap_index_depth in Hl; lia.
Qed.

(** ** Increasing lists *)

Lemma increasing_nil {A} (f : A -> Z) : increasing f [].
Proof. intros i j x y _ Hi. by destruct i. Qed.

Lemma increasing_cons {A} (f : A -> Z) (a : A) (l : list A) :
  Forall (fun x => f a < f x) l -> increasing f l -> increasing f (a :: l).
Proof.
  intros Ha Hl i j x y Hij Hi Hj.
  destruct j as [|j]; [lia|]. simpl in Hj.
  destruct i as [|i]; simpl in Hi.
  - injection Hi as <-. rewrite Forall_forall in Ha.
    by apply Ha, list_elem_of_lookup_2 with j.
  - apply (Hl i j); [lia|done..].
Qed.

Lemma increasing_inv {A} (f : A -> Z) (a : A) (l : list A) :
  increasing f (a :: l) -> Forall (fun x => f a < f x) l /\ increasing f l.
Proof.
  intros H. split.
  - apply Forall_forall. intros x Hx. apply list_elem_of_lookup in Hx as [j Hj].
    apply (H 0%nat (S j)); [lia|done..].
  - intros i j x y Hij Hi Hj. apply (H (S i) (S j)); [lia|done..].
Qed.

Lemma increasing_app {A} (f : A -> Z) (l k : list A) :
  increasing f l -> increasing f k ->
  (forall x y, x ∈ l -> y ∈ k -> f x < f y) ->
  increasing f (l ++ k).
Proof.
  induction l as [|a l IH]; intros Hl Hk Hlk; [done|].
  apply increasing_inv in Hl as [Ha Hl]. simpl.
  apply increasing_cons.
  - apply Forall_app. split; [done|].
    apply Forall_forall. intros y Hy. apply Hlk; [apply list_elem_of_here|done].
  - apply IH; [done..|]. intros x y Hx Hy.
    apply Hlk; [by apply list_elem_of_further|done].
Qed.

(** In an increasing list the values grow at least as fast as the
    indices. *)
Lemma increasing_gap {A} (f : A -> Z) (l : list A) (d : nat) :
  increasing f l ->
  forall (i : nat) (x y : A),
    l !! i = Some x -> l !! (i + d)%nat = Some y -> f x + Z.of_nat d <= f y.
Proof.
  intros Hl. induction d as [|d IH]; intros i x y Hi Hj.
  - rewrite Nat.add_0_r in Hj. assert (x = y) by congruence. subst. lia.
  - destruct (lookup_lt_is_Some_2 l (i + d)) as [z Hz].
    { apply lookup_lt_Some in Hj. lia. }
    pose proof (IH i x z Hi Hz).
    pose proof (Hl (i + d)%nat (i + S d)%nat z y ltac:(lia) Hz Hj). lia.
Qed.

(** An increasing list of as many values as there are numbers from 0 up
    to its length lists them in order. *)
Lemma increasing_full {A} (f : A -> Z) (l : list A) (k : nat) (x : A) :
  increasing f l ->
  Forall (fun y => 0 <= f y < Z.of_nat (length l)) l ->
  l !! k = Some x -> f x = Z.of_nat k.
Proof.
  intros Hl Hb Hk. rewrite Forall_forall in Hb.
  pose proof (lookup_lt_Some _ _ _ Hk) as Hlt.
  destruct (lookup_lt_is_Some_2 l 0) as [a Ha]; [lia|].
  destruct (lookup_lt_is_Some_2 l (length l - 1)) as [b Hb']; [lia|].
  pose proof (increasing_gap f l k Hl 0%nat a x Ha Hk) as H1.
  pose proof (increasing_gap f l (length l - 1 - k) Hl k x b Hk) as H2.
  replace (k + (length l - 1 - k))%nat with (length l - 1)%nat in H2 by lia.
  specialize (H2 Hb').
  pose proof (Hb a (list_elem_of_lookup_2 _ _ _ Ha)).
  pose proof (Hb b (list_elem_of_lookup_2 _ _ _ Hb')).
  lia.
Qed.

(** ** The queue is served by increasing heap index *)

Lemma children_heap_index s p :
  Forall (fun c => 2 * heap_index p + 1 <= heap_index c <= 2 * heap_index p + 2)
    (children s p)
  /\ increasing heap_index (children s p).
Proof.
  unfold children. destruct (shape_at p s) as [[|l r]|];
    try (split; [done|apply increasing_nil]).
  split.
  - repeat constructor; rewrite heap_index_snoc; simpl; lia.
  - apply increasing_cons; [|apply increasing_cons; [done|apply increasing_nil]].
    repeat constructor. rewrite !heap_index_snoc. simpl. lia.
Qed.

Lemma queue_sorted_step s p rest :
  queue_sorted (p :: rest) -> queue_sorted (rest ++ children s p).
Proof.
  intros [Hinc Hbound]. apply increasing_inv in Hinc as [Hp Hrest].
  destruct (children_heap_index s p) as [Hc Hcinc].
  rewrite Forall_forall in Hbound, Hp, Hc.
  split.
  - apply increasing_app; [done..|].
    intros x y Hx Hy. pose proof (Hbound x Hx). pose proof (Hc y Hy). lia.
  - destruct rest as [|p' rest'].
    + simpl. destruct (children s p) as [|c1 cs] eqn:E; [done|].
      apply Forall_forall. intros a Ha.
      pose proof (Hc c1 (list_elem_of_here _ _)).
      pose proof (Hc a (list_elem_of_further _ _ _ Ha)).
      pose proof (heap_index_nonneg p). lia.
    + simpl. pose proof (Hp p' (list_elem_of_here _ _)).
      apply increasing_inv in Hrest as [Hp' _]. rewrite Forall_forall in Hp'.
      apply Forall_app. split; apply Forall_forall; intros a Ha.
      * pose proof (Hp' a Ha). pose proof (Hbound a (list_elem_of_further _ _ _ Ha)).
        lia.
      * pose proof (Hc a Ha). lia.
Qed.

Lemma bfs_order_increasing s (fuel : nat) :
  forall queue : list path,
    queue_sorted queue ->
    increasing heap_index (bfs_order fuel queue s)
    /\ forall x : Z,
         Forall (fun a => x < heap_index a) queue ->
         Forall (fun a => x < heap_index a) (bfs_order fuel queue s).
Proof.
  induction fuel as [|fuel IH]; intros queue Hq.
  { split; [apply increasing_nil|done]. }
  destruct queue as [|p rest].
  { split; [apply increasing_nil|done]. }
  cbn [bfs_order].
  destruct (IH _ (queue_sorted_step s p rest Hq)) as [Hinc Hlow].
  destruct Hq as [Hq _]. apply increasing_inv in Hq as [Hp _].
  destruct (children_heap_index s p) as [Hc _].
  split.
  - apply increasing_cons; [|done]. apply Hlow, Forall_app. split; [done|].
    eapply Forall_impl; [exact Hc|]. simpl. intros a Ha.
    pose proof (heap_index_nonneg p). lia.
  - intros x Hx. apply Forall_cons in Hx as [Hxp Hx].
    constructor; [done|]. apply Hlow, Forall_app. split; [done|].
    eapply Forall_impl; [exact Hc|]. simpl. intros a Ha.
    pose proof (heap_index_nonneg p). lia.
Qed.

Lemma bfs_order_root_increasing s fuel :
  increasing heap_index (bfs_order fuel [[]] s).
Proof.
  apply bfs_order_increasing. split; [|done].
  apply increasing_cons; [done|apply increasing_nil].
Qed.

(** The ids follow the heap indices. *)
Lemma add_node_ids_heap_order t t' p q i j :
  add_node_ids t = Some t' ->
  id_at p t' = Some i -> id_at q t' = Some j ->
  (i < j <-> heap_index p < heap_index q).
Proof.
  intros Hrun Hp Hq.
  destruct (add_node_ids_rank _ _ _ _ Hrun Hp) as [Hi Hpi].
  destruct (add_node_ids_rank _ _ _ _ Hrun Hq) as [Hj Hqj].
  pose proof (bfs_order_root_increasing (shape_of t) (S (tree_size t))) as Hinc.
  split.
  - intros Hij. apply (Hinc (Z.to_nat i) (Z.to_nat j)); [lia|done..].
  - intros Hh. destruct (Z.lt_trichotomy i j) as [Hlt|[Heq|Hgt]]; [done| |].
    + subst j. rewrite Hpi in Hqj. injection Hqj as ->. lia.
    + pose proof (Hinc (Z.to_nat j) (Z.to_nat i) q p ltac:(lia) Hqj Hpi). lia.
Qed.

(** C4.  [add_node_ids] serves a first-in first-out queue that starts
    with the root, numbers the nodes from 0 in the order served, and
    enqueues the left child, then the right child, of every internal node.
    It always returns; the tree returned is the tree given with ids added.
    The ids are the integers from 0 to the number of nodes less one, each
    used once.  The id of a node is its rank in the order in which the queue
    is served.  The root has id 0; a node nearer to the root has a smaller
    id than a deeper node; of two nodes of the same depth the one to the
    left has the smaller id: the ids are ordered as the indices of the nodes
    in the array layout of a binary heap.  The right child of a node has the
    id that follows the id of its left child.  The ids depend on the shape
    of the tree alone.
    On a root with two leaves the ids are 0 for the root, 1 for the left
    leaf and 2 for the right leaf. *)
Theorem add_node_ids_breadth_first (t : node) :
  exists t' : node,
    add_node_ids t = Some t'
    /\ erase_ids t' = erase_ids t
    /\ tree_ids t' ≡ₚ Some <$> seqZ 0 (Z.of_nat (tree_size t))
    /\ (forall (p : path) (i : Z),
          id_at p t' = Some i <->
          0 <= i
          /\ bfs_order (S (tree_size t)) [[]] (shape_of t) !! Z.to_nat i
             = Some p)
    /\ node_id t' = Some 0
    /\ (forall (p q : path) (i j : Z),
          id_at p t' = Some i -> id_at q t' = Some j ->
          (length p < length q)%nat -> i < j)
    /\ (forall (p q : path) (i j : Z),
          id_at p t' = Some i -> id_at q t' = Some j ->
          length p = length q -> left_of p q -> i < j)
    /\ (forall (p q : path) (i j : Z),
          id_at p t' = Some i -> id_at q t' = Some j ->
          (i < j <-> heap_index p < heap_index q))
    /\ (forall (p : path) (i : Z),
          id_at (p ++ [GoLeft]) t' = Some i ->
          id_at (p ++ [GoRight]) t' = Some (i + 1))
    /\ (forall u u' : node,
          shape_of u = shape_of t -> add_node_ids u = Some u' ->
          tree_ids u' = tree_ids t')
    /\ (forall i p m f s g i1 p1 m1 i2 p2 m2,
          t = Internal i p m f s g (Leaf i1 p1 m1) (Leaf i2 p2 m2) ->
          t' = Internal (Some 0) p m f s g
                 (Leaf (Some 1) p1 m1) (Leaf (Some 2) p2 m2)).
Proof.
  destruct (add_node_ids_facts t) as (t' & Hrun & Herase & Hshape & Hperm).
  exists t'. split; [done|]. split; [done|]. split; [done|].
  split; [|split; [|split; [|split; [|split; [|split; [|split]]]]]].
  - intros p i. split.
    + by apply add_node_ids_rank.
    + intros [Hi Hk].
      rewrite (add_node_ids_of_rank _ _ _ _ Hrun Hk). f_equal. lia.
  - apply (add_node_ids_of_rank t t' [] 0 Hrun).
    destruct t; reflexivity.
  - intros p q i j Hp Hq Hlen.
    destruct (add_node_ids_rank _ _ _ _ Hrun Hp) as [Hi Hpi].
    destruct (add_node_ids_rank _ _ _ _ Hrun Hq) as [Hj Hqj].
    destruct (Z.lt_trichotomy i j) as [Hlt|[Heq|Hgt]]; [done| |].
    + subst j. rewrite Hpi in Hqj. injection Hqj as ->. lia.
    + pose proof (bfs_order_root_by_depth (shape_of t) (S (tree_size t))
                    (Z.to_nat j) (Z.to_nat i) q p ltac:(lia) Hqj Hpi).
      lia.
  - intros p q i j Hp Hq Hlen Hleft.
    apply (add_node_ids_heap_order _ _ _ _ _ _ Hrun Hp Hq).
    by apply heap_index_left_of.
  - intros p q i j Hp Hq. by apply (add_node_ids_heap_order t t').
  - intros p i Hl.
    destruct (add_node_ids_rank _ _ _ _ Hrun Hl) as [Hi Hli].
    pose proof (id_at_valid _ _ _ Hl) as [sh Hv].
    rewrite Hshape, shape_at_app in Hv.
    destruct (shape_at p (shape_of t)) as [[|l r]|] eqn:Hp; try done.
    destruct (bfs_order_siblings (shape_of t) (S (tree_size t)) [[]] p l r)
      as (k & Hk1 & Hk2); [| | |done|].
    + repeat constructor. by eexists.
    + simpl. unfold below. simpl.
      rewrite app_nil_r, length_fmap, shape_paths_length, tree_size_shape. lia.
    + simpl. unfold below. simpl. rewrite app_nil_r, list_fmap_id.
      apply shape_paths_complete. by eexists.
    + pose proof (add_node_ids_of_rank _ _ _ _ Hrun Hk1) as Hl'.
      rewrite Hl in Hl'. injection Hl' as ->.
      rewrite (add_node_ids_of_rank _ _ _ _ Hrun Hk2). f_equal. lia.
  - intros u u' Hu Hrun'. by apply (add_node_ids_by_shape u t).
  - intros i p m f s g i1 p1 m1 i2 p2 m2 ->.
    vm_compute in Hrun. by injection Hrun as <-.
Qed.

(** X11.  Among the nodes of one depth [add_node_ids] numbers from left
    to right: of two nodes of the same depth, the one to the left has the
    smaller id.  More generally the ids are ordered as the indices of the
    nodes in the array layout of a binary heap, and the id of a node is at
    most that index. *)
Theorem add_node_ids_left_to_right t t' p q i j :
  add_node_ids t = Some t' ->
  id_at p t' = Some i -> id_at q t' = Some j ->
  (length p = length q -> left_of p q -> i < j)
  /\ (i < j <-> heap_index p < heap_index q)
  /\ 0 <= i <= heap_index p.
Proof.
  intros Hrun Hp Hq. split; [|split].
  - intros Hlen Hleft.
    apply (add_node_ids_heap_order _ _ _ _ _ _ Hrun Hp Hq).
    by apply heap_index_left_of.
  - by apply (add_node_ids_heap_order t t').
  - destruct (add_node_ids_rank _ _ _ _ Hrun Hp) as [Hi Hpi].
    split; [done|].
    pose proof (bfs_order_root_increasing (shape_of t) (S (tree_size t))) as Hinc.
    pose proof (increasing_gap heap_index _ (Z.to_nat i) Hinc 0%nat [] p
                  eq_refl Hpi) as H.
    change (heap_index []) with 0 in H. lia.
Qed.

Lemma add_node_ids_left_to_right_witness :
  let leaf := Leaf None 0 (Z2F 0) in
  let inner := Internal None 0 (Z2F 0) 0 (Continuous (Z2F 1)) (Z2F 0) leaf leaf in
  let t := Internal None 0 (Z2F 0) 0 (Continuous (Z2F 1)) (Z2F 0) inner inner in
  exists t',
    add_node_ids t = Some t'
    /\ id_at [GoLeft; GoRight] t' = Some 4
    /\ id_at [GoRight; GoLeft] t' = Some 5
    /\ 4 < 5.
Proof.
  intros leaf inner t.
  destruct (add_node_ids t) as [t'|] eqn:Hrun; [|by vm_compute in Hrun].
  exists t'. split; [reflexivity|].
  assert (Hp : id_at [GoLeft; GoRight] t' = Some 4).
  { vm_compute in Hrun. injection Hrun as <-. reflexivity. }
  assert (Hq : id_at [GoRight; GoLeft] t' = Some 5).
  { vm_compute in Hrun. injection Hrun as <-. reflexivity. }
  split; [exact Hp|]. split; [exact Hq|].
  apply (proj1 (add_node_ids_left_to_right t t' [GoLeft; GoRight]
                  [GoRight; GoLeft] 4 5 Hrun Hp Hq)).
  - reflexivity.
  - exists [], [GoRight], [GoLeft]. split; reflexivity.
Defined.

Lemma perfect_size (d : nat) :
  Z.of_nat (shape_size (perfect d)) = 2 ^ Z.of_nat (S d) - 1.
Proof.
  induction d as [|d IH]; [done|].
  cbn [perfect shape_size]. rewrite (pow2_succ (S d)). lia.
Qed.

Lemma perfect_depth (p : path) (d : nat) :
  is_Some (shape_at p (perfect d)) -> (length p <= d)%nat.
Proof.
  revert d. induction p as [|x p IH]; intros d Hp; [simpl; lia|].
  destruct d as [|d]; [by destruct Hp|].
  simpl in Hp. assert (is_Some (shape_at p (perfect d))) by (by destruct x).
  apply IH in H. simpl. lia.
Qed.

(** In a perfect tree the queue is served by heap index. *)
Lemma bfs_order_perfect (d : nat) (k : nat) (p : path) :
  bfs_order (S (shape_size (perfect d))) [[]] (perfect d) !! k = Some p ->
  heap_index p = Z.of_nat k.
Proof.
  intros Hk.
  destruct (bfs_order_root_facts (perfect d)) as (_ & Hvalid & Hlen).
  cbv zeta in Hvalid, Hlen.
  apply (increasing_full heap_index _ k p
           (bfs_order_root_increasing (perfect d) (S (shape_size (perfect d)))));
    [|done].
  rewrite Hlen, perfect_size.
  eapply Forall_impl; [exact Hvalid|]. simpl. intros q Hq.
  apply perfect_depth in Hq.
  pose proof (heap_index_bounds q) as [_ Hb]. pose proof (heap_index_nonneg q).
  assert (2 ^ Z.of_nat (S (length q)) <= 2 ^ Z.of_nat (S d))
    by (apply Z.pow_le_mono_r; lia).
  lia.
Qed.

(** X12.  On a perfect tree [add_node_ids] gives every node its index in
    the array layout of a binary heap: the children of the node of id [k]
    have the ids [2k+1], to the left, and [2k+2], to the right. *)
Theorem add_node_ids_perfect (t t' : node) (d : nat) :
  shape_of t = perfect d ->
  add_node_ids t = Some t' ->
  (forall p i, id_at p t' = Some i -> i = heap_index p)
  /\ (forall p k j,
        id_at p t' = Some k ->
        (id_at (p ++ [GoLeft]) t' = Some j -> j = 2 * k + 1)
        /\ (id_at (p ++ [GoRight]) t' = Some j -> j = 2 * k + 2)).
Proof.
  intros Hshape Hrun.
  assert (Hidx : forall p i, id_at p t' = Some i -> i = heap_index p).
  { intros p i Hp.
    destruct (add_node_ids_rank _ _ _ _ Hrun Hp) as [Hi Hpi].
    rewrite tree_size_shape, Hshape in Hpi.
    apply bfs_order_perfect in Hpi. lia. }
  split; [done|].
  intros p k j Hp. apply Hidx in Hp.
  split; intros Hc; apply Hidx in Hc; rewrite heap_index_snoc in Hc;
    simpl in Hc; lia.
Qed.

Lemma add_node_ids_perfect_witness :
  let leaf := Leaf None 0 (Z2F 0) in
  let inner := Internal None 0 (Z2F 0) 0 (Continuous (Z2F 1)) (Z2F 0) leaf leaf in
  let t := Internal None 0 (Z2F 0) 0 (Continuous (Z2F 1)) (Z2F 0) inner inner in
  exists t',
    add_node_ids t = Some t'
    /\ id_at [GoRight] t' = Some 2
    /\ id_at [GoRight; GoLeft] t' = Some 5
    /\ 5 = 2 * 2 + 1.
Proof.
  intros leaf inner t.
  destruct (add_node_ids t) as [t'|] eqn:Hrun; [|by vm_compute in Hrun].
  exists t'. split; [reflexivity|].
  assert (Hp : id_at [GoRight] t' = Some 2).
  { vm_compute in Hrun. injection Hrun as <-. reflexivity. }
  assert (Hq : id_at ([GoRight] ++ [GoLeft]) t' = Some 5).
  { vm_compute in Hrun. injection Hrun as <-. reflexivity. }
  split; [exact Hp|]. split; [exact Hq|].
  exact (proj1 (proj2 (add_node_ids_perfect t t' 2 eq_refl Hrun)
                  [GoRight] 2 5 Hp) Hq).
Defined.

(* ===================================================================== *)
(** * [generate_color_brew] outside the positive integers *)
(* ===================================================================== *)

Lemma binary_round_aux_sign (m e : Z) (l : location) :
  binary_round_aux prec emax true m e l
  = SFopp (binary_round_aux prec emax false m e l).
Proof.
  unfold binary_round_aux.
  destruct (shr_fexp prec emax m e l) as [mrs' e'].
  destruct (shr_fexp prec emax _ e' loc_Exact) as [mrs'' e''].
  destruct (shr_m mrs''); [done| |done].
  by destruct (e'' <=? emax - prec).
Qed.

Lemma Z2F_opp (p : positive) : Z2F (Zneg p) = SFopp (Z2F (Zpos p)).
Proof.
  unfold Z2F, binary_normalize, binary_round.
  destruct (shl_align _ _ _) as [mz ez]. apply binary_round_aux_sign.
Qed.

Lemma float_of_int_negative (z : Z) :
  - 2 ^ 1023 < z < 0 ->
  exists m e, float_of_int z = Ok (S754_finite true m e).
Proof.
  intros Hz. destruct z as [|p|p]; try lia.
  destruct (Z2F_finite p) as (m & e & Hf); [lia|].
  unfold float_of_int. rewrite Z2F_opp, Hf. simpl. eauto.
Qed.

(** An integer of more than 1024 binary digits is converted to infinity. *)
Lemma binary_round_aux_huge (p : positive) :
  1024 < Zpos (digits2_pos p) ->
  binary_round_aux prec emax false (Zpos p) 0 loc_Exact = S754_infinity false.
Proof.
  intros Hd. pose proof (digits2_pos_bounds p) as Hp.
  set (d := Zpos (digits2_pos p)) in *.
  destruct (d - 53) as [|k|k] eqn:Hk; try lia.
  unfold binary_round_aux.
  rewrite (shr_fexp_exact (Zpos p) 0 (Zpos k)).
  2:{ unfold fexp, emin, prec, emax. cbn [Zdigits2]. fold d. lia. }
  cbn [shr].
  pose proof (iter_pos_shr_1_m k
                {| shr_m := Zpos p; shr_r := false; shr_s := false |}
                ltac:(done)) as Hm'.
  cbn [shr_m] in Hm'.
  set (mrs' := SpecFloat.iter_pos shr_1 k _) in *.
  assert (Hpow : 0 < 2 ^ Zpos k) by (by apply Z.pow_pos_nonneg).
  assert (Hsplit : 2 ^ d = 2 ^ 53 * 2 ^ Zpos k).
  { rewrite <- Z.pow_add_r by lia. f_equal. lia. }
  assert (Hsplit' : 2 ^ (d - 1) = 2 ^ 52 * 2 ^ Zpos k).
  { rewrite <- Z.pow_add_r by lia. f_equal. lia. }
  assert (Hm'b : 2 ^ 52 <= shr_m mrs' < 2 ^ 53).
  { rewrite Hm'. split.
    - apply Z.div_le_lower_bound; lia.
    - apply Z.div_lt_upper_bound; lia. }
  set (m1 := round_nearest_even (shr_m mrs') (loc_of_shr_record mrs')).
  assert (Hm1 : 2 ^ 52 <= m1 <= 2 ^ 53).
  { subst m1.
    destruct (round_nearest_even_cases (shr_m mrs') (loc_of_shr_record mrs'))
      as [-> | ->]; lia. }
  clearbody m1. clear Hm' Hm'b mrs'.
  pose proof (Zdigits2_bounds m1 ltac:(lia)) as Hd1.
  assert (Hd1' : Zdigits2 m1 = 53 \/ Zdigits2 m1 = 54).
  { assert (0 <= Zdigits2 m1) by (destruct m1; simpl; lia).
    assert (52 < Zdigits2 m1).
    { apply pow2_lt_inv; [lia..|]. lia. }
    assert (Zdigits2 m1 - 1 < 54).
    { apply pow2_lt_inv; [lia..|].
      assert (2 ^ 53 < 2 ^ 54) by done. lia. }
    lia. }
  destruct Hd1' as [Hq|Hq].
  - rewrite (shr_fexp_exact m1 (0 + Zpos k) 0).
    2:{ unfold fexp, emin, prec, emax. rewrite Hq. lia. }
    cbn [shr shr_m]. destruct m1 as [|q|q]; try lia.
    destruct (Z.leb_spec (0 + Zpos k) (emax - prec));
      [unfold emax, prec in *; lia|done].
  - rewrite (shr_fexp_exact m1 (0 + Zpos k) 1).
    2:{ unfold fexp, emin, prec, emax. rewrite Hq. lia. }
    cbn [shr SpecFloat.iter_pos].
    assert (Hq2 : 0 < shr_m (shr_1 {| shr_m := m1; shr_r := false;
                                     shr_s := false |})).
    { rewrite shr_1_m by (cbn [shr_m]; lia). cbn [shr_m].
      apply Z.div_str_pos. assert (2 <= 2 ^ 52) by done. lia. }
    destruct (shr_m _) as [|q'|q']; try lia.
    destruct (Z.leb_spec (0 + Zpos k + 1) (emax - prec));
      [unfold emax, prec in *; lia|done].
Qed.

Lemma Z2F_huge (p : positive) :
  2 ^ 1024 <= Zpos p -> Z2F (Zpos p) = S754_infinity false.
Proof.
  intros Hz.
  pose proof (digits2_pos_bounds p) as [_ Hhi].
  assert (Hd : 1024 < Zpos (digits2_pos p)).
  { apply pow2_lt_inv; [lia..|]. lia. }
  unfold Z2F, binary_normalize, binary_round, shl_align.
  unfold fexp at 1. unfold emin, prec at 1 2, emax at 1.
  replace (Z.max (Zpos (digits2_pos p) + 0 - 53) (3 - 1024 - 53) - 0)
    with (Zpos (digits2_pos p) - 53) by lia.
  destruct (Zpos (digits2_pos p) - 53) as [|k|k] eqn:Hk; try lia.
  by apply binary_round_aux_huge.
Qed.

Lemma float_of_int_huge (z : Z) :
  2 ^ 1024 <= Z.abs z -> float_of_int z = Raise OverflowError.
Proof.
  intros Hz. assert (0 < 2 ^ 1024) by done.
  destruct z as [|p|p]; simpl in Hz; try lia; unfold float_of_int.
  - by rewrite Z2F_huge.
  - by rewrite Z2F_opp, Z2F_huge.
Qed.

(** X13.  [generate_color_brew] outside the positive integers that
    [float] can hold.  For 0 it raises [ZeroDivisionError].  For a negative
    integer above [-2^1023] it returns the empty list.  For an integer of
    absolute value [2^1024] or more it raises [OverflowError]. *)
Theorem generate_color_brew_outside_domain :
  generate_color_brew 0 = Raise ZeroDivisionError
  /\ (forall n, - 2 ^ 1023 < n < 0 -> generate_color_brew n = Ok [])
  /\ (forall n, 2 ^ 1024 <= Z.abs n ->
        generate_color_brew n = Raise OverflowError).
Proof.
  split; [done|]. split.
  - intros n Hn. unfold generate_color_brew.
    destruct (float_of_int_negative n Hn) as (m & e & ->).
    cbn [mbind result_bind]. unfold float_truediv. cbn [float_is_zero].
    cbn [mbind result_bind]. rewrite seqZ_nil by lia. done.
  - intros n Hn. unfold generate_color_brew.
    by rewrite float_of_int_huge.
Qed.

Lemma generate_color_brew_outside_domain_witness :
  generate_color_brew (-3) = Ok []
  /\ generate_color_brew (- 2 ^ 1024) = Raise OverflowError.
Proof.
  split.
  - apply (proj1 (proj2 generate_color_brew_outside_domain) (-3)).
    split; reflexivity.
  - apply (proj2 (proj2 generate_color_brew_outside_domain) (- 2 ^ 1024)).
    discriminate.
Defined.

(* ===================================================================== *)
(** * [add_node_ids] and [relations_to_str]: the edges form a tree *)
(* ===================================================================== *)

Lemma tree_edges_text t :
  render_internal t ≫= node_edges = edge_text <$> tree_edges t.
Proof.
  unfold tree_edges. induction (render_internal t) as [|n ns IH]; [done|].
  rewrite !bind_cons, fmap_app, IH. f_equal. by destruct n.
Qed.

Lemma tree_ids_head t : tree_ids t = node_id t :: tail (tree_ids t).
Proof. by destruct t. Qed.

(** Every node but the root is the child of exactly one edge. *)
Lemma tree_edges_children t :
  (fun e => e.2) <$> tree_edges t ≡ₚ tail (tree_ids t).
Proof.
  induction t as [|id p imp fi sp g l IHl r IHr]; [done|].
  unfold tree_edges in *. cbn [render_internal tree_ids tail].
  rewrite bind_cons, bind_app, !fmap_app, IHl, IHr.
  rewrite (tree_ids_head l) at 2. rewrite (tree_ids_head r) at 2.
  simpl. apply Permutation_skip.
  rewrite (Permutation_app_comm (tail (tree_ids r))).
  by rewrite Permutation_middle.
Qed.

Lemma render_internal_subtree t n :
  n ∈ render_internal t -> exists p, subtree p t = Some n.
Proof.
  induction t as [|id pr imp fi sp g l IHl r IHr]; [by inversion 1|].
  cbn [render_internal]. rewrite elem_of_cons, elem_of_app.
  intros [->|[H|H]].
  - by exists [].
  - destruct (IHr H) as [p Hp]. by exists (GoRight :: p).
  - destruct (IHl H) as [p Hp]. by exists (GoLeft :: p).
Qed.

Lemma subtree_app p q t : subtree (p ++ q) t = subtree p t ≫= subtree q.
Proof.
  revert t. induction p as [|d p IH]; intros t; [done|].
  destruct t as [|? ? ? ? ? ? l r]; [done|]. destruct d; simpl; apply IH.
Qed.

Lemma add_node_ids_all_ids t t' p n :
  add_node_ids t = Some t' -> subtree p t' = Some n -> is_Some (node_id n).
Proof.
  intros Hrun Hp.
  destruct (add_node_ids_facts t) as (t1 & Hrun1 & _ & _ & Hperm).
  rewrite Hrun in Hrun1. injection Hrun1 as <-.
  assert (H0 : Forall is_Some (tree_ids t')).
  { rewrite Hperm. apply Forall_fmap, Forall_forall. by eexists. }
  rewrite tree_ids_paths, Forall_fmap, Forall_forall in H0.
  specialize (H0 p). unfold compose, id_at in H0. rewrite Hp in H0.
  apply H0, shape_paths_complete. rewrite <- subtree_shape, Hp. by eexists.
Qed.

(** Along an edge the id grows. *)
Lemma tree_edges_grow t t' :
  add_node_ids t = Some t' ->
  Forall (fun e => exists i j : Z,
            e.1.2 = Some i /\ e.2 = Some j /\ 0 <= i < j)
    (tree_edges t').
Proof.
  intros Hrun. apply Forall_forall. intros [[k parent] child] He.
  unfold tree_edges in He. apply list_elem_of_bind in He as (n & He & Hn).
  apply render_internal_subtree in Hn as [p Hp].
  destruct n as [|id pr imp fi sp g l r]; [by inversion He|].
  assert (Hl : subtree (p ++ [GoLeft]) t' = Some l)
    by (by rewrite subtree_app, Hp).
  assert (Hr : subtree (p ++ [GoRight]) t' = Some r)
    by (by rewrite subtree_app, Hp).
  destruct (add_node_ids_all_ids _ _ _ _ Hrun Hp) as [i Hi].
  destruct (add_node_ids_all_ids _ _ _ _ Hrun Hl) as [jl Hjl].
  destruct (add_node_ids_all_ids _ _ _ _ Hrun Hr) as [jr Hjr].
  assert (Hip : id_at p t' = Some i) by (unfold id_at; by rewrite Hp).
  assert (Hil : id_at (p ++ [GoLeft]) t' = Some jl)
    by (unfold id_at; by rewrite Hl).
  assert (Hir : id_at (p ++ [GoRight]) t' = Some jr)
    by (unfold id_at; by rewrite Hr).
  destruct (add_node_ids_rank _ _ _ _ Hrun Hip) as [Hi0 _].
  assert (Hdepth : forall d, heap_index p < heap_index (p ++ [d])).
  { intros d. apply heap_index_depth. rewrite length_app. simpl. lia. }
  pose proof (proj2 (add_node_ids_heap_order _ _ _ _ _ _ Hrun Hip Hil)
                (Hdepth GoLeft)).
  pose proof (proj2 (add_node_ids_heap_order _ _ _ _ _ _ Hrun Hip Hir)
                (Hdepth GoRight)).
  cbn [node_id] in Hi. subst id.
  simpl in He. rewrite !elem_of_cons in He.
  destruct He as [[= -> -> ->]|[[= -> -> ->]|He]]; [| |by inversion He].
  - exists i, jl. simpl. by rewrite Hjl.
  - exists i, jr. simpl. by rewrite Hjr.
Qed.

(** X14.  The edges [relations_to_str] returns for a tree numbered by
    [add_node_ids] are those of a tree rooted at 0: every id from 1 to the
    number of nodes less one is the child of exactly one edge, 0 of none,
    and every edge goes from an id to a larger id. *)
Theorem rendered_edges_form_a_tree fN cN clN numC filled rl brew
    (t t' : node) (nodeList nodeList' graph : list string) :
  add_node_ids t = Some t' ->
  relations_to_str fN cN clN numC filled rl brew t' nodeList
    = (Ok (Some graph), nodeList') ->
  graph = edge_text <$> tree_edges t'
  /\ (fun e => e.2) <$> tree_edges t'
     ≡ₚ Some <$> seqZ 1 (Z.of_nat (tree_size t) - 1)
  /\ Forall (fun e => exists i j : Z,
               e.1.2 = Some i /\ e.2 = Some j /\ 0 <= i < j)
       (tree_edges t').
Proof.
  intros Hrun Hrel. split; [|split].
  - rewrite relations_to_str_render in Hrel.
    destruct (render_tree _ t' [] nodeList) as [[rels|e] nl] eqn:E; [|done].
    injection Hrel as <- <-.
    apply render_tree_ok in E as (-> & _). apply tree_edges_text.
  - rewrite tree_edges_children.
    destruct (add_node_ids_facts t) as (t1 & Hrun1 & _ & _ & Hperm).
    rewrite Hrun in Hrun1. injection Hrun1 as <-.
    assert (H0 : node_id t' = Some 0).
    { apply (add_node_ids_of_rank t t' [] 0 Hrun). destruct t; reflexivity. }
    rewrite tree_ids_head, H0 in Hperm.
    assert (Hn : (0 < tree_size t)%nat) by (destruct t; simpl; lia).
    rewrite seqZ_cons in Hperm by lia. rewrite fmap_cons in Hperm.
    apply Permutation_cons_inv in Hperm.
    by replace (Z.pred (Z.of_nat (tree_size t)))
      with (Z.of_nat (tree_size t) - 1) in Hperm by lia.
  - by apply (tree_edges_grow t).
Qed.

Lemma rendered_edges_form_a_tree_witness :
  let t := Internal None 0 (float_lit 1 2) 3 (Continuous (float_lit 3 2))
             (float_lit 1 4) (Leaf None 0 (Z2F 0)) (Leaf None 1 (Z2F 0)) in
  exists t' graph nodeList',
    add_node_ids t = Some t'
    /\ relations_to_str None None None 2 false true [] t' []
       = (Ok (Some graph), nodeList')
    /\ graph = [edge_true "0" "1"; edge_false "0" "2"]
    /\ tree_edges t' = [(true, Some 0, Some 1); (false, Some 0, Some 2)].
Proof.
  intros t.
  destruct (add_node_ids t) as [t'|] eqn:Hrun; [|by vm_compute in Hrun].
  destruct (relations_to_str None None None 2 false true [] t' [])
    as [[[graph|]|e] nodeList'] eqn:Hrel.
  - exists t', graph, nodeList'. split; [reflexivity|]. split; [exact Hrel|].
    destruct (rendered_edges_form_a_tree None None None 2 false true [] t t'
                [] nodeList' graph Hrun Hrel) as (Hgraph & _ & _).
    rewrite Hgraph. vm_compute in Hrun. injection Hrun as <-.
    split; reflexivity.
  - vm_compute in Hrun. injection Hrun as <-. by vm_compute in Hrel.
  - vm_compute in Hrun. injection Hrun as <-. by vm_compute in Hrel.
Defined.
